(** * Poke-Gen: the selection-and-caching engine of [random_pokemon.py]

    A shallow embedding of the cache layer, the evolution resolver, the
    constraint filters and the team sampler, with the properties of the
    specification stated over it.

    Python values that come out of [response.json()] are modelled by the
    type [json]; dictionaries used as caches are insertion-ordered
    association lists keyed by hashable Python values; the module-level
    caches, the request counter and the scheduled message boxes are threaded
    through a state-and-exception monad. *)

From Stdlib Require Import Ascii String.
From stdpp Require Import base option list gmap strings pretty.

Open Scope string_scope.
Open Scope list_scope.
Open Scope Z_scope.

#[local] Set Warnings "-register-all".

(** ** Python values *)

(** A decoded JSON document.  [JNull] is Python's [None]; [JObj] is a [dict]
    with [str] keys, in insertion order.  Floating point numbers are not
    modelled: no function of the engine reads one. *)
Inductive json : Type :=
  | JNull
  | JBool (b : bool)
  | JNum (z : Z)
  | JStr (s : string)
  | JArr (items : list json)
  | JObj (members : list (string * json)).

(** The exceptions that the engine's code can raise or catch. *)
Inductive exn : Type :=
  | RequestException
  | KeyError
  | ValueError
  | TypeError
  | IndexError
  | AttributeError.

Global Instance exn_eq_dec : EqDecision exn.
Proof. solve_decision. Defined.

Inductive result (A : Type) : Type :=
  | Ok (a : A)
  | Raise (e : exn).
Arguments Ok {A} a.
Arguments Raise {A} e.

Definition result_bind {A B} (r : result A) (k : A → result B) : result B :=
  match r with
  | Ok a => k a
  | Raise e => Raise e
  end.

(** Hashable Python values, up to Python's [==]: [True == 1] and
    [False == 0], so booleans are collapsed into integers. *)
Inductive pyhash : Type :=
  | HNone
  | HInt (z : Z)
  | HStr (s : string).

Global Instance pyhash_eq_dec : EqDecision pyhash.
Proof. solve_decision. Defined.

Global Instance pyhash_countable : Countable pyhash.
Proof.
  refine (inj_countable'
    (λ h, match h with
          | HNone => inl ()
          | HInt z => inr (inl z)
          | HStr s => inr (inr s)
          end)
    (λ x, match x with
          | inl _ => HNone
          | inr (inl z) => HInt z
          | inr (inr s) => HStr s
          end) _).
  by intros [].
Defined.

(** [hash(v)]: lists and dicts are unhashable. *)
Definition py_hash (v : json) : result pyhash :=
  match v with
  | JNull => Ok HNone
  | JBool b => Ok (HInt (if b then 1 else 0))
  | JNum z => Ok (HInt z)
  | JStr s => Ok (HStr s)
  | JArr _ | JObj _ => Raise TypeError
  end.

(** Truth value of a Python object, as tested by [if not x]. *)
Definition truthy (v : json) : bool :=
  match v with
  | JNull => false
  | JBool b => b
  | JNum z => negb (z =? 0)
  | JStr s => negb (String.eqb s "")
  | JArr items => match items with [] => false | _ => true end
  | JObj members => match members with [] => false | _ => true end
  end.

(** Lookup in the members of a [dict] with [str] keys. *)
Fixpoint assoc (k : string) (members : list (string * json)) : option json :=
  match members with
  | [] => None
  | (k', v) :: rest => if String.eqb k k' then Some v else assoc k rest
  end.

(** [v[k]] for a [str] subscript [k]. *)
Definition getitem (v : json) (k : string) : result json :=
  match v with
  | JObj members =>
      match assoc k members with
      | Some x => Ok x
      | None => Raise KeyError
      end
  | _ => Raise TypeError
  end.

(** [v.get(k, default)] *)
Definition dict_get (v : json) (k : string) (dflt : json) : result json :=
  match v with
  | JObj members => Ok (default dflt (assoc k members))
  | _ => Raise AttributeError
  end.

(** [for x in v]: the items that iterating [v] yields.  A [str] yields its
    characters and a [dict] its keys. *)
Definition py_iter (v : json) : result (list json) :=
  match v with
  | JArr items => Ok items
  | JStr s => Ok ((λ c, JStr (String c "")) <$> String.list_ascii_of_string s)
  | JObj members => Ok ((λ kv, JStr kv.1) <$> members)
  | _ => Raise TypeError
  end.

(** [s.split(sep)] for a one-character separator. *)
Fixpoint split_on (sep : ascii) (s : string) : list string :=
  match s with
  | EmptyString => [""]
  | String c rest =>
      if Ascii.eqb c sep then "" :: split_on sep rest
      else match split_on sep rest with
           | part :: parts => String c part :: parts
           | [] => [String c ""]
           end
  end.

(** [l[-n]] for [n >= 1]. *)
Definition from_end {A} (l : list A) (n : nat) : result A :=
  match rev l !! pred n with
  | Some x => Ok x
  | None => Raise IndexError
  end.

(** [l.index(x)] *)
Fixpoint list_index (x : string) (l : list string) : result Z :=
  match l with
  | [] => Raise ValueError
  | y :: rest =>
      if String.eqb x y then Ok 0
      else result_bind (list_index x rest) (λ i, Ok (i + 1))
  end.

Definition ascii_upper (c : ascii) : ascii :=
  let n := nat_of_ascii c in
  if ((97 <=? n) && (n <=? 122))%nat then ascii_of_nat (n - 32) else c.

Definition ascii_lower (c : ascii) : ascii :=
  let n := nat_of_ascii c in
  if ((65 <=? n) && (n <=? 90))%nat then ascii_of_nat (n + 32) else c.

Fixpoint string_map (f : ascii → ascii) (s : string) : string :=
  match s with
  | EmptyString => EmptyString
  | String c rest => String (f c) (string_map f rest)
  end.

(** [s.capitalize()] on ASCII letters; other bytes are left as they are. *)
Definition capitalize (s : string) : string :=
  match s with
  | EmptyString => EmptyString
  | String c rest => String (ascii_upper c) (string_map ascii_lower rest)
  end.

(** Runs [f] on every item in order, threading [s]; stops at the first
    exception, keeping what [s] had become. *)
Fixpoint for_each {A S} (f : A → S → result unit * S) (l : list A) (s : S)
  : result unit * S :=
  match l with
  | [] => (Ok (), s)
  | x :: rest =>
      match f x s with
      | (Ok _, s') => for_each f rest s'
      | (Raise e, s') => (Raise e, s')
      end
  end.

(** ** Cache dictionaries

    [pokemon_cache] and [species_cache] are Python dicts.  They are declared
    [Dict[int, Dict]], yet [json.load] gives them [str] keys, so keys are
    hashable values.  Insertion order is kept, as [json.dump] writes the items
    in that order. *)
Abbreviation pydict := (list (pyhash * json)).

(** [d[k]] when [k in d] *)
Fixpoint dict_lookup (k : pyhash) (d : pydict) : option json :=
  match d with
  | [] => None
  | (k', v) :: rest => if decide (k = k') then Some v else dict_lookup k rest
  end.

(** [d[k] = v]: an existing key keeps its position. *)
Fixpoint dict_insert (k : pyhash) (v : json) (d : pydict) : pydict :=
  match d with
  | [] => [(k, v)]
  | (k', v') :: rest =>
      if decide (k = k') then (k', v) :: rest
      else (k', v') :: dict_insert k v rest
  end.

(** The JSON text of a dictionary key, as [json.dump] writes it.  (The
    caches never have a [bool] key, which would be written as [true] or
    [false].) *)
Definition json_key (k : pyhash) : string :=
  match k with
  | HNone => "null"
  | HInt z => pretty z
  | HStr s => s
  end.

(** [json.dump(d, f)]: the members of the JSON object written to the file.
    Records are [str]-keyed documents, which the dump writes as they are. *)
Definition json_dump (d : pydict) : list (string * json) :=
  (λ kv, (json_key kv.1, kv.2)) <$> d.

(** [json.load(f)] of a JSON object: a dict with [str] keys; of two members
    with one name the later value wins. *)
Definition json_load (members : list (string * json)) : pydict :=
  foldl (λ d kv, dict_insert (HStr kv.1) kv.2 d) [] members.

(** ** Program state *)

(** Message boxes scheduled on the UI thread. *)
Inductive warning : Type :=
  | WarnLegendary (pokemon_name : string)
  | WarnNoMorePokemon.

(** The module-level caches, the two cache files ([None]: the file does
    not exist; otherwise the members of the JSON object that [save_cache]
    wrote), the number of requests issued and of shuffles drawn so far, and
    the warnings scheduled so far. *)
Record state : Type := State {
  pokemon_cache : pydict;
  species_cache : pydict;
  evolution_cache : gmap Z (list Z);
  data_cache_file : option (list (string * json));
  species_cache_file : option (list (string * json));
  requests : nat;
  shuffles : nat;
  warnings : list warning;
}.

Definition set_pokemon_cache (d : pydict) (st : state) : state :=
  State d (species_cache st) (evolution_cache st) (data_cache_file st)
    (species_cache_file st) (requests st) (shuffles st) (warnings st).

Definition set_species_cache (d : pydict) (st : state) : state :=
  State (pokemon_cache st) d (evolution_cache st) (data_cache_file st)
    (species_cache_file st) (requests st) (shuffles st) (warnings st).

Definition set_evolution_cache (m : gmap Z (list Z)) (st : state) : state :=
  State (pokemon_cache st) (species_cache st) m (data_cache_file st)
    (species_cache_file st) (requests st) (shuffles st) (warnings st).

Definition set_files (f g : option (list (string * json))) (st : state) : state :=
  State (pokemon_cache st) (species_cache st) (evolution_cache st) f g
    (requests st) (shuffles st) (warnings st).

Definition tick_requests (st : state) : state :=
  State (pokemon_cache st) (species_cache st) (evolution_cache st)
    (data_cache_file st) (species_cache_file st) (S (requests st))
    (shuffles st) (warnings st).

Definition tick_shuffles (st : state) : state :=
  State (pokemon_cache st) (species_cache st) (evolution_cache st)
    (data_cache_file st) (species_cache_file st) (requests st)
    (S (shuffles st)) (warnings st).

Definition add_warning (w : warning) (st : state) : state :=
  State (pokemon_cache st) (species_cache st) (evolution_cache st)
    (data_cache_file st) (species_cache_file st) (requests st) (shuffles st)
    (warnings st ++ [w]).

(** A fresh process: empty caches, the two cache files as given. *)
Definition fresh (f g : option (list (string * json))) : state :=
  State [] [] ∅ f g 0 0 [].

(** Computations that read and write the state and may raise. *)
Definition M (A : Type) : Type := state → result A * state.

Global Instance M_ret : MRet M := λ A a st, (Ok a, st).

Global Instance M_bind : MBind M := λ A B k c st,
  match c st with
  | (Ok a, st') => k a st'
  | (Raise e, st') => (Raise e, st')
  end.

Global Instance M_fmap : FMap M := λ A B f c st,
  match c st with
  | (Ok a, st') => (Ok (f a), st')
  | (Raise e, st') => (Raise e, st')
  end.

Definition raise {A} (e : exn) : M A := λ st, (Raise e, st).

Definition lift {A} (r : result A) : M A := λ st, (r, st).

Definition gets {A} (f : state → A) : M A := λ st, (Ok (f st), st).

Definition modify (f : state → state) : M unit := λ st, (Ok (), f st).

(** [try: c  except (e1, e2, ...): h], where [caught] tells the listed
    exceptions. *)
Definition try_except {A} (c : M A) (caught : exn → bool) (h : M A) : M A :=
  λ st,
  match c st with
  | (Raise e, st') => if caught e then h st' else (Raise e, st')
  | r => r
  end.

(** ** Persistent cache *)

(** [load_cache]: each cache is rebound to what its file holds, when the
    file exists. *)
Definition load_cache : M unit :=
  modify (λ st,
    let st1 := match data_cache_file st with
               | Some members => set_pokemon_cache (json_load members) st
               | None => st
               end in
    match species_cache_file st1 with
    | Some members => set_species_cache (json_load members) st1
    | None => st1
    end).

(** [save_cache]: both caches are written in full. *)
Definition save_cache : M unit :=
  modify (λ st,
    set_files (Some (json_dump (pokemon_cache st)))
              (Some (json_dump (species_cache st))) st).

(** A new process started on the cache files that [st] leaves behind:
    empty caches, then [load_cache]. *)
Definition restart (st : state) : state :=
  (load_cache (fresh (data_cache_file st) (species_cache_file st))).2.

(** [save_cache()], then a new process. *)
Definition flush_and_restart (st : state) : state :=
  restart (save_cache st).2.

(** ** The engine, over a given environment *)

Section Engine.

(** The remote catalogue: [http_get n url] is what [requests.get(url)],
    [raise_for_status()] and [response.json()] give when [n] requests have
    been issued before; [None] stands for a [RequestException] (no
    connection, an error status, or a body that is not JSON, which
    [requests] reports as a [RequestException] since version 2.27). *)
Variable http_get : nat → string → option json.

(** [random.shuffle]: the order that the [n]-th shuffle of the process
    gives to a list. *)
Variable shuffle : nat → list Z → list Z.
Hypothesis shuffle_perm : ∀ n l, shuffle n l ≡ₚ l.

(** Python's [int(s)] on a [str]; [None] when it raises [ValueError]. *)
Variable py_int : string → option Z.

(** [requests.get(url)] followed by the status check and the decoding. *)
Definition fetch_json (url : string) : M json := λ st,
  (match http_get (requests st) url with
   | Some data => Ok data
   | None => Raise RequestException
   end, tick_requests st).

Definition is_request_exception (e : exn) : bool :=
  bool_decide (e = RequestException).

(** *** Remote data fetcher with memory cache *)

Definition get_pokemon_data (pokemon_id : Z) : M json :=
  cache ← gets pokemon_cache;
  match dict_lookup (HInt pokemon_id) cache with
  | Some data => mret data
  | None =>
      try_except
        (data ← fetch_json ("https://pokeapi.co/api/v2/pokemon/" +:+ pretty pokemon_id);
         modify (λ st, set_pokemon_cache
                         (dict_insert (HInt pokemon_id) data (pokemon_cache st)) st);;
         mret data)
        is_request_exception
        (mret JNull)
  end.

Definition get_pokemon_species_data (pokemon_id : Z) : M json :=
  cache ← gets species_cache;
  match dict_lookup (HInt pokemon_id) cache with
  | Some data => mret data
  | None =>
      try_except
        (data ← fetch_json ("https://pokeapi.co/api/v2/pokemon-species/" +:+ pretty pokemon_id);
         modify (λ st, set_species_cache
                         (dict_insert (HInt pokemon_id) data (species_cache st)) st);;
         mret data)
        is_request_exception
        (mret JNull)
  end.

(** *** Prefetcher

    The worker pool is modelled by one schedule, the ids in list order;
    every property below is proved from an arbitrary cache state, hence
    for whatever the workers leave behind. *)

Definition fetch_single_pokemon (pokemon_id : Z) : M unit :=
  cache ← gets pokemon_cache;
  match dict_lookup (HInt pokemon_id) cache with
  | Some _ => mret ()
  | None =>
      try_except
        (data ← fetch_json ("https://pokeapi.co/api/v2/pokemon/" +:+ pretty pokemon_id);
         modify (λ st, set_pokemon_cache
                         (dict_insert (HInt pokemon_id) data (pokemon_cache st)) st))
        (λ _, true)
        (mret ())
  end.

Definition fetch_single_species (pokemon_id : Z) : M unit :=
  cache ← gets species_cache;
  match dict_lookup (HInt pokemon_id) cache with
  | Some _ => mret ()
  | None =>
      try_except
        (data ← fetch_json ("https://pokeapi.co/api/v2/pokemon-species/" +:+ pretty pokemon_id);
         modify (λ st, set_species_cache
                         (dict_insert (HInt pokemon_id) data (species_cache st)) st))
        (λ _, true)
        (mret ())
  end.

Fixpoint for_ids (f : Z → M unit) (ids : list Z) : M unit :=
  match ids with
  | [] => mret ()
  | i :: rest => f i;; for_ids f rest
  end.

Definition prefetch_pokemon_data (pokemon_ids : list Z) : M unit :=
  for_ids fetch_single_pokemon pokemon_ids.

Definition prefetch_species_data (pokemon_ids : list Z) : M unit :=
  for_ids fetch_single_species pokemon_ids.

(** *** Evolution resolver *)

(** [int(chain_data['species']['url'].split('/')[-2])] *)
Definition species_id (chain_data : json) : result Z :=
  result_bind (getitem chain_data "species") (λ species,
  result_bind (getitem species "url") (λ species_url,
  match species_url with
  | JStr url =>
      result_bind (from_end (split_on "/" url) 2) (λ part,
      match py_int part with
      | Some n => Ok n
      | None => Raise ValueError
      end)
  | _ => Raise AttributeError
  end)).

(** The items of a value that is iterated by [for evolved in ...] when it
    is not a list: strings, on which [chain_data['species']] raises. *)
Definition iterate_non_list (v : json) (evolution_chain : list Z)
  : result unit * list Z :=
  match py_iter v with
  | Ok [] => (Ok (), evolution_chain)
  | Ok _ => (Raise TypeError, evolution_chain)
  | Raise e => (Raise e, evolution_chain)
  end.

(** [extract_chain], with the list [evolution_chain] it appends to passed
    in and out.  The lookup of ['evolves_to'] is written out in place so
    that the recursion is structural; [extract_chain_eq] below gives the
    equation in the form of the source. *)
Fixpoint extract_chain (chain_data : json) (evolution_chain : list Z)
  {struct chain_data} : result unit * list Z :=
  match species_id chain_data with
  | Raise e => (Raise e, evolution_chain)
  | Ok pokemon_id =>
      let evolution_chain := evolution_chain ++ [pokemon_id] in
      match chain_data with
      | JObj members =>
          (fix get_evolves_to (ms : list (string * json)) :=
             match ms with
             | [] => (Ok (), evolution_chain)
             | (k, v) :: rest =>
                 if String.eqb "evolves_to" k then
                   match v with
                   | JArr items => for_each extract_chain items evolution_chain
                   | other => iterate_non_list other evolution_chain
                   end
                 else get_evolves_to rest
             end) members
      | _ => (Raise AttributeError, evolution_chain)
      end
  end.

Definition caught_by_resolver (e : exn) : bool :=
  bool_decide (e = RequestException ∨ e = KeyError ∨ e = ValueError).

(** The body of the [try] block of [get_evolution_chain]. *)
Definition resolve_chain (pokemon_id : Z) (species_data : json) : M (list Z) :=
  evolution_chain_ref ← lift (getitem species_data "evolution_chain");
  evolution_url ← lift (getitem evolution_chain_ref "url");
  evolution_data ← match evolution_url with
                   | JStr url => fetch_json url
                   | _ => raise RequestException
                   end;
  chain ← lift (getitem evolution_data "chain");
  match extract_chain chain [] with
  | (Raise e, _) => raise e
  | (Ok _, evolution_chain) =>
      modify (λ st, set_evolution_cache
                      (<[pokemon_id := evolution_chain]> (evolution_cache st)) st);;
      mret evolution_chain
  end.

Definition get_evolution_chain (pokemon_id : Z) : M (list Z) :=
  cache ← gets evolution_cache;
  match cache !! pokemon_id with
  | Some chain => mret chain
  | None =>
      species_data ← get_pokemon_species_data pokemon_id;
      if negb (truthy species_data) then mret []
      else try_except (resolve_chain pokemon_id species_data)
                      caught_by_resolver
                      (mret [])
  end.

Definition is_fully_evolved (pokemon_id : Z) : M bool :=
  evolution_chain ← get_evolution_chain pokemon_id;
  match evolution_chain with
  | [] => mret true
  | _ => mret (bool_decide (Some pokemon_id = last evolution_chain))
  end.

Definition is_legendary (pokemon_id : Z) : M json :=
  species_data ← get_pokemon_species_data pokemon_id;
  if negb (truthy species_data) then mret (JBool false)
  else
    legendary ← lift (dict_get species_data "is_legendary" (JBool false));
    if truthy legendary then mret legendary
    else lift (dict_get species_data "is_mythical" (JBool false)).

(** *** Candidate ids *)

(** [gen_ranges], declared with the same entries in [get_random_pokemon]
    and in [generate_pokemon_team]. *)
Definition gen_ranges : gmap Z (Z * Z) :=
  list_to_map
    [ (1, (1, 151)); (2, (152, 251)); (3, (252, 386)); (4, (387, 493));
      (5, (494, 649)); (6, (650, 721)); (7, (722, 809)); (8, (810, 905));
      (9, (906, 1025)) ].

(** [range(start, end + 1)] *)
Definition id_range (start end_ : Z) : list Z := seqZ start (end_ + 1 - start).

(** The loop that fills [valid_ids] (and [pokemon_ids]); [gen_ranges[gen]]
    raises [KeyError] on an unknown generation. *)
Fixpoint ids_of_generations (selected_generations : list Z) : result (list Z) :=
  match selected_generations with
  | [] => Ok []
  | gen :: rest =>
      match gen_ranges !! gen with
      | None => Raise KeyError
      | Some (start, end_) =>
          result_bind (ids_of_generations rest) (λ ids,
          Ok (id_range start end_ ++ ids))
      end
  end.

(** *** Constraint filter *)

(** [{t['type']['name'] for t in items}] *)
Fixpoint collect_type_names (items : list json) : result (gset pyhash) :=
  match items with
  | [] => Ok ∅
  | t :: rest =>
      result_bind (getitem t "type") (λ type,
      result_bind (getitem type "name") (λ name,
      result_bind (py_hash name) (λ h,
      result_bind (collect_type_names rest) (λ names,
      Ok ({[ h ]} ∪ names)))))
  end.

(** [{t['type']['name'] for t in pokemon_data['types']}] *)
Definition type_names (pokemon_data : json) : result (gset pyhash) :=
  result_bind (getitem pokemon_data "types") (λ types,
  result_bind (py_iter types) collect_type_names).

(** [flag and is_legendary(pokemon_id)], as a truth value. *)
Definition legendary_excluded (flag : bool) (pokemon_id : Z) : M bool :=
  if flag then truthy <$> is_legendary pokemon_id else mret false.

(** [flag and not is_fully_evolved(pokemon_id)] *)
Definition evolution_excluded (flag : bool) (pokemon_id : Z) : M bool :=
  if flag then negb <$> is_fully_evolved pokemon_id else mret false.

(** The body of the [for pokemon_id in valid_ids] loop: [Some pokemon_data]
    when the loop returns it, [None] when it continues. *)
Definition check_candidate (existing_types : option (gset pyhash))
    (evolution_filter exclude_legendary : bool) (pokemon_id : Z)
  : M (option json) :=
  pokemon_data ← get_pokemon_data pokemon_id;
  if negb (truthy pokemon_data) then mret None else
  unevolved ← evolution_excluded evolution_filter pokemon_id;
  if (unevolved : bool) then mret None else
  legendary ← legendary_excluded exclude_legendary pokemon_id;
  if (legendary : bool) then mret None else
  match existing_types with
  | None => mret (Some pokemon_data)
  | Some used =>
      pokemon_types ← lift (type_names pokemon_data);
      if bool_decide (pokemon_types ∩ used ≠ ∅) then mret None
      else mret (Some pokemon_data)
  end.

Fixpoint try_candidates (existing_types : option (gset pyhash))
    (evolution_filter exclude_legendary : bool) (valid_ids : list Z)
  : M json :=
  match valid_ids with
  | [] => mret JNull
  | pokemon_id :: rest =>
      found ← check_candidate existing_types evolution_filter
                exclude_legendary pokemon_id;
      match found with
      | Some pokemon_data => mret pokemon_data
      | None => try_candidates existing_types evolution_filter
                  exclude_legendary rest
      end
  end.

(** [random.shuffle(valid_ids)] *)
Definition random_shuffle (valid_ids : list Z) : M (list Z) := λ st,
  (Ok (shuffle (shuffles st) valid_ids), tick_shuffles st).

Definition get_random_pokemon (selected_generations : list Z)
    (existing_types : option (gset pyhash))
    (evolution_filter exclude_legendary : bool) : M json :=
  valid_ids ← lift (ids_of_generations selected_generations);
  match valid_ids with
  | [] => mret JNull
  | _ =>
      shuffled ← random_shuffle valid_ids;
      try_candidates existing_types evolution_filter exclude_legendary shuffled
  end.

(** *** Team sampler *)

(** [[p['name'].capitalize() for p in items]] *)
Fixpoint capitalized_names (items : list json) : result (list string) :=
  match items with
  | [] => Ok []
  | p :: rest =>
      result_bind (getitem p "name") (λ name,
      match name with
      | JStr s =>
          result_bind (capitalized_names rest) (λ names,
          Ok (capitalize s :: names))
      | _ => Raise AttributeError
      end)
  end.

Definition get_all_pokemon : M (list string) :=
  try_except
    (data ← fetch_json "https://pokeapi.co/api/v2/pokemon?limit=1025";
     results ← lift (getitem data "results");
     items ← lift (py_iter results);
     lift (capitalized_names items))
    is_request_exception
    (mret []).

(** The locals [selected_pokemon] and [selected_types]. *)
Record selection : Type := Selection {
  selected_pokemon : list json;
  selected_types : gset pyhash;
}.

(** [selected_pokemon.append(pokemon_data)] and, under the type filter,
    [selected_types.update(...)]. *)
Definition commit (type_filter : bool) (pokemon_data : json) (sel : selection)
  : result selection :=
  if type_filter then
    result_bind (type_names pokemon_data) (λ names,
    Ok (Selection (selected_pokemon sel ++ [pokemon_data])
                  (selected_types sel ∪ names)))
  else Ok (Selection (selected_pokemon sel ++ [pokemon_data])
                     (selected_types sel)).

(** One round of the [for selector in pokemon_selectors] loop.  Inside the
    [try] only [.index] raises [ValueError], before the locals are touched,
    so the handler resumes from [sel]. *)
Definition manual_pick (type_filter legendary_filter : bool)
    (pokemon_name : string) (sel : selection) : M selection :=
  if String.eqb pokemon_name "" then mret sel else
  try_except
    (names ← get_all_pokemon;
     index ← lift (list_index pokemon_name names);
     let pokemon_id := index + 1 in
     pokemon_data ← get_pokemon_data pokemon_id;
     if negb (truthy pokemon_data) then mret sel else
     legendary ← legendary_excluded legendary_filter pokemon_id;
     if (legendary : bool) then
       modify (add_warning (WarnLegendary pokemon_name));; mret sel
     else lift (commit type_filter pokemon_data sel))
    (λ e, bool_decide (e = ValueError))
    (mret sel).

Fixpoint manual_picks (type_filter legendary_filter : bool)
    (pokemon_names : list string) (sel : selection) : M selection :=
  match pokemon_names with
  | [] => mret sel
  | pokemon_name :: rest =>
      sel' ← manual_pick type_filter legendary_filter pokemon_name sel;
      manual_picks type_filter legendary_filter rest sel'
  end.

(** [while len(selected_pokemon) < 6: ...], run for at most [fuel] rounds;
    [None] when the rounds do not suffice. *)
Fixpoint fill_team (fuel : nat) (selected_generations : list Z)
    (type_filter evolution_filter legendary_filter : bool)
    (sel : selection) (st : state) : option (result selection * state) :=
  if bool_decide (length (selected_pokemon sel) < 6)%nat then
    match fuel with
    | O => None
    | S fuel' =>
        match get_random_pokemon selected_generations
                (if type_filter then Some (selected_types sel) else None)
                evolution_filter legendary_filter st with
        | (Raise e, st') => Some (Raise e, st')
        | (Ok pokemon_data, st') =>
            if negb (truthy pokemon_data) then
              Some (Ok sel, add_warning WarnNoMorePokemon st')
            else
              match commit type_filter pokemon_data sel with
              | Raise e => Some (Raise e, st')
              | Ok sel' =>
                  fill_team fuel' selected_generations type_filter
                    evolution_filter legendary_filter sel' st'
              end
        end
    end
  else Some (Ok sel, st).

(** The first half of [generate_pokemon_team]: prefetch, then the manual
    picks. *)
Definition manual_selection (selected_generations : list Z)
    (type_filter legendary_filter : bool) (pokemon_names : list string)
  : M selection :=
  pokemon_ids ← lift (ids_of_generations selected_generations);
  prefetch_pokemon_data pokemon_ids;;
  prefetch_species_data pokemon_ids;;
  manual_picks type_filter legendary_filter pokemon_names (Selection [] ∅).

(** [generate_pokemon_team] up to the point where the roster is handed to
    the UI thread; rendering ([update_ui]) is not modelled. *)
Definition generate_pokemon_team (fuel : nat) (selected_generations : list Z)
    (type_filter evolution_filter legendary_filter : bool)
    (pokemon_names : list string) (st : state)
  : option (result selection * state) :=
  match manual_selection selected_generations type_filter legendary_filter
          pokemon_names st with
  | (Raise e, st') => Some (Raise e, st')
  | (Ok sel, st') =>
      fill_team fuel selected_generations type_filter evolution_filter
        legendary_filter sel st'
  end.

(** ** A small catalogue for the examples *)

(** [int(s)] on a string of decimal digits. *)
Fixpoint decimal_digits (acc : Z) (s : string) : option Z :=
  match s with
  | EmptyString => Some acc
  | String c rest =>
      let n := nat_of_ascii c in
      if ((48 <=? n) && (n <=? 57))%nat
      then decimal_digits (10 * acc + Z.of_nat (n - 48)) rest
      else None
  end.

Definition sample_int (s : string) : option Z :=
  match s with
  | EmptyString => None
  | _ => decimal_digits 0 s
  end.

(** A shuffle that leaves the list as it is, one of the orders that
    [random.shuffle] can produce. *)
Definition sample_shuffle (n : nat) (l : list Z) : list Z := l.

Definition sample_pokemon (id : Z) (name : string) (types : list string) : json :=
  JObj [ ("id", JNum id); ("name", JStr name);
         ("types", JArr ((λ t, JObj [("type", JObj [("name", JStr t)])]) <$> types)) ].

Definition sample_species (legendary mythical : bool) (chain_url : string) : json :=
  JObj [ ("is_legendary", JBool legendary); ("is_mythical", JBool mythical);
         ("evolution_chain", JObj [("url", JStr chain_url)]) ].

Definition sample_node (id : string) (evolves_to : list json) : json :=
  JObj [ ("species", JObj [("url", JStr ("https://pokeapi.co/api/v2/pokemon-species/" +:+ id +:+ "/"))]);
         ("evolves_to", JArr evolves_to) ].

Definition pikachu : json := sample_pokemon 25 "pikachu" ["electric"].
Definition bulbasaur : json := sample_pokemon 1 "bulbasaur" ["grass"; "poison"].
Definition charmander : json := sample_pokemon 4 "charmander" ["fire"].
Definition charmeleon : json := sample_pokemon 5 "charmeleon" ["fire"].

(** The chain 1 -> 2 -> 3. *)
Definition bulbasaur_chain : json :=
  JObj [ ("chain", sample_node "1" [sample_node "2" [sample_node "3" []]]) ].

(** The branching chain 265 -> (266 -> 267), (268 -> 269). *)
Definition wurmple_chain : json :=
  JObj [ ("chain",
          sample_node "265" [ sample_node "266" [sample_node "267" []];
                              sample_node "268" [sample_node "269" []] ]) ].

(** A chain whose second node lacks its ['species'] entry. *)
Definition broken_chain : json :=
  JObj [ ("chain", sample_node "7" [JObj [("evolves_to", JArr [])]]) ].

Definition sample_documents : list (string * json) :=
  [ ("https://pokeapi.co/api/v2/pokemon?limit=1025",
     JObj [("results", JArr ((λ n, JObj [("name", JStr n)]) <$>
              ["bulbasaur"; "ivysaur"; "venusaur"; "charmander"; "charmeleon"]))]);
    ("https://pokeapi.co/api/v2/pokemon/1", bulbasaur);
    ("https://pokeapi.co/api/v2/pokemon/4", charmander);
    ("https://pokeapi.co/api/v2/pokemon/5", charmeleon);
    ("https://pokeapi.co/api/v2/pokemon-species/1",
     sample_species false false "https://pokeapi.co/api/v2/evolution-chain/1/");
    ("https://pokeapi.co/api/v2/pokemon-species/7",
     sample_species false false "https://pokeapi.co/api/v2/evolution-chain/3/");
    ("https://pokeapi.co/api/v2/pokemon-species/150",
     sample_species true false "https://pokeapi.co/api/v2/evolution-chain/77/");
    ("https://pokeapi.co/api/v2/pokemon-species/265",
     sample_species false false "https://pokeapi.co/api/v2/evolution-chain/135/");
    ("https://pokeapi.co/api/v2/evolution-chain/1/", bulbasaur_chain);
    ("https://pokeapi.co/api/v2/evolution-chain/3/", broken_chain);
    ("https://pokeapi.co/api/v2/evolution-chain/135/", wurmple_chain) ].

(** A remote that serves [sample_documents] at all times. *)
Definition sample_http_get (n : nat) (url : string) : option json :=
  assoc url sample_documents.

(** A remote that is down. *)
Definition offline_http_get (n : nat) (url : string) : option json := None.

(** ** Vocabulary of the properties *)

(** An evolution tree: each node carries one id and its child nodes in the
    order of the document. *)
Inductive chain_tree : Type :=
  | ChainNode (id : Z) (children : list chain_tree).

(** Pre-order traversal: a node before its subtrees, the subtrees from left
    to right. *)
Fixpoint preorder (t : chain_tree) : list Z :=
  match t with
  | ChainNode id children => id :: mjoin (preorder <$> children)
  end.

(** [represents chain_data t]: the document node [chain_data] has the id of
    [t]'s root and lists under ['evolves_to'] documents of [t]'s subtrees
    (no entry stands for no subtree). *)
Inductive represents : json → chain_tree → Prop :=
  | represents_node chain_data id items children :
      species_id chain_data = Ok id →
      dict_get chain_data "evolves_to" (JArr []) = Ok (JArr items) →
      Forall2 represents items children →
      represents chain_data (ChainNode id children).

(** [species_data.get(flag, False)] as a truth value. *)
Definition species_flag (species_data : json) (flag : string) : bool :=
  match dict_get species_data flag (JBool false) with
  | Ok v => truthy v
  | Raise _ => false
  end.

(** [d'] holds every entry of [d]. *)
Definition dict_extends (d d' : pydict) : Prop :=
  ∀ k v, dict_lookup k d = Some v → dict_lookup k d' = Some v.

(** The caches of [st'] hold every entry of the caches of [st]. *)
Record extends (st st' : state) : Prop := Extends {
  extends_pokemon : dict_extends (pokemon_cache st) (pokemon_cache st');
  extends_species : dict_extends (species_cache st) (species_cache st');
  extends_evolution : evolution_cache st ⊆ evolution_cache st';
}.

(** A property of the state that the engine's elementary steps keep: a
    request, a shuffle, and caching a new entry under a key that was
    missing. *)
Record stable (P : state → Prop) : Prop := Stable {
  stable_requests : ∀ st, P st → P (tick_requests st);
  stable_shuffles : ∀ st, P st → P (tick_shuffles st);
  stable_pokemon : ∀ st pokemon_id data,
    P st →
    dict_lookup (HInt pokemon_id) (pokemon_cache st) = None →
    http_get (requests st)
      ("https://pokeapi.co/api/v2/pokemon/" +:+ pretty pokemon_id) = Some data →
    P (set_pokemon_cache
         (dict_insert (HInt pokemon_id) data (pokemon_cache st))
         (tick_requests st));
  stable_species : ∀ st pokemon_id data,
    P st →
    dict_lookup (HInt pokemon_id) (species_cache st) = None →
    P (set_species_cache
         (dict_insert (HInt pokemon_id) data (species_cache st))
         (tick_requests st));
  stable_evolution : ∀ st pokemon_id chain,
    P st →
    evolution_cache st !! pokemon_id = None →
    P (set_evolution_cache (<[pokemon_id := chain]> (evolution_cache st)) st);
}.

(** Running [c] keeps [P]. *)
Definition preserves {A} (P : state → Prop) (c : M A) : Prop :=
  ∀ st r st', P st → c st = (r, st') → P st'.

(** The ['id'] field of a primary record. *)
Definition record_id (pokemon_data : json) : option Z :=
  match getitem pokemon_data "id" with
  | Ok (JNum i) => Some i
  | _ => None
  end.

(** Every record that the catalogue serves for an id carries that id. *)
Definition remote_faithful : Prop :=
  ∀ n i data,
    http_get n ("https://pokeapi.co/api/v2/pokemon/" +:+ pretty i) = Some data →
    record_id data = Some i.

(** Every record cached under an integer key carries that id. *)
Definition cache_faithful (st : state) : Prop :=
  ∀ i data,
    dict_lookup (HInt i) (pokemon_cache st) = Some data →
    record_id data = Some i.

(** Every roster entry is a cached record. *)
Definition roster_cached (roster : list json) (st : state) : Prop :=
  ∀ a, a ∈ roster → ∃ i, dict_lookup (HInt i) (pokemon_cache st) = Some a.

(** The types of every roster entry are among the used types. *)
Definition covered (sel : selection) : Prop :=
  ∀ a, a ∈ selected_pokemon sel →
       ∃ types, type_names a = Ok types ∧ types ⊆ selected_types sel.

(** The entries from position [n] on share no type tag with any entry
    before them. *)
Definition disjoint_from (n : nat) (roster : list json) : Prop :=
  ∀ i j a b,
    (i < j)%nat → (n ≤ j)%nat →
    roster !! i = Some a → roster !! j = Some b →
    ∃ ta tb, type_names a = Ok ta ∧ type_names b = Ok tb ∧ ta ∩ tb = ∅.

(** The cached chain of [pokemon_id] says that it evolves further. *)
Definition stage_barred (st : state) (pokemon_id : Z) : bool :=
  match evolution_cache st !! pokemon_id with
  | Some (stage :: stages) =>
      negb (bool_decide (Some pokemon_id = last (stage :: stages)))
  | _ => false
  end.

(** The cached species record of [pokemon_id] has a notability flag set. *)
Definition notable_barred (st : state) (pokemon_id : Z) : bool :=
  match dict_lookup (HInt pokemon_id) (species_cache st) with
  | Some (JObj members) =>
      species_flag (JObj members) "is_legendary"
      || species_flag (JObj members) "is_mythical"
  | _ => false
  end.

(** By what the caches hold, [pokemon_id] cannot pass the filters that are
    on: the stage filter rejects it, or the stage filter is answered from
    the cache and the notability filter rejects it. *)
Definition barred (evolution_filter legendary_filter : bool) (st : state)
    (pokemon_id : Z) : bool :=
  (evolution_filter && stage_barred st pokemon_id)
  || ((negb evolution_filter
       || bool_decide (is_Some (evolution_cache st !! pokemon_id)))
      && legendary_filter && notable_barred st pokemon_id).

(** No id occurs twice in the roster. *)
Definition distinct_ids (roster : list json) : Prop :=
  NoDup (record_id <$> roster).

(** Two roster entries share a type tag. *)
Definition share_type (a b : json) : Prop :=
  ∃ ta tb, type_names a = Ok ta ∧ type_names b = Ok tb ∧ ta ∩ tb ≠ ∅.

(** A state whose caches hold, for every id of generation 6, a record and
    a species record flagged legendary. *)
Definition sample_legends : state :=
  set_species_cache
    ((λ i, (HInt i, sample_species true false "")) <$> id_range 650 721)
    (set_pokemon_cache
       ((λ i, (HInt i, sample_pokemon i "legend" ["dragon"])) <$> id_range 650 721)
       (fresh None None)).

(** ** Further parts of the program *)

(** *** Sprite files *)

(** [s.startswith('/')] *)
Definition starts_with_slash (s : string) : bool :=
  match s with
  | String c _ => Ascii.eqb c "/"
  | EmptyString => false
  end.

(** [s.endswith('/')] *)
Fixpoint ends_with_slash (s : string) : bool :=
  match s with
  | EmptyString => false
  | String c EmptyString => Ascii.eqb c "/"
  | String _ rest => ends_with_slash rest
  end.

(** [os.path.join(a, b)] as [posixpath] defines it. *)
Definition path_join (a b : string) : string :=
  if starts_with_slash b then b
  else if String.eqb a "" || ends_with_slash a then a +:+ b
  else a +:+ "/" +:+ b.

(** The cache directories, given [script_dir], the value of
    [os.path.dirname(os.path.abspath(__file__))]. *)
Definition CACHE_DIR (script_dir : string) : string :=
  path_join script_dir "cache".

Definition SPRITE_CACHE_DIR (script_dir : string) : string :=
  path_join (CACHE_DIR script_dir) "sprites".

Definition get_sprite_path (script_dir url : string) : result string :=
  result_bind (from_end (split_on "/" url) 1) (λ tail,
  Ok (path_join (SPRITE_CACHE_DIR script_dir) tail)).

(** [sep.join(parts)] *)
Fixpoint join_with (sep : ascii) (parts : list string) : string :=
  match parts with
  | [] => ""
  | [part] => part
  | part :: rest => part +:+ String sep (join_with sep rest)
  end.

(** The character [c] occurs in [s]. *)
Fixpoint occurs (c : ascii) (s : string) : bool :=
  match s with
  | EmptyString => false
  | String c' rest => Ascii.eqb c' c || occurs c rest
  end.

(** *** Generation selector and the start of a cycle *)

(** [[i+1 for i, var in enumerate(vars)[start:] if var.get()]], with the
    index of the first variable given. *)
Fixpoint selected_from (i : Z) (vars : list bool) : list Z :=
  match vars with
  | [] => []
  | var :: rest =>
      if var then (i + 1) :: selected_from (i + 1) rest
      else selected_from (i + 1) rest
  end.

(** [GenerationSelector.get_selected_generations], on the values of the
    checkbox variables. *)
Definition get_selected_generations (vars : list bool) : list Z :=
  selected_from 0 vars.

(** What [show_pokemon] does: the warning that no generation is selected,
    or a run of [generate_pokemon_team] on the background thread. *)
Inductive cycle : Type :=
  | NoGenerationSelected
  | Started (outcome : option (result selection * state)).

Definition show_pokemon (fuel : nat) (vars : list bool)
    (type_filter evolution_filter legendary_filter : bool)
    (pokemon_names : list string) (st : state) : cycle :=
  match get_selected_generations vars with
  | [] => NoGenerationSelected
  | selected_generations =>
      Started (generate_pokemon_team fuel selected_generations type_filter
                 evolution_filter legendary_filter pokemon_names st)
  end.

(** *** Rendering *)

(** The [col] loop of [update_ui] for one row over a roster of [n]
    entries: the indices it displays before it breaks. *)
Fixpoint row_indices (n row : nat) (cols : list nat) : list nat :=
  match cols with
  | [] => []
  | col :: rest =>
      let idx := (row * 3 + col)%nat in
      if (n <=? idx)%nat then [] else idx :: row_indices n row rest
  end.

(** The indices that the two loops of [update_ui] display. *)
Definition displayed_indices (n : nat) : list nat :=
  row ← seq 0 2; row_indices n row (seq 0 3).

(** The generator of [next(...)] in [update_ui], run to its first item:
    the ['name'] of the first entry whose language is ['de'], else the
    default. *)
Fixpoint first_german (items : list json) (dflt : json) : result json :=
  match items with
  | [] => Ok dflt
  | name :: rest =>
      result_bind (getitem name "language") (λ language,
      result_bind (getitem language "name") (λ code,
      match code with
      | JStr s => if String.eqb s "de" then getitem name "name"
                  else first_german rest dflt
      | _ => first_german rest dflt
      end))
  end.

(** [next((name['name'] for name in species_data['names']
          if name['language']['name'] == 'de'),
         pokemon_data['name'].capitalize())]:
    the iterable and the default are evaluated before the generator
    runs. *)
Definition german_name (species_data pokemon_data : json) : result json :=
  result_bind (getitem species_data "names") (λ names,
  result_bind (py_iter names) (λ items,
  result_bind (getitem pokemon_data "name") (λ name,
  match name with
  | JStr s => first_german items (JStr (capitalize s))
  | _ => Raise AttributeError
  end))).

(** *** Vocabulary of the further properties *)

(** The id that a pre-order traversal visits last: the node itself when it
    has no child, else what the traversal of its last child visits last. *)
Fixpoint rightmost (t : chain_tree) : Z :=
  match t with
  | ChainNode id children => default id (last (rightmost <$> children))
  end.

(** The leaves of an evolution tree: the ids with no further evolution. *)
Fixpoint leaves (t : chain_tree) : list Z :=
  match t with
  | ChainNode id [] => [id]
  | ChainNode id children => mjoin (leaves <$> children)
  end.

(** [name['language']['name']] of an entry of ['names']. *)
Definition language_code (name : json) : result json :=
  result_bind (getitem name "language") (λ language, getitem language "name").

(** The sample catalogue, with the species record of 267 added: it refers
    to the branching chain of 265. *)
Definition branch_http_get (n : nat) (url : string) : option json :=
  if String.eqb url "https://pokeapi.co/api/v2/pokemon-species/267"
  then Some (sample_species false false
               "https://pokeapi.co/api/v2/evolution-chain/135/")
  else sample_http_get n url.

(** What the last entry of [d] that [json.dump] writes under the key text
    [s] holds. *)
Definition last_written (s : string) (d : pydict) : option json :=
  snd <$> last (filter (λ kv, json_key kv.1 = s) d).

(** An entry of ['names'] and a species record with such entries. *)
Definition sample_name (language name : string) : json :=
  JObj [("language", JObj [("name", JStr language)]); ("name", JStr name)].

Definition sample_names (entries : list json) : json :=
  JObj [("names", JArr entries)].

#[local] Set Default Proof Using "Type".

(** ** Running computations *)

Lemma bind_run {A B} (c : M A) (k : A → M B) st :
  (c ≫= k) st =
  match c st with
  | (Ok a, st') => k a st'
  | (Raise e, st') => (Raise e, st')
  end.
Proof. reflexivity. Qed.

Lemma fmap_run {A B} (f : A → B) (c : M A) st :
  (f <$> c) st =
  match c st with
  | (Ok a, st') => (Ok (f a), st')
  | (Raise e, st') => (Raise e, st')
  end.
Proof. reflexivity. Qed.

Lemma get_pokemon_data_run pokemon_id st :
  get_pokemon_data pokemon_id st =
  match dict_lookup (HInt pokemon_id) (pokemon_cache st) with
  | Some data => (Ok data, st)
  | None =>
      match http_get (requests st)
              ("https://pokeapi.co/api/v2/pokemon/" +:+ pretty pokemon_id) with
      | Some data =>
          (Ok data,
           set_pokemon_cache
             (dict_insert (HInt pokemon_id) data (pokemon_cache st))
             (tick_requests st))
      | None => (Ok JNull, tick_requests st)
      end
  end.
Proof.
  unfold get_pokemon_data. rewrite bind_run. simpl.
  destruct (dict_lookup _ _); [done|].
  unfold try_except, fetch_json. rewrite bind_run.
  destruct (http_get _ _); reflexivity.
Qed.

Lemma get_pokemon_species_data_run pokemon_id st :
  get_pokemon_species_data pokemon_id st =
  match dict_lookup (HInt pokemon_id) (species_cache st) with
  | Some data => (Ok data, st)
  | None =>
      match http_get (requests st)
              ("https://pokeapi.co/api/v2/pokemon-species/" +:+ pretty pokemon_id) with
      | Some data =>
          (Ok data,
           set_species_cache
             (dict_insert (HInt pokemon_id) data (species_cache st))
             (tick_requests st))
      | None => (Ok JNull, tick_requests st)
      end
  end.
Proof.
  unfold get_pokemon_species_data. rewrite bind_run. simpl.
  destruct (dict_lookup _ _); [done|].
  unfold try_except, fetch_json. rewrite bind_run.
  destruct (http_get _ _); reflexivity.
Qed.

(** ** Candidate ids *)

Lemma elem_of_id_range i start end_ :
  i ∈ id_range start end_ ↔ start ≤ i ≤ end_.
Proof. unfold id_range. rewrite elem_of_seqZ. lia. Qed.

Lemma gen_ranges_defined gen :
  1 ≤ gen ≤ 9 → is_Some (gen_ranges !! gen).
Proof.
  intros Hgen.
  assert (gen = 1 ∨ gen = 2 ∨ gen = 3 ∨ gen = 4 ∨ gen = 5 ∨ gen = 6
          ∨ gen = 7 ∨ gen = 8 ∨ gen = 9) as Hcases by lia.
  repeat destruct Hcases as [->|Hcases]; try subst gen;
    by (eexists; vm_compute; reflexivity).
Qed.

Lemma ids_of_generations_elem gens ids i :
  ids_of_generations gens = Ok ids →
  i ∈ ids ↔
  ∃ gen start end_,
    gen ∈ gens ∧ gen_ranges !! gen = Some (start, end_) ∧ start ≤ i ≤ end_.
Proof.
  revert ids. induction gens as [|gen gens IH]; intros ids; simpl.
  - intros [= <-]. split; [by intros ?%elem_of_nil|].
    by intros (?&?&?&?%elem_of_nil&_).
  - destruct (gen_ranges !! gen) as [[start end_]|] eqn:Hgen; [|done].
    destruct (ids_of_generations gens) as [ids'|]; [|done].
    simpl. intros [= <-]. rewrite elem_of_app, elem_of_id_range, (IH ids') by done.
    split.
    + intros [Hi|(g&s&e&Hg&Hr&Hi)].
      * exists gen, start, end_. by rewrite elem_of_cons; auto.
      * exists g, s, e. by rewrite elem_of_cons; auto.
    + intros (g&s&e&[->|Hg]%elem_of_cons&Hr&Hi).
      * left. congruence.
      * right. eauto 7.
Qed.

Lemma ids_of_generations_defined gens :
  Forall (λ gen, 1 ≤ gen ≤ 9) gens → ∃ ids, ids_of_generations gens = Ok ids.
Proof.
  induction 1 as [|gen gens Hgen _ [ids IH]]; simpl; [by eexists|].
  destruct (gen_ranges_defined gen Hgen) as [[start end_] ->].
  rewrite IH. simpl. by eexists.
Qed.

(** C6: the candidate ids of a selection of generations are the union of
    the inclusive id intervals that the fixed table gives to the selected
    generations; for the selection 1 they are exactly 1..151 and for the
    selection 1, 3 exactly 1..151 together with 252..386. *)
Theorem candidate_set_is_union_of_intervals :
  (∀ gens, Forall (λ gen, 1 ≤ gen ≤ 9) gens →
     ∃ ids, ids_of_generations gens = Ok ids ∧
       ∀ i, i ∈ ids ↔
            ∃ gen start end_,
              gen ∈ gens ∧ gen_ranges !! gen = Some (start, end_) ∧
              start ≤ i ≤ end_)
  ∧ (∃ ids, ids_of_generations [1] = Ok ids ∧ ids = seqZ 1 151 ∧
       ∀ i, i ∈ ids ↔ 1 ≤ i ≤ 151)
  ∧ (∃ ids, ids_of_generations [1; 3] = Ok ids ∧
       ids = seqZ 1 151 ++ seqZ 252 135 ∧
       ∀ i, i ∈ ids ↔ 1 ≤ i ≤ 151 ∨ 252 ≤ i ≤ 386).
Proof.
  split; [|split].
  - intros gens Hgens.
    destruct (ids_of_generations_defined gens Hgens) as [ids Hids].
    exists ids. split; [done|]. intros i. by apply ids_of_generations_elem.
  - exists (seqZ 1 151). split; [by vm_compute|]. split; [done|].
    intros i. rewrite elem_of_seqZ. lia.
  - exists (seqZ 1 151 ++ seqZ 252 135).
    split; [by vm_compute|]. split; [done|].
    intros i. rewrite elem_of_app, !elem_of_seqZ. lia.
Qed.

(** ** Evolution resolver and notability *)

Lemma get_pokemon_species_data_evolution_cache pokemon_id st r st' :
  get_pokemon_species_data pokemon_id st = (r, st') →
  evolution_cache st' = evolution_cache st.
Proof.
  rewrite get_pokemon_species_data_run.
  destruct (dict_lookup _ _); [by intros [= _ <-]|].
  destruct (http_get _ _); by intros [= _ <-].
Qed.

Lemma get_evolution_chain_run pokemon_id st :
  get_evolution_chain pokemon_id st =
  match evolution_cache st !! pokemon_id with
  | Some chain => (Ok chain, st)
  | None =>
      match get_pokemon_species_data pokemon_id st with
      | (Ok species_data, st1) =>
          if truthy species_data then
            match resolve_chain pokemon_id species_data st1 with
            | (Raise e, st2) =>
                if caught_by_resolver e then (Ok [], st2) else (Raise e, st2)
            | r => r
            end
          else (Ok [], st1)
      | (Raise e, st1) => (Raise e, st1)
      end
  end.
Proof.
  unfold get_evolution_chain. rewrite bind_run. simpl.
  destruct (evolution_cache st !! pokemon_id); [done|].
  rewrite bind_run.
  destruct (get_pokemon_species_data pokemon_id st) as [[species_data|e] st1];
    [|done].
  destruct (truthy species_data); [|done]. simpl. unfold try_except.
  by destruct (resolve_chain _ _ _) as [[?|?] ?].
Qed.

(** The [try] block writes [evolution_cache] only as its last step: when
    it raises, the cache is as it was. *)
Lemma resolve_chain_raise pokemon_id species_data st e st' :
  resolve_chain pokemon_id species_data st = (Raise e, st') →
  evolution_cache st' = evolution_cache st.
Proof.
  unfold resolve_chain. rewrite bind_run. unfold lift at 1.
  destruct (getitem species_data _) as [ref|?]; [|by intros [= _ <-]].
  rewrite bind_run. unfold lift at 1.
  destruct (getitem ref _) as [url|?]; [|by intros [= _ <-]].
  rewrite bind_run.
  assert (∀ r st1,
    match url with
    | JStr u => fetch_json u
    | _ => raise RequestException
    end st = (r, st1) → evolution_cache st1 = evolution_cache st) as Hfetch.
  { intros r st1. destruct url; by intros [= _ <-]. }
  destruct (match url with JStr u => fetch_json u | _ => _ end st)
    as [[data|?] st1]; specialize (Hfetch _ _ eq_refl);
    [|by intros [= _ <-]].
  rewrite bind_run. unfold lift at 1.
  destruct (getitem data _) as [chain|?]; [|by intros [= _ <-]].
  destruct (extract_chain chain []) as [[?|?] ?]; [done|].
  by intros [= _ <-].
Qed.

(** C4: [is_fully_evolved] answers true exactly when the chain it resolves
    is empty or ends with the queried id, and false in every other case. *)
Theorem is_fully_evolved_iff_terminal pokemon_id st :
  match get_evolution_chain pokemon_id st with
  | (Ok chain, st') =>
      ∃ b, is_fully_evolved pokemon_id st = (Ok b, st') ∧
           (b = true ↔ chain = [] ∨ last chain = Some pokemon_id) ∧
           (b = false ↔ chain ≠ [] ∧ last chain ≠ Some pokemon_id)
  | (Raise e, st') => is_fully_evolved pokemon_id st = (Raise e, st')
  end.
Proof.
  unfold is_fully_evolved. rewrite bind_run.
  destruct (get_evolution_chain pokemon_id st) as [[chain|e] st']; [|done].
  destruct chain as [|x chain].
  - exists true. split; [done|]. split; [tauto|].
    split; [done|]. by intros [? _].
  - eexists. split; [reflexivity|]. rewrite bool_decide_eq_true.
    split; [split; [by right|intros [?|?]; [done|congruence]]|].
    rewrite bool_decide_eq_false.
    split; [intros Hne; split; [done|congruence]|intros [_ Hne]; congruence].
Qed.

Lemma is_legendary_run pokemon_id st :
  is_legendary pokemon_id st =
  match get_pokemon_species_data pokemon_id st with
  | (Ok species_data, st') =>
      if truthy species_data then
        match dict_get species_data "is_legendary" (JBool false) with
        | Ok legendary =>
            if truthy legendary then (Ok legendary, st')
            else (dict_get species_data "is_mythical" (JBool false), st')
        | Raise e => (Raise e, st')
        end
      else (Ok (JBool false), st')
  | (Raise e, st') => (Raise e, st')
  end.
Proof.
  unfold is_legendary. rewrite bind_run.
  destruct (get_pokemon_species_data pokemon_id st) as [[species_data|e] st'];
    [|done].
  destruct (truthy species_data); [|done]. simpl.
  rewrite bind_run. unfold lift at 1.
  destruct (dict_get species_data "is_legendary" _) as [legendary|?]; [|done].
  by destruct (truthy legendary).
Qed.

Lemma is_legendary_on_record pokemon_id st members st' :
  get_pokemon_species_data pokemon_id st = (Ok (JObj members), st') →
  ∃ v, is_legendary pokemon_id st = (Ok v, st') ∧
       truthy v = species_flag (JObj members) "is_legendary"
                  || species_flag (JObj members) "is_mythical".
Proof.
  intros Hget. rewrite is_legendary_run, Hget.
  unfold species_flag. simpl.
  destruct members as [|m members]; [by exists (JBool false)|].
  destruct (truthy (default (JBool false) (assoc "is_legendary" (m :: members))))
    eqn:Hleg.
  - eexists. split; [done|]. by rewrite Hleg.
  - eexists. split; [done|]. done.
Qed.

(** C9: on a species record [is_legendary] answers true exactly when the
    legendary flag or the mythical flag of the record is set, and when the
    species record cannot be fetched it answers [False] without raising. *)
Theorem is_legendary_iff_flag pokemon_id st :
  (∀ members st',
     get_pokemon_species_data pokemon_id st = (Ok (JObj members), st') →
     ∃ v, is_legendary pokemon_id st = (Ok v, st') ∧
          truthy v = species_flag (JObj members) "is_legendary"
                     || species_flag (JObj members) "is_mythical")
  ∧ (dict_lookup (HInt pokemon_id) (species_cache st) = None →
     http_get (requests st)
       ("https://pokeapi.co/api/v2/pokemon-species/" +:+ pretty pokemon_id)
       = None →
     is_legendary pokemon_id st = (Ok (JBool false), tick_requests st)).
Proof.
  split.
  - intros members st'. apply is_legendary_on_record.
  - intros Hmiss Hdown.
    by rewrite is_legendary_run, get_pokemon_species_data_run, Hmiss, Hdown.
Qed.

(** ** Failed fetches leave the caches alone *)

Lemma resolve_chain_run pokemon_id species_data ref url st :
  getitem species_data "evolution_chain" = Ok ref →
  getitem ref "url" = Ok (JStr url) →
  resolve_chain pokemon_id species_data st =
  match http_get (requests st) url with
  | None => (Raise RequestException, tick_requests st)
  | Some evolution_data =>
      match getitem evolution_data "chain" with
      | Raise e => (Raise e, tick_requests st)
      | Ok chain =>
          match extract_chain chain [] with
          | (Raise e, _) => (Raise e, tick_requests st)
          | (Ok _, evolution_chain) =>
              (Ok evolution_chain,
               set_evolution_cache
                 (<[pokemon_id := evolution_chain]> (evolution_cache st))
                 (tick_requests st))
          end
      end
  end.
Proof.
  intros Href Hurl. unfold resolve_chain.
  rewrite bind_run. unfold lift at 1. rewrite Href.
  rewrite bind_run. unfold lift at 1. rewrite Hurl.
  rewrite bind_run. unfold fetch_json at 1.
  destruct (http_get _ _) as [data|]; [|done].
  rewrite bind_run. unfold lift at 1.
  destruct (getitem data "chain") as [chain|]; [|done].
  by destruct (extract_chain chain []) as [[[]|?] ?].
Qed.

Lemma get_evolution_chain_failure pokemon_id species_data st st1 e st2 :
  evolution_cache st !! pokemon_id = None →
  get_pokemon_species_data pokemon_id st = (Ok species_data, st1) →
  truthy species_data = true →
  resolve_chain pokemon_id species_data st1 = (Raise e, st2) →
  get_evolution_chain pokemon_id st =
    (if caught_by_resolver e then Ok [] else Raise e, st2)
  ∧ evolution_cache st2 = evolution_cache st.
Proof.
  intros Hmiss Hspecies Htrue Hraise.
  rewrite get_evolution_chain_run, Hmiss, Hspecies, Htrue, Hraise.
  split; [by destruct (caught_by_resolver e)|].
  apply resolve_chain_raise in Hraise.
  apply get_pokemon_species_data_evolution_cache in Hspecies. congruence.
Qed.

(** C10: a failed fetch is not cached.  On a cache miss,
    [get_pokemon_data] and [get_pokemon_species_data] answer [None] when
    the request fails and leave the state as it was but for the request
    counter, so that the same call made again asks the remote again; and
    [get_evolution_chain] answers the empty list with [evolution_cache] as
    it was when the species record is unavailable, when the request for
    the chain document fails, and when the traversal stops on a [KeyError]
    or [ValueError] with part of the chain built.  (A traversal that stops
    on an exception of another kind lets it through to the caller; the
    cache is as it was then too.) *)
Theorem failed_fetch_is_not_cached pokemon_id st :
  (dict_lookup (HInt pokemon_id) (pokemon_cache st) = None →
   http_get (requests st)
     ("https://pokeapi.co/api/v2/pokemon/" +:+ pretty pokemon_id) = None →
   get_pokemon_data pokemon_id st = (Ok JNull, tick_requests st) ∧
   pokemon_cache (tick_requests st) = pokemon_cache st ∧
   ∀ data,
     http_get (S (requests st))
       ("https://pokeapi.co/api/v2/pokemon/" +:+ pretty pokemon_id)
       = Some data →
     fst (get_pokemon_data pokemon_id (tick_requests st)) = Ok data)
  ∧ (dict_lookup (HInt pokemon_id) (species_cache st) = None →
     http_get (requests st)
       ("https://pokeapi.co/api/v2/pokemon-species/" +:+ pretty pokemon_id)
       = None →
     get_pokemon_species_data pokemon_id st = (Ok JNull, tick_requests st) ∧
     species_cache (tick_requests st) = species_cache st ∧
     ∀ data,
       http_get (S (requests st))
         ("https://pokeapi.co/api/v2/pokemon-species/" +:+ pretty pokemon_id)
         = Some data →
       fst (get_pokemon_species_data pokemon_id (tick_requests st)) = Ok data)
  ∧ (evolution_cache st !! pokemon_id = None →
     ∀ species_data st1,
       get_pokemon_species_data pokemon_id st = (Ok species_data, st1) →
       (truthy species_data = false →
        get_evolution_chain pokemon_id st = (Ok [], st1) ∧
        evolution_cache st1 = evolution_cache st)
       ∧ (truthy species_data = true →
          ∀ ref url,
            getitem species_data "evolution_chain" = Ok ref →
            getitem ref "url" = Ok (JStr url) →
            (http_get (requests st1) url = None →
             get_evolution_chain pokemon_id st = (Ok [], tick_requests st1) ∧
             evolution_cache (tick_requests st1) = evolution_cache st)
            ∧ (∀ evolution_data chain e partial,
                 http_get (requests st1) url = Some evolution_data →
                 getitem evolution_data "chain" = Ok chain →
                 extract_chain chain [] = (Raise e, partial) →
                 (get_evolution_chain pokemon_id st).2 = tick_requests st1 ∧
                 evolution_cache (tick_requests st1) = evolution_cache st ∧
                 (e = KeyError ∨ e = ValueError →
                  get_evolution_chain pokemon_id st
                  = (Ok [], tick_requests st1))))).
Proof.
  split; [|split].
  - intros Hmiss Hdown. rewrite get_pokemon_data_run, Hmiss, Hdown.
    split; [done|]. split; [done|]. intros data Hup.
    rewrite get_pokemon_data_run. simpl. by rewrite Hmiss, Hup.
  - intros Hmiss Hdown. rewrite get_pokemon_species_data_run, Hmiss, Hdown.
    split; [done|]. split; [done|]. intros data Hup.
    rewrite get_pokemon_species_data_run. simpl. by rewrite Hmiss, Hup.
  - intros Hmiss species_data st1 Hspecies. split.
    + intros Hfalse.
      rewrite get_evolution_chain_run, Hmiss, Hspecies, Hfalse.
      split; [done|].
      by eapply get_pokemon_species_data_evolution_cache.
    + intros Htrue ref url Href Hurl. split.
      * intros Hdown.
        by apply (get_evolution_chain_failure _ species_data _ st1
                    RequestException);
          [..|rewrite (resolve_chain_run _ _ ref url), Hdown].
      * intros evolution_data chain e partial Hup Hchain Hextract.
        destruct (get_evolution_chain_failure pokemon_id species_data st st1
                    e (tick_requests st1)) as [Hrun Hcache]; try done.
        { by rewrite (resolve_chain_run _ _ ref url), Hup, Hchain, Hextract. }
        split; [by rewrite Hrun|]. split; [done|]. intros He.
        assert (caught_by_resolver e = true) as Hcaught.
        { apply bool_decide_eq_true. tauto. }
        by rewrite Hcaught in Hrun.
Qed.

(** ** The resolved chain is the pre-order traversal *)

(** The equation of [extract_chain] in the form of the source: append the
    id, then run over [chain_data.get('evolves_to', [])]. *)
#[local] Opaque String.eqb.

Lemma extract_chain_eq chain_data evolution_chain :
  extract_chain chain_data evolution_chain =
  match species_id chain_data with
  | Raise e => (Raise e, evolution_chain)
  | Ok pokemon_id =>
      match dict_get chain_data "evolves_to" (JArr []) with
      | Raise e => (Raise e, evolution_chain ++ [pokemon_id])
      | Ok (JArr items) =>
          for_each extract_chain items (evolution_chain ++ [pokemon_id])
      | Ok other => iterate_non_list other (evolution_chain ++ [pokemon_id])
      end
  end.
Proof.
  destruct chain_data as [| | | | |members]; try reflexivity.
  simpl. destruct (species_id (JObj members)) as [pokemon_id|]; [|done].
  generalize (evolution_chain ++ [pokemon_id]). intros acc.
  induction members as [|[k v] members IH]; [done|].
  simpl. destruct (String.eqb "evolves_to" k); [|exact IH].
  by destruct v.
Qed.

#[local] Transparent String.eqb.

Lemma chain_tree_forall_ind (P : chain_tree → Prop) :
  (∀ id children, Forall P children → P (ChainNode id children)) →
  ∀ t, P t.
Proof.
  intros Hnode. fix IH 1. intros [id children]. apply Hnode.
  induction children as [|c children IHc]; constructor; [apply IH|exact IHc].
Qed.

Lemma for_each_extract_chain items children acc :
  Forall2 (λ item t, ∀ acc, extract_chain item acc = (Ok (), acc ++ preorder t))
    items children →
  for_each extract_chain items acc = (Ok (), acc ++ mjoin (preorder <$> children)).
Proof.
  intros Hall. revert acc.
  induction Hall as [|item t items children Hitem _ IH]; intros acc; simpl.
  - by rewrite app_nil_r.
  - rewrite Hitem, IH. by rewrite <-(assoc_L (++)).
Qed.

Lemma extract_chain_preorder chain_data t :
  represents chain_data t →
  ∀ acc, extract_chain chain_data acc = (Ok (), acc ++ preorder t).
Proof.
  revert chain_data.
  induction t as [id children IH] using chain_tree_forall_ind.
  intros chain_data Hrep acc. inversion Hrep as [? ? items ? Hid Hget Hsub]; subst.
  rewrite extract_chain_eq, Hid, Hget.
  rewrite (for_each_extract_chain items children).
  - simpl. by rewrite <-(assoc_L (++)).
  - clear Hget Hrep. revert items Hsub.
    induction IH as [|t children Ht _ IHchildren]; intros items Hsub.
    + inversion Hsub. constructor.
    + inversion Hsub as [|item ? items' ? Hitem Hitems]; subst.
      constructor; [by apply Ht|by apply IHchildren].
Qed.

(** C5: when the chain document that the species record refers to is a
    tree document, [get_evolution_chain] returns the pre-order traversal of
    that tree: every node's id before the ids of its subtrees, the subtrees
    in the order in which the document lists them.  The answer is a function
    of the document alone; it is stored under the queried id and a repeated
    call returns it again. *)
Theorem evolution_chain_is_preorder
    pokemon_id st species_data st1 ref url evolution_data chain t :
  evolution_cache st !! pokemon_id = None →
  get_pokemon_species_data pokemon_id st = (Ok species_data, st1) →
  truthy species_data = true →
  getitem species_data "evolution_chain" = Ok ref →
  getitem ref "url" = Ok (JStr url) →
  http_get (requests st1) url = Some evolution_data →
  getitem evolution_data "chain" = Ok chain →
  represents chain t →
  ∃ st',
    get_evolution_chain pokemon_id st = (Ok (preorder t), st') ∧
    evolution_cache st' = <[pokemon_id := preorder t]> (evolution_cache st) ∧
    get_evolution_chain pokemon_id st' = (Ok (preorder t), st').
Proof.
  intros Hmiss Hspecies Htrue Href Hurl Hdoc Hchain Hrep.
  eexists. split; [|split].
  - rewrite get_evolution_chain_run, Hmiss, Hspecies, Htrue.
    rewrite (resolve_chain_run _ _ ref url), Hdoc, Hchain by done.
    rewrite (extract_chain_preorder chain t Hrep). reflexivity.
  - simpl. by rewrite (get_pokemon_species_data_evolution_cache _ _ _ _ Hspecies).
  - rewrite get_evolution_chain_run. simpl. by rewrite lookup_insert_eq.
Qed.

(** ** The persistent cache *)

Lemma dict_insert_str_keys s v (d : pydict) :
  Forall (λ kv, ∃ s', kv.1 = HStr s') d →
  Forall (λ kv, ∃ s', kv.1 = HStr s') (dict_insert (HStr s) v d).
Proof.
  induction 1 as [|[k' v'] d Hk Hd IH]; simpl.
  - repeat constructor. by exists s.
  - destruct (decide (HStr s = k')); constructor; auto.
Qed.

Lemma json_load_str_keys members :
  Forall (λ kv, ∃ s, kv.1 = HStr s) (json_load members).
Proof.
  unfold json_load. generalize (@nil (pyhash * json)) (Forall_nil_2 (λ kv : pyhash * json, ∃ s, kv.1 = HStr s)).
  induction members as [|[k v] members IH]; intros d Hd; simpl; [done|].
  apply IH. by apply dict_insert_str_keys.
Qed.

Lemma dict_lookup_int_str_keys i (d : pydict) :
  Forall (λ kv, ∃ s, kv.1 = HStr s) d → dict_lookup (HInt i) d = None.
Proof.
  induction 1 as [|[k v] d [s Hk] _ IH]; simpl in *; [done|].
  subst k. by destruct (decide (HInt i = HStr s)).
Qed.

Lemma dict_lookup_app k (d1 d2 : pydict) :
  dict_lookup k (d1 ++ d2) =
  match dict_lookup k d1 with
  | Some v => Some v
  | None => dict_lookup k d2
  end.
Proof.
  induction d1 as [|[k' v'] d1 IH]; simpl; [done|].
  by destruct (decide (k = k')).
Qed.

Lemma dict_insert_fresh k v (d : pydict) :
  dict_lookup k d = None → dict_insert k v d = d ++ [(k, v)].
Proof.
  induction d as [|[k' v'] d IH]; simpl; [done|].
  destruct (decide (k = k')); [done|]. intros Hmiss. by rewrite IH.
Qed.

Lemma json_load_fresh (acc : pydict) members :
  NoDup members.*1 →
  Forall (λ kv, dict_lookup (HStr kv.1) acc = None) members →
  foldl (λ d kv, dict_insert (HStr kv.1) kv.2 d) acc members
  = acc ++ ((λ kv, (HStr kv.1, kv.2)) <$> members).
Proof.
  revert acc. induction members as [|[s v] members IH]; intros acc.
  - simpl. by rewrite app_nil_r.
  - rewrite !fmap_cons. cbn [foldl fst snd].
    intros [Hs Hnodup]%NoDup_cons [Hmiss Hrest]%Forall_cons.
    rewrite (dict_insert_fresh _ _ _ Hmiss).
    rewrite IH; [by rewrite <-(assoc_L (++))|done|].
    apply Forall_forall. intros [s' v'] Hin.
    rewrite dict_lookup_app.
    rewrite (proj1 (Forall_forall _ _) Hrest _ Hin). simpl.
    destruct (decide (HStr s' = HStr s)) as [[= ->]|]; [|done].
    destruct Hs. apply list_elem_of_fmap. by exists (s, v').
Qed.

(** What the reload does keep: when the keys of a cache are distinct
    integers, every record is back with the value it had, in the same
    order, under the decimal text of its key. *)
Lemma json_load_dump_int_keys (d : pydict) :
  NoDup d.*1 →
  Forall (λ kv, ∃ i, kv.1 = HInt i) d →
  json_load (json_dump d) = (λ kv, (HStr (json_key kv.1), kv.2)) <$> d.
Proof.
  intros Hnodup Hint. unfold json_load, json_dump.
  rewrite json_load_fresh.
  - simpl. by rewrite <-list_fmap_compose.
  - rewrite <-list_fmap_compose.
    assert (∀ k1 k2, k1 ∈ d.*1 → k2 ∈ d.*1 →
                     json_key k1 = json_key k2 → k1 = k2) as Hinj.
    { intros k1 k2 Hk1 Hk2.
      apply list_elem_of_fmap in Hk1 as ([? v1] & -> & Hk1).
      apply list_elem_of_fmap in Hk2 as ([? v2] & -> & Hk2).
      destruct (proj1 (Forall_forall _ _) Hint _ Hk1) as [i1 Hi1].
      destruct (proj1 (Forall_forall _ _) Hint _ Hk2) as [i2 Hi2].
      simpl in *. subst. simpl. by intros ->%(inj pretty). }
    clear Hint. induction d as [|[k v] d IH]; simpl in *; [constructor|].
    apply NoDup_cons in Hnodup as [Hk Hnodup]. apply NoDup_cons. split.
    + intros ([k' v'] & Heq & Hin)%list_elem_of_fmap. simpl in Heq.
      apply Hk. apply list_elem_of_fmap. exists (k', v'). split; [|done].
      simpl. apply Hinj; [by left|right|done].
      apply list_elem_of_fmap. by exists (k', v').
    + apply IH; [done|]. intros k1 k2 Hk1 Hk2. apply Hinj; by right.
  - apply Forall_forall. by intros kv _.
Qed.

(** ** Manual picks *)

Lemma commit_spec type_filter pokemon_data sel sel' :
  commit type_filter pokemon_data sel = Ok sel' →
  selected_pokemon sel' = selected_pokemon sel ++ [pokemon_data] ∧
  if type_filter then
    ∃ names, type_names pokemon_data = Ok names ∧
             selected_types sel' = selected_types sel ∪ names
  else selected_types sel' = selected_types sel.
Proof.
  unfold commit. destruct type_filter.
  - destruct (type_names pokemon_data) as [names|]; [|done].
    intros [= <-]. eauto.
  - by intros [= <-].
Qed.

Lemma legendary_excluded_true flag pokemon_id st notable st' :
  legendary_excluded flag pokemon_id st = (Ok notable, st') →
  notable = true ↔
  flag = true ∧
  ∃ v st'', is_legendary pokemon_id st = (Ok v, st'') ∧ truthy v = true.
Proof.
  unfold legendary_excluded. destruct flag.
  - rewrite fmap_run.
    destruct (is_legendary pokemon_id st) as [[v|?] st'']; [|done].
    intros [= <- <-]. split; [by eauto|].
    by intros [_ (v' & ? & [= <- <-] & ?)].
  - intros [= <- <-]. split; [done|]. by intros [? _].
Qed.

(** C8: a manual pick whose name is in the index and whose record can be
    fetched is dropped, with a warning, exactly when the notability filter
    is on and the entity is notable; otherwise it is appended to the roster,
    whatever the type filter, the types already used and the stage of the
    entity are ([manual_pick] consults neither the used types nor the
    evolution filter). *)
Theorem manual_pick_rejected_iff_notable
    type_filter legendary_filter pokemon_name sel st
    names st1 index pokemon_data st2 notable st3 :
  pokemon_name ≠ "" →
  get_all_pokemon st = (Ok names, st1) →
  list_index pokemon_name names = Ok index →
  get_pokemon_data (index + 1) st1 = (Ok pokemon_data, st2) →
  truthy pokemon_data = true →
  legendary_excluded legendary_filter (index + 1) st2 = (Ok notable, st3) →
  (type_filter = true → ∃ types, type_names pokemon_data = Ok types) →
  (notable = true ↔
     legendary_filter = true ∧
     ∃ v st', is_legendary (index + 1) st2 = (Ok v, st') ∧ truthy v = true)
  ∧ ∃ sel',
      manual_pick type_filter legendary_filter pokemon_name sel st
      = (Ok sel',
         if notable then add_warning (WarnLegendary pokemon_name) st3 else st3)
      ∧ if notable then sel' = sel
        else selected_pokemon sel' = selected_pokemon sel ++ [pokemon_data].
Proof.
  intros Hname Hnames Hindex Hdata Htrue Hnotable Htypes.
  split; [by eapply legendary_excluded_true|].
  unfold manual_pick.
  destruct (String.eqb_spec pokemon_name "") as [|_]; [done|].
  unfold try_except.
  rewrite bind_run, Hnames, bind_run. unfold lift at 1. rewrite Hindex.
  cbv zeta. rewrite bind_run, Hdata, Htrue. cbn [negb].
  rewrite bind_run, Hnotable.
  destruct notable.
  - exists sel. by rewrite bind_run.
  - unfold lift, commit. destruct type_filter.
    + destruct Htypes as [types ->]; [done|]. simpl. by eexists.
    + by eexists.
Qed.

(** ** Properties kept by every step of the engine *)

Lemma dict_lookup_insert_eq k v (d : pydict) :
  dict_lookup k (dict_insert k v d) = Some v.
Proof.
  induction d as [|[k' v'] d IH]; simpl.
  - by destruct (decide (k = k)).
  - destruct (decide (k = k')) as [->|Hne]; simpl.
    + by destruct (decide (k' = k')).
    + by destruct (decide (k = k')).
Qed.

Lemma dict_lookup_insert_ne k k' v (d : pydict) :
  k ≠ k' → dict_lookup k' (dict_insert k v d) = dict_lookup k' d.
Proof.
  intros Hne. induction d as [|[k'' v''] d IH]; simpl.
  - by destruct (decide (k' = k)) as [->|].
  - destruct (decide (k = k'')) as [->|]; simpl.
    + by destruct (decide (k' = k'')) as [->|].
    + by destruct (decide (k' = k'')).
Qed.

Lemma dict_extends_insert k v (d : pydict) :
  dict_lookup k d = None → dict_extends d (dict_insert k v d).
Proof.
  intros Hmiss k' v' Hk'. rewrite dict_lookup_insert_ne; [done|].
  intros ->. congruence.
Qed.

Lemma extends_refl st : extends st st.
Proof. by split; [intros ??|intros ??|]. Qed.

Lemma extends_trans st1 st2 st3 :
  extends st1 st2 → extends st2 st3 → extends st1 st3.
Proof.
  intros [Hp1 Hs1 He1] [Hp2 Hs2 He2]. split.
  - intros k v Hk. by apply Hp2, Hp1.
  - intros k v Hk. by apply Hs2, Hs1.
  - by transitivity (evolution_cache st2).
Qed.

Lemma stable_extends st0 : stable (extends st0).
Proof.
  split.
  - by intros st [].
  - by intros st [].
  - intros st pokemon_id data Hext Hmiss _.
    eapply extends_trans; [exact Hext|]. split; simpl; [|by intros ??|done].
    by apply dict_extends_insert.
  - intros st pokemon_id data Hext Hmiss.
    eapply extends_trans; [exact Hext|]. split; simpl; [by intros ??| |done].
    by apply dict_extends_insert.
  - intros st pokemon_id chain Hext Hmiss.
    eapply extends_trans; [exact Hext|].
    split; simpl; [by intros ??|by intros ??|].
    by apply insert_subseteq.
Qed.

Lemma stable_warnings ws : stable (λ st, warnings st = ws).
Proof. by split. Qed.

Lemma stable_cache_faithful : remote_faithful → stable cache_faithful.
Proof.
  intros Hremote. split; try done.
  intros st pokemon_id data Hfaithful Hmiss Hdata i data'. simpl.
  destruct (decide (pokemon_id = i)) as [->|Hne].
  - rewrite dict_lookup_insert_eq. intros [= <-]. by eapply Hremote.
  - rewrite dict_lookup_insert_ne by congruence. apply Hfaithful.
Qed.

Lemma preserves_ret {A} P (a : A) : preserves P (mret a).
Proof. by intros st r st' HP [= _ <-]. Qed.

Lemma preserves_lift {A} P (r : result A) : preserves P (lift r).
Proof. by intros st r' st' HP [= _ <-]. Qed.

Lemma preserves_raise {A} P e : preserves P (raise e : M A).
Proof. by intros st r' st' HP [= _ <-]. Qed.

Lemma preserves_gets {A} P (f : state → A) : preserves P (gets f).
Proof. by intros st r' st' HP [= _ <-]. Qed.

Lemma preserves_bind {A B} P (c : M A) (k : A → M B) :
  preserves P c → (∀ a, preserves P (k a)) → preserves P (c ≫= k).
Proof.
  intros Hc Hk st r st' HP. rewrite bind_run.
  destruct (c st) as [[a|e] st1] eqn:Hrun.
  - apply Hk. by eapply Hc.
  - intros [= _ <-]. by eapply Hc.
Qed.

Lemma preserves_fmap {A B} P (f : A → B) (c : M A) :
  preserves P c → preserves P (f <$> c).
Proof.
  intros Hc st r st' HP. rewrite fmap_run.
  destruct (c st) as [[a|e] st1] eqn:Hrun; intros [= _ <-]; by eapply Hc.
Qed.

Lemma preserves_try_except {A} P (c h : M A) caught :
  preserves P c → preserves P h → preserves P (try_except c caught h).
Proof.
  intros Hc Hh st r st' HP. unfold try_except.
  destruct (c st) as [[a|e] st1] eqn:Hrun.
  - intros [= _ <-]. by eapply Hc.
  - destruct (caught e); [apply Hh|intros [= _ <-]]; by eapply Hc.
Qed.

Lemma preserves_get_pokemon_data P pokemon_id :
  stable P → preserves P (get_pokemon_data pokemon_id).
Proof.
  intros HP st r st' Hst. rewrite get_pokemon_data_run.
  destruct (dict_lookup _ _) eqn:Hmiss; [by intros [= _ <-]|].
  destruct (http_get _ _) eqn:Hdata; intros [= _ <-].
  - by apply (stable_pokemon _ HP).
  - by apply (stable_requests _ HP).
Qed.

Lemma preserves_get_pokemon_species_data P pokemon_id :
  stable P → preserves P (get_pokemon_species_data pokemon_id).
Proof.
  intros HP st r st' Hst. rewrite get_pokemon_species_data_run.
  destruct (dict_lookup _ _) eqn:Hmiss; [by intros [= _ <-]|].
  destruct (http_get _ _) eqn:Hdata; intros [= _ <-].
  - by apply (stable_species _ HP).
  - by apply (stable_requests _ HP).
Qed.

Lemma fetch_single_pokemon_run pokemon_id st :
  fetch_single_pokemon pokemon_id st =
  (Ok (), (get_pokemon_data pokemon_id st).2).
Proof.
  rewrite get_pokemon_data_run. unfold fetch_single_pokemon.
  rewrite bind_run. simpl. destruct (dict_lookup _ _); [done|].
  unfold try_except, fetch_json. rewrite bind_run.
  by destruct (http_get _ _).
Qed.

Lemma fetch_single_species_run pokemon_id st :
  fetch_single_species pokemon_id st =
  (Ok (), (get_pokemon_species_data pokemon_id st).2).
Proof.
  rewrite get_pokemon_species_data_run. unfold fetch_single_species.
  rewrite bind_run. simpl. destruct (dict_lookup _ _); [done|].
  unfold try_except, fetch_json. rewrite bind_run.
  by destruct (http_get _ _).
Qed.

Lemma preserves_fetch_single_pokemon P pokemon_id :
  stable P → preserves P (fetch_single_pokemon pokemon_id).
Proof.
  intros HP st r st' Hst. rewrite fetch_single_pokemon_run. intros [= _ <-].
  destruct (get_pokemon_data pokemon_id st) as [r' st''] eqn:Hrun.
  by eapply preserves_get_pokemon_data.
Qed.

Lemma preserves_fetch_single_species P pokemon_id :
  stable P → preserves P (fetch_single_species pokemon_id).
Proof.
  intros HP st r st' Hst. rewrite fetch_single_species_run. intros [= _ <-].
  destruct (get_pokemon_species_data pokemon_id st) as [r' st''] eqn:Hrun.
  by eapply preserves_get_pokemon_species_data.
Qed.

Lemma preserves_for_ids P f ids :
  (∀ i, preserves P (f i)) → preserves P (for_ids f ids).
Proof.
  intros Hf. induction ids as [|i ids IH]; simpl.
  - apply preserves_ret.
  - apply preserves_bind; [apply Hf|by intros _].
Qed.

(** The prefetcher swallows every failure. *)
Lemma for_ids_ok f ids st :
  (∀ i st, (f i st).1 = Ok ()) → (for_ids f ids st).1 = Ok ().
Proof.
  intros Hf. revert st. induction ids as [|i ids IH]; intros st; simpl; [done|].
  rewrite bind_run. specialize (Hf i st).
  destruct (f i st) as [[[]|?] st']; [apply IH|done].
Qed.

Lemma preserves_resolve_chain P pokemon_id species_data st r st' :
  stable P →
  evolution_cache st !! pokemon_id = None →
  P st →
  resolve_chain pokemon_id species_data st = (r, st') →
  P st'.
Proof.
  intros HP Hmiss Hst. unfold resolve_chain. rewrite bind_run. unfold lift at 1.
  destruct (getitem species_data _) as [ref|?]; [|by intros [= _ <-]].
  rewrite bind_run. unfold lift at 1.
  destruct (getitem ref _) as [url|?]; [|by intros [= _ <-]].
  rewrite bind_run.
  assert (∀ r1 st1,
    match url with
    | JStr u => fetch_json u
    | _ => raise RequestException
    end st = (r1, st1) →
    P st1 ∧ evolution_cache st1 !! pokemon_id = None) as Hfetch.
  { intros r1 st1. destruct url; intros [= _ <-]; try done.
    split; [by apply (stable_requests _ HP)|done]. }
  destruct (match url with JStr u => fetch_json u | _ => _ end st)
    as [[data|?] st1]; destruct (Hfetch _ _ eq_refl) as [Hst1 Hmiss1];
    [|by intros [= _ <-]].
  rewrite bind_run. unfold lift at 1.
  destruct (getitem data _) as [chain|?]; [|by intros [= _ <-]].
  destruct (extract_chain chain []) as [[?|?] evolution_chain];
    [|by intros [= _ <-]].
  rewrite bind_run. simpl. intros [= _ <-].
  by apply (stable_evolution _ HP).
Qed.

Lemma preserves_get_evolution_chain P pokemon_id :
  stable P → preserves P (get_evolution_chain pokemon_id).
Proof.
  intros HP st r st' Hst. rewrite get_evolution_chain_run.
  destruct (evolution_cache st !! pokemon_id) eqn:Hmiss; [by intros [= _ <-]|].
  destruct (get_pokemon_species_data pokemon_id st) as [[species_data|e] st1]
    eqn:Hspecies.
  2: { intros [= _ <-]. by eapply preserves_get_pokemon_species_data. }
  assert (P st1) as Hst1 by (by eapply preserves_get_pokemon_species_data).
  destruct (truthy species_data); [|by intros [= _ <-]].
  destruct (resolve_chain pokemon_id species_data st1) as [r2 st2] eqn:Hresolve.
  assert (P st2) as Hst2.
  { eapply preserves_resolve_chain; [done| |done..].
    by rewrite (get_pokemon_species_data_evolution_cache _ _ _ _ Hspecies). }
  destruct r2 as [?|e]; [by intros [= _ <-]|].
  by destruct (caught_by_resolver e); intros [= _ <-].
Qed.

Create HintDb preserves discriminated.

#[local] Hint Resolve preserves_ret preserves_lift preserves_raise
  preserves_gets preserves_get_pokemon_data preserves_get_pokemon_species_data
  preserves_fetch_single_pokemon preserves_fetch_single_species
  preserves_get_evolution_chain : preserves.

Ltac preserves_step :=
  lazymatch goal with
  | |- preserves _ (mbind _ _) => apply preserves_bind; [|intros ?]
  | |- preserves _ (fmap _ _) => apply preserves_fmap
  | |- preserves _ (try_except _ _ _) => apply preserves_try_except
  | |- preserves _ (if ?b then _ else _) => destruct b
  | |- preserves _ (match ?x with _ => _ end) => destruct x
  end.

Ltac solve_preserves := repeat preserves_step; eauto with preserves.

Lemma preserves_is_fully_evolved P pokemon_id :
  stable P → preserves P (is_fully_evolved pokemon_id).
Proof. intros HP. unfold is_fully_evolved. solve_preserves. Qed.

Lemma preserves_is_legendary P pokemon_id :
  stable P → preserves P (is_legendary pokemon_id).
Proof. intros HP. unfold is_legendary. solve_preserves. Qed.

#[local] Hint Resolve preserves_is_fully_evolved preserves_is_legendary
  : preserves.

Lemma preserves_evolution_excluded P flag pokemon_id :
  stable P → preserves P (evolution_excluded flag pokemon_id).
Proof. intros HP. unfold evolution_excluded. solve_preserves. Qed.

Lemma preserves_legendary_excluded P flag pokemon_id :
  stable P → preserves P (legendary_excluded flag pokemon_id).
Proof. intros HP. unfold legendary_excluded. solve_preserves. Qed.

#[local] Hint Resolve preserves_evolution_excluded preserves_legendary_excluded
  : preserves.

Lemma preserves_check_candidate P existing_types evolution_filter
    exclude_legendary pokemon_id :
  stable P →
  preserves P (check_candidate existing_types evolution_filter
                 exclude_legendary pokemon_id).
Proof. intros HP. unfold check_candidate. solve_preserves. Qed.

#[local] Hint Resolve preserves_check_candidate : preserves.

Lemma preserves_try_candidates P existing_types evolution_filter
    exclude_legendary valid_ids :
  stable P →
  preserves P (try_candidates existing_types evolution_filter
                 exclude_legendary valid_ids).
Proof.
  intros HP. induction valid_ids as [|pokemon_id rest IH]; simpl;
    solve_preserves.
Qed.

Lemma preserves_random_shuffle P valid_ids :
  stable P → preserves P (random_shuffle valid_ids).
Proof. intros HP st r st' Hst [= _ <-]. by apply (stable_shuffles _ HP). Qed.

#[local] Hint Resolve preserves_try_candidates preserves_random_shuffle
  : preserves.

Lemma preserves_get_random_pokemon P selected_generations existing_types
    evolution_filter exclude_legendary :
  stable P →
  preserves P (get_random_pokemon selected_generations existing_types
                 evolution_filter exclude_legendary).
Proof. intros HP. unfold get_random_pokemon. solve_preserves. Qed.

Lemma preserves_fetch_json P url : stable P → preserves P (fetch_json url).
Proof. intros HP st r st' Hst [= _ <-]. by apply (stable_requests _ HP). Qed.

#[local] Hint Resolve preserves_get_random_pokemon preserves_fetch_json
  : preserves.

Lemma preserves_get_all_pokemon P : stable P → preserves P get_all_pokemon.
Proof. intros HP. unfold get_all_pokemon. solve_preserves. Qed.

#[local] Hint Resolve preserves_get_all_pokemon : preserves.

Lemma preserves_warn P w :
  (∀ w st, P st → P (add_warning w st)) → preserves P (modify (add_warning w)).
Proof. intros Hw st r st' Hst [= _ <-]. by apply Hw. Qed.

#[local] Hint Resolve preserves_warn : preserves.

Lemma preserves_manual_pick P type_filter legendary_filter pokemon_name sel :
  stable P → (∀ w st, P st → P (add_warning w st)) →
  preserves P (manual_pick type_filter legendary_filter pokemon_name sel).
Proof. intros HP Hw. unfold manual_pick. solve_preserves. Qed.

#[local] Hint Resolve preserves_manual_pick : preserves.

Lemma preserves_manual_picks P type_filter legendary_filter pokemon_names sel :
  stable P → (∀ w st, P st → P (add_warning w st)) →
  preserves P (manual_picks type_filter legendary_filter pokemon_names sel).
Proof.
  intros HP Hw. revert sel.
  induction pokemon_names as [|pokemon_name rest IH]; intros sel; simpl;
    solve_preserves.
Qed.

Lemma preserves_prefetch_pokemon_data P pokemon_ids :
  stable P → preserves P (prefetch_pokemon_data pokemon_ids).
Proof. intros HP. apply preserves_for_ids. eauto with preserves. Qed.

Lemma preserves_prefetch_species_data P pokemon_ids :
  stable P → preserves P (prefetch_species_data pokemon_ids).
Proof. intros HP. apply preserves_for_ids. eauto with preserves. Qed.

#[local] Hint Resolve preserves_manual_picks preserves_prefetch_pokemon_data
  preserves_prefetch_species_data : preserves.

Lemma preserves_manual_selection P selected_generations type_filter
    legendary_filter pokemon_names :
  stable P → (∀ w st, P st → P (add_warning w st)) →
  preserves P (manual_selection selected_generations type_filter
                 legendary_filter pokemon_names).
Proof. intros HP Hw. unfold manual_selection. solve_preserves. Qed.

(** ** What an accepted candidate satisfies *)

Lemma get_pokemon_data_ok pokemon_id st :
  ∃ pokemon_data st', get_pokemon_data pokemon_id st = (Ok pokemon_data, st').
Proof.
  rewrite get_pokemon_data_run.
  destruct (dict_lookup _ _); [by eauto|]. destruct (http_get _ _); eauto.
Qed.

Lemma get_pokemon_data_cached pokemon_id st pokemon_data st' :
  get_pokemon_data pokemon_id st = (Ok pokemon_data, st') →
  truthy pokemon_data = true →
  dict_lookup (HInt pokemon_id) (pokemon_cache st') = Some pokemon_data.
Proof.
  rewrite get_pokemon_data_run.
  destruct (dict_lookup _ _) eqn:Hhit; [by intros [= <- <-]|].
  destruct (http_get _ _); intros [= <- <-]; [|done].
  intros _. simpl. apply dict_lookup_insert_eq.
Qed.

Lemma check_candidate_accept existing_types evolution_filter exclude_legendary
    pokemon_id st pokemon_data st' :
  check_candidate existing_types evolution_filter exclude_legendary
    pokemon_id st = (Ok (Some pokemon_data), st') →
  truthy pokemon_data = true ∧
  dict_lookup (HInt pokemon_id) (pokemon_cache st') = Some pokemon_data ∧
  ∀ used, existing_types = Some used →
          ∃ types, type_names pokemon_data = Ok types ∧ types ∩ used = ∅.
Proof.
  unfold check_candidate. rewrite bind_run.
  destruct (get_pokemon_data_ok pokemon_id st) as (data & st1 & Hdata).
  rewrite Hdata. destruct (truthy data) eqn:Htrue; [|done]. cbn [negb].
  pose proof (get_pokemon_data_cached _ _ _ _ Hdata Htrue) as Hcached.
  set (rest := mbind _ _). intros Hrest.
  assert (preserves (extends st1) rest) as Hpreserves.
  { pose proof (stable_extends st1). subst rest. solve_preserves. }
  pose proof (Hpreserves _ _ _ (extends_refl st1) Hrest) as Hext.
  revert Hrest. subst rest. rewrite bind_run.
  destruct (evolution_excluded _ _ _) as [[[]|?] st2]; try done.
  rewrite bind_run.
  destruct (legendary_excluded _ _ _) as [[[]|?] st3]; try done.
  destruct existing_types as [used|].
  - rewrite bind_run. unfold lift at 1.
    destruct (type_names data) as [types|] eqn:Htypes; [|done].
    case_bool_decide as Hoverlap; [done|]. intros [= <- <-].
    split; [done|]. split; [by apply (extends_pokemon _ _ Hext)|].
    intros ? [= <-]. exists types. split; [done|].
    by destruct (decide (types ∩ used = ∅)).
  - intros [= <- <-].
    split; [done|]. split; [by apply (extends_pokemon _ _ Hext)|done].
Qed.

Lemma try_candidates_accept existing_types evolution_filter exclude_legendary
    valid_ids st pokemon_data st' :
  try_candidates existing_types evolution_filter exclude_legendary
    valid_ids st = (Ok pokemon_data, st') →
  truthy pokemon_data = true →
  (∃ pokemon_id,
     pokemon_id ∈ valid_ids ∧
     dict_lookup (HInt pokemon_id) (pokemon_cache st') = Some pokemon_data) ∧
  ∀ used, existing_types = Some used →
          ∃ types, type_names pokemon_data = Ok types ∧ types ∩ used = ∅.
Proof.
  revert st. induction valid_ids as [|pokemon_id rest IH]; intros st; simpl.
  - by intros [= <- <-].
  - rewrite bind_run.
    destruct (check_candidate _ _ _ _ _) as [[[data|]|?] st1] eqn:Hcheck;
      [| |done].
    + intros [= <- <-] _.
      destruct (check_candidate_accept _ _ _ _ _ _ _ Hcheck) as (_ & ? & ?).
      split; [|done]. exists pokemon_id. by rewrite elem_of_cons; auto.
    + intros Hrest Htrue.
      destruct (IH _ Hrest Htrue) as [(i & Hi & Hcached) Htypes].
      split; [|done]. exists i. by rewrite elem_of_cons; auto.
Qed.

Lemma get_random_pokemon_accept selected_generations existing_types
    evolution_filter exclude_legendary st pokemon_data st' :
  get_random_pokemon selected_generations existing_types evolution_filter
    exclude_legendary st = (Ok pokemon_data, st') →
  truthy pokemon_data = true →
  (∃ pokemon_id,
     dict_lookup (HInt pokemon_id) (pokemon_cache st') = Some pokemon_data) ∧
  ∀ used, existing_types = Some used →
          ∃ types, type_names pokemon_data = Ok types ∧ types ∩ used = ∅.
Proof.
  unfold get_random_pokemon. rewrite bind_run. unfold lift at 1.
  destruct (ids_of_generations selected_generations) as [[|i ids]|]; try done.
  - by intros [= <- <-].
  - rewrite bind_run. unfold random_shuffle at 1.
    intros Htry Htrue.
    destruct (try_candidates_accept _ _ _ _ _ _ _ Htry Htrue)
      as [(pokemon_id & _ & Hcached) Htypes].
    eauto.
Qed.

(** ** Invariants of the sampler *)

#[local] Arguments commit : simpl never.

Lemma roster_cached_extends roster st st' :
  extends st st' → roster_cached roster st → roster_cached roster st'.
Proof.
  intros Hext Hcached a Ha. destruct (Hcached a Ha) as [i Hi].
  exists i. by apply (extends_pokemon _ _ Hext).
Qed.

Lemma extends_add_warning st0 w st :
  extends st0 st → extends st0 (add_warning w st).
Proof. by intros []. Qed.

Lemma commit_covered pokemon_data sel sel' :
  covered sel → commit true pokemon_data sel = Ok sel' → covered sel'.
Proof.
  intros Hcovered Hcommit.
  destruct (commit_spec _ _ _ _ Hcommit) as (Hroster & names & Hnames & Htypes).
  intros a. rewrite Hroster, Htypes, elem_of_app, list_elem_of_singleton.
  intros [Ha| ->].
  - destruct (Hcovered a Ha) as (ta & Hta & Hsub). exists ta.
    split; [done|]. clear -Hsub. set_solver.
  - exists names. split; [done|]. clear. set_solver.
Qed.

Lemma commit_cached type_filter pokemon_data sel sel' st i :
  roster_cached (selected_pokemon sel) st →
  dict_lookup (HInt i) (pokemon_cache st) = Some pokemon_data →
  commit type_filter pokemon_data sel = Ok sel' →
  roster_cached (selected_pokemon sel') st.
Proof.
  intros Hcached Hi Hcommit.
  destruct (commit_spec _ _ _ _ Hcommit) as (Hroster & _).
  intros a. rewrite Hroster, elem_of_app, list_elem_of_singleton.
  intros [Ha| ->]; [by apply Hcached|by exists i].
Qed.

Lemma try_except_ret_inv {A} (c : M A) caught (a0 a : A) st st' :
  try_except c caught (mret a0) st = (Ok a, st') →
  c st = (Ok a, st') ∨ (a = a0 ∧ ∃ e, c st = (Raise e, st')).
Proof.
  unfold try_except. destruct (c st) as [[a1|e] st1]; [by left; congruence|].
  destruct (caught e); [|done]. intros [= <- <-]. right. eauto.
Qed.

(** A manual pick leaves the selection as it was or commits a record that
    is then in the cache. *)
Lemma manual_pick_inv type_filter legendary_filter pokemon_name sel st sel' st' :
  manual_pick type_filter legendary_filter pokemon_name sel st = (Ok sel', st') →
  sel' = sel ∨
  ∃ pokemon_id pokemon_data,
    dict_lookup (HInt pokemon_id) (pokemon_cache st') = Some pokemon_data ∧
    commit type_filter pokemon_data sel = Ok sel'.
Proof.
  unfold manual_pick. destruct (String.eqb pokemon_name "").
  { intros [= <- <-]. by left. }
  intros [Hbody|[-> _]]%try_except_ret_inv; [|by left].
  revert Hbody. rewrite bind_run.
  destruct (get_all_pokemon st) as [[names|?] st1]; [|done].
  rewrite bind_run. unfold lift at 1.
  destruct (list_index pokemon_name names) as [index|]; [|done].
  cbv zeta. rewrite bind_run.
  destruct (get_pokemon_data_ok (index + 1) st1) as (data & st2 & Hdata).
  rewrite Hdata. destruct (truthy data) eqn:Htrue; cbn [negb].
  2: { intros [= <- <-]. by left. }
  pose proof (get_pokemon_data_cached _ _ _ _ Hdata Htrue) as Hcached.
  rewrite bind_run.
  destruct (legendary_excluded legendary_filter (index + 1) st2)
    as [[notable|?] st3] eqn:Hnotable; [|done].
  assert (extends st2 st3) as Hext.
  { eapply (preserves_legendary_excluded (extends st2));
      [apply stable_extends|apply extends_refl|done]. }
  destruct notable.
  - rewrite bind_run. intros [= <- <-]. by left.
  - unfold lift. intros [= Hcommit <-]. right. exists (index + 1), data.
    split; [by apply (extends_pokemon _ _ Hext)|done].
Qed.

Lemma manual_picks_invariant type_filter legendary_filter pokemon_names
    sel st sel' st' :
  manual_picks type_filter legendary_filter pokemon_names sel st
    = (Ok sel', st') →
  (roster_cached (selected_pokemon sel) st →
   roster_cached (selected_pokemon sel') st') ∧
  (type_filter = true → covered sel → covered sel').
Proof.
  revert sel st.
  induction pokemon_names as [|pokemon_name rest IH]; intros sel st; simpl.
  { by intros [= <- <-]. }
  rewrite bind_run.
  destruct (manual_pick _ _ _ _ _) as [[sel1|?] st1] eqn:Hpick; [|done].
  intros Hrest. destruct (IH _ _ Hrest) as [IHcached IHcovered].
  assert (extends st st1) as Hext.
  { eapply (preserves_manual_pick (extends st));
      [apply stable_extends|apply extends_add_warning|apply extends_refl|done]. }
  destruct (manual_pick_inv _ _ _ _ _ _ _ Hpick)
    as [->|(pokemon_id & data & Hdata & Hcommit)].
  - split; [|done]. intros Hcached. by eapply IHcached, roster_cached_extends.
  - split.
    + intros Hcached. eapply IHcached, commit_cached; [|done..].
      by eapply roster_cached_extends.
    + intros -> Hcovered. apply IHcovered; [done|]. by eapply commit_covered.
Qed.

Lemma manual_selection_inv selected_generations type_filter legendary_filter
    pokemon_names st manual st' :
  manual_selection selected_generations type_filter legendary_filter
    pokemon_names st = (Ok manual, st') →
  extends st st' ∧
  roster_cached (selected_pokemon manual) st' ∧
  (type_filter = true → covered manual).
Proof.
  intros Hrun. split.
  { eapply (preserves_manual_selection (extends st));
      [apply stable_extends|apply extends_add_warning|apply extends_refl|done]. }
  revert Hrun. unfold manual_selection. rewrite bind_run. unfold lift at 1.
  destruct (ids_of_generations selected_generations) as [ids|]; [|done].
  rewrite bind_run.
  destruct (prefetch_pokemon_data ids st) as [[[]|?] st1]; [|done].
  rewrite bind_run.
  destruct (prefetch_species_data ids st1) as [[[]|?] st2]; [|done].
  intros [Hcached Hcovered]%manual_picks_invariant. split.
  - apply Hcached. by intros a ?%elem_of_nil.
  - intros ->. apply Hcovered; [done|]. by intros a ?%elem_of_nil.
Qed.

Lemma preserves_fill_team P fuel selected_generations type_filter
    evolution_filter legendary_filter sel st r st' :
  stable P → (∀ w st, P st → P (add_warning w st)) →
  P st →
  fill_team fuel selected_generations type_filter evolution_filter
    legendary_filter sel st = Some (r, st') →
  P st'.
Proof.
  intros HP Hw. revert sel st.
  induction fuel as [|fuel IH]; intros sel st Hst; simpl;
    (case_bool_decide; [|by intros [= _ <-]]); [done|].
  destruct (get_random_pokemon _ _ _ _ _) as [[data|?] st1] eqn:Hrandom.
  2: { intros [= _ <-]. by eapply preserves_get_random_pokemon. }
  assert (P st1) as Hst1 by (by eapply preserves_get_random_pokemon).
  destruct (truthy data); cbn [negb]; [|intros [= _ <-]; by apply Hw].
  destruct (commit type_filter data sel); [by apply IH|by intros [= _ <-]].
Qed.

Lemma disjoint_from_length roster : disjoint_from (length roster) roster.
Proof.
  intros i j a b _ Hj _ Hb. apply lookup_lt_Some in Hb. lia.
Qed.

(** Under the type filter every entry that the random fill appends shares
    no type tag with any entry before it. *)
Lemma fill_team_disjoint fuel selected_generations evolution_filter
    legendary_filter sel st sel' st' :
  covered sel →
  fill_team fuel selected_generations true evolution_filter legendary_filter
    sel st = Some (Ok sel', st') →
  (∃ added, selected_pokemon sel' = selected_pokemon sel ++ added) ∧
  disjoint_from (length (selected_pokemon sel)) (selected_pokemon sel').
Proof.
  revert sel st.
  induction fuel as [|fuel IH]; intros sel st Hcovered; simpl;
    (case_bool_decide;
     [|intros [= <- <-]; split;
       [exists []; by rewrite app_nil_r|apply disjoint_from_length]]);
    [done|].
  destruct (get_random_pokemon _ _ _ _ _) as [[data|?] st1] eqn:Hrandom;
    [|done].
  destruct (truthy data) eqn:Htrue; cbn [negb].
  2: { intros [= <- <-]. split;
         [exists []; by rewrite app_nil_r|apply disjoint_from_length]. }
  destruct (commit true data sel) as [sel1|] eqn:Hcommit; [|done].
  intros Hrest.
  destruct (commit_spec _ _ _ _ Hcommit) as (Hroster & names & Hnames & Htypes).
  destruct (IH _ _ (commit_covered _ _ _ Hcovered Hcommit) Hrest)
    as [[added Hadded] Hdisjoint].
  rewrite Hroster in Hadded, Hdisjoint. rewrite <-(assoc_L (++)) in Hadded.
  change ([data] ++ added) with (data :: added) in Hadded.
  split; [by eauto|].
  destruct (get_random_pokemon_accept _ _ _ _ _ _ _ Hrandom Htrue)
    as [_ Hfresh].
  destruct (Hfresh _ eq_refl) as (names' & Hnames' & Hempty).
  assert (names' = names) as -> by congruence.
  intros i j a b Hij Hj Ha Hb.
  destruct (decide (j = length (selected_pokemon sel))) as [->|Hne].
  - rewrite Hadded in Ha, Hb.
    rewrite lookup_app_l in Ha by done.
    rewrite list_lookup_middle in Hb by done. injection Hb as <-.
    destruct (Hcovered a) as (ta & Hta & Hsub).
    { by eapply list_elem_of_lookup_2. }
    exists ta, names. split; [done|]. split; [done|].
    apply elem_of_equiv_empty_L. intros x [Hxa Hxn]%elem_of_intersection.
    apply (not_elem_of_empty (C:=gset pyhash) x). rewrite <-Hempty.
    apply elem_of_intersection. split; [done|by apply Hsub].
  - apply (Hdisjoint i j a b); [done| |done..].
    rewrite length_app. simpl. lia.
Qed.

Lemma fill_team_cached fuel selected_generations type_filter evolution_filter
    legendary_filter sel st sel' st' :
  roster_cached (selected_pokemon sel) st →
  fill_team fuel selected_generations type_filter evolution_filter
    legendary_filter sel st = Some (Ok sel', st') →
  roster_cached (selected_pokemon sel') st'.
Proof.
  revert sel st.
  induction fuel as [|fuel IH]; intros sel st Hcached; simpl;
    (case_bool_decide; [|by intros [= <- <-]]); [done|].
  destruct (get_random_pokemon _ _ _ _ _) as [[data|?] st1] eqn:Hrandom;
    [|done].
  assert (extends st st1) as Hext.
  { eapply (preserves_get_random_pokemon (extends st));
      [apply stable_extends|apply extends_refl|done]. }
  apply (roster_cached_extends _ _ _ Hext) in Hcached.
  destruct (truthy data) eqn:Htrue; cbn [negb]; [|by intros [= <- <-]].
  destruct (commit type_filter data sel) as [sel1|] eqn:Hcommit; [|done].
  destruct (get_random_pokemon_accept _ _ _ _ _ _ _ Hrandom Htrue)
    as [[i Hi] _].
  apply IH. by eapply commit_cached.
Qed.

Lemma generate_pokemon_team_inv fuel selected_generations type_filter
    evolution_filter legendary_filter pokemon_names st sel st' :
  generate_pokemon_team fuel selected_generations type_filter evolution_filter
    legendary_filter pokemon_names st = Some (Ok sel, st') →
  ∃ manual st1,
    manual_selection selected_generations type_filter legendary_filter
      pokemon_names st = (Ok manual, st1) ∧
    fill_team fuel selected_generations type_filter evolution_filter
      legendary_filter manual st1 = Some (Ok sel, st').
Proof.
  unfold generate_pokemon_team.
  destruct (manual_selection _ _ _ _ _) as [[manual|?] st1]; [by eauto|done].
Qed.

(** C3, as amended: with the type filter on, an entry that the random fill
    appends shares no type tag with any entry before it, manual or random;
    so two entries of the finished roster can share a type tag only when
    both are manual picks. *)
Theorem random_fill_shares_no_type fuel selected_generations evolution_filter
    legendary_filter pokemon_names st sel st' :
  generate_pokemon_team fuel selected_generations true evolution_filter
    legendary_filter pokemon_names st = Some (Ok sel, st') →
  ∃ manual st1,
    manual_selection selected_generations true legendary_filter
      pokemon_names st = (Ok manual, st1) ∧
    (∃ added, selected_pokemon sel = selected_pokemon manual ++ added) ∧
    ∀ i j a b,
      (i < j)%nat → (length (selected_pokemon manual) ≤ j)%nat →
      selected_pokemon sel !! i = Some a →
      selected_pokemon sel !! j = Some b →
      ∃ ta tb, type_names a = Ok ta ∧ type_names b = Ok tb ∧ ta ∩ tb = ∅.
Proof.
  intros (manual & st1 & Hmanual & Hfill)%generate_pokemon_team_inv.
  exists manual, st1. split; [done|].
  destruct (manual_selection_inv _ _ _ _ _ _ _ Hmanual) as (_ & _ & Hcovered).
  by apply (fill_team_disjoint _ _ _ _ _ _ _ _ (Hcovered eq_refl) Hfill).
Qed.

(** C1, as amended: with the type filter on, where every record is served
    and cached under its own id, an entry that the random fill appends and
    that has at least one type tag carries an id different from the id of
    every entry before it. *)
Theorem random_fill_repeats_no_id fuel selected_generations evolution_filter
    legendary_filter pokemon_names st sel st' :
  remote_faithful →
  cache_faithful st →
  generate_pokemon_team fuel selected_generations true evolution_filter
    legendary_filter pokemon_names st = Some (Ok sel, st') →
  ∃ manual st1,
    manual_selection selected_generations true legendary_filter
      pokemon_names st = (Ok manual, st1) ∧
    (∃ added, selected_pokemon sel = selected_pokemon manual ++ added) ∧
    ∀ i j a b,
      (i < j)%nat → (length (selected_pokemon manual) ≤ j)%nat →
      selected_pokemon sel !! i = Some a →
      selected_pokemon sel !! j = Some b →
      type_names b ≠ Ok ∅ →
      ∃ ia ib, record_id a = Some ia ∧ record_id b = Some ib ∧ ia ≠ ib.
Proof.
  intros Hremote Hfaithful
    (manual & st1 & Hmanual & Hfill)%generate_pokemon_team_inv.
  exists manual, st1. split; [done|].
  destruct (manual_selection_inv _ _ _ _ _ _ _ Hmanual)
    as (_ & Hcached & Hcovered).
  destruct (fill_team_disjoint _ _ _ _ _ _ _ _ (Hcovered eq_refl) Hfill)
    as [Hadded Hdisjoint].
  split; [done|].
  assert (cache_faithful st') as Hfaithful'.
  { eapply (preserves_fill_team cache_faithful);
      [by apply stable_cache_faithful|done| |done].
    eapply (preserves_manual_selection cache_faithful);
      [by apply stable_cache_faithful|done|done..]. }
  pose proof (fill_team_cached _ _ _ _ _ _ _ _ _ Hcached Hfill) as Hcached'.
  intros i j a b Hij Hj Ha Hb Hnonempty.
  destruct (Hcached' a) as [ia Hia]; [by eapply list_elem_of_lookup_2|].
  destruct (Hcached' b) as [ib Hib]; [by eapply list_elem_of_lookup_2|].
  exists ia, ib. split; [by apply Hfaithful'|]. split; [by apply Hfaithful'|].
  intros <-.
  destruct (Hdisjoint i j a b Hij Hj Ha Hb) as (ta & tb & Hta & Htb & Hempty).
  assert (a = b) as -> by congruence.
  assert (ta = tb) as -> by congruence.
  apply Hnonempty. rewrite Htb. f_equal. clear -Hempty. set_solver.
Qed.

(** ** Termination of the fill loop *)

Lemma barred_extends evolution_filter legendary_filter st st' pokemon_id :
  extends st st' →
  barred evolution_filter legendary_filter st pokemon_id = true →
  barred evolution_filter legendary_filter st' pokemon_id = true.
Proof.
  intros [_ Hspecies Hevolution].
  assert (∀ chain, evolution_cache st !! pokemon_id = Some chain →
                   evolution_cache st' !! pokemon_id = Some chain) as Hchain.
  { intros chain Hchain. by eapply lookup_weaken. }
  specialize (Hspecies (HInt pokemon_id)).
  unfold barred, stage_barred, notable_barred.
  destruct (evolution_cache st !! pokemon_id) as [chain|];
    [rewrite (Hchain _ eq_refl)|];
    (destruct (dict_lookup (HInt pokemon_id) (species_cache st)) as [species|];
     [rewrite (Hspecies _ eq_refl)|]); try done.
  - rewrite andb_false_r, !orb_false_r. intros ->. by rewrite orb_true_l.
  - rewrite andb_false_r, orb_false_l, orb_false_r.
    intros [[->%negb_true_iff Hlegendary]%andb_true_iff Hnotable]%andb_true_iff.
    by rewrite Hlegendary, Hnotable.
  - by rewrite !andb_false_r.
Qed.

Lemma is_fully_evolved_cached pokemon_id st chain :
  evolution_cache st !! pokemon_id = Some chain →
  is_fully_evolved pokemon_id st =
  (Ok match chain with
      | [] => true
      | _ => bool_decide (Some pokemon_id = last chain)
      end, st).
Proof.
  intros Hchain. unfold is_fully_evolved.
  rewrite bind_run, get_evolution_chain_run, Hchain. by destruct chain.
Qed.

Lemma is_legendary_notable pokemon_id st :
  notable_barred st pokemon_id = true →
  ∃ v, is_legendary pokemon_id st = (Ok v, st) ∧ truthy v = true.
Proof.
  unfold notable_barred.
  destruct (dict_lookup (HInt pokemon_id) (species_cache st))
    as [[| | | | |members]|] eqn:Hspecies; try done.
  intros Hflag.
  destruct (is_legendary_on_record pokemon_id st members st) as (v & Hrun & Hv).
  { by rewrite get_pokemon_species_data_run, Hspecies. }
  exists v. split; [done|congruence].
Qed.

(** A barred candidate is skipped. *)
Lemma check_candidate_barred existing_types evolution_filter legendary_filter
    pokemon_id st :
  barred evolution_filter legendary_filter st pokemon_id = true →
  ∃ st', check_candidate existing_types evolution_filter legendary_filter
           pokemon_id st = (Ok None, st').
Proof.
  intros Hbarred. unfold check_candidate. rewrite bind_run.
  destruct (get_pokemon_data_ok pokemon_id st) as (data & st1 & Hdata).
  rewrite Hdata.
  assert (extends st st1) as Hext.
  { eapply (preserves_get_pokemon_data (extends st));
      [apply stable_extends|apply extends_refl|done]. }
  apply (barred_extends _ _ _ _ _ Hext) in Hbarred. clear Hdata Hext.
  destruct (truthy data); cbn [negb]; [|by eauto].
  rewrite bind_run. unfold evolution_excluded, legendary_excluded.
  revert Hbarred. unfold barred, stage_barred.
  destruct evolution_filter; cbn [andb negb orb].
  - destruct (evolution_cache st1 !! pokemon_id) as [chain|] eqn:Hchain;
      [|done].
    rewrite fmap_run, (is_fully_evolved_cached _ _ _ Hchain).
    destruct chain as [|stage stages].
    + cbn [negb orb]. rewrite bind_run.
      intros [[_ ->]%andb_true_iff Hnotable]%andb_true_iff.
      destruct (is_legendary_notable _ _ Hnotable) as (v & Hrun & Hv).
      rewrite fmap_run, Hrun, Hv. by eauto.
    + destruct (bool_decide (Some pokemon_id = last (stage :: stages)));
        cbn [negb orb]; [|by eauto].
      rewrite bind_run.
      intros [[_ ->]%andb_true_iff Hnotable]%andb_true_iff.
      destruct (is_legendary_notable _ _ Hnotable) as (v & Hrun & Hv).
      rewrite fmap_run, Hrun, Hv. by eauto.
  - intros [-> Hnotable]%andb_true_iff.
    change ((mret false : M bool) st1) with (Ok false, st1). cbv iota.
    rewrite bind_run.
    destruct (is_legendary_notable _ _ Hnotable) as (v & Hrun & Hv).
    rewrite fmap_run, Hrun, Hv. by eauto.
Qed.

Lemma try_candidates_barred existing_types evolution_filter legendary_filter
    valid_ids st :
  Forall (λ i, barred evolution_filter legendary_filter st i = true) valid_ids →
  ∃ st', try_candidates existing_types evolution_filter legendary_filter
           valid_ids st = (Ok JNull, st').
Proof.
  revert st. induction valid_ids as [|pokemon_id rest IH]; intros st Hbarred;
    simpl; [by eauto|].
  apply Forall_cons in Hbarred as [Hfirst Hrest].
  destruct (check_candidate_barred existing_types _ _ _ _ Hfirst)
    as [st1 Hcheck].
  rewrite bind_run, Hcheck. apply IH.
  eapply Forall_impl; [exact Hrest|]. intros i. apply barred_extends.
  eapply (preserves_check_candidate (extends st));
    [apply stable_extends|apply extends_refl|done].
Qed.

(** A round over candidates that are all barred gives no result. *)
Lemma get_random_pokemon_barred selected_generations existing_types
    evolution_filter legendary_filter valid_ids st :
  ids_of_generations selected_generations = Ok valid_ids →
  Forall (λ i, barred evolution_filter legendary_filter st i = true) valid_ids →
  ∃ st', get_random_pokemon selected_generations existing_types
           evolution_filter legendary_filter st = (Ok JNull, st').
Proof using shuffle_perm.
  intros Hids Hbarred. unfold get_random_pokemon.
  rewrite bind_run. unfold lift at 1. rewrite Hids.
  destruct valid_ids as [|i ids]; [by eauto|].
  rewrite bind_run. unfold random_shuffle at 1.
  apply try_candidates_barred.
  apply Forall_forall. intros x Hx. rewrite shuffle_perm in Hx.
  by apply (proj1 (Forall_forall _ _) Hbarred).
Qed.

Lemma prefetch_pokemon_data_ok pokemon_ids st :
  ∃ st', prefetch_pokemon_data pokemon_ids st = (Ok (), st').
Proof.
  pose proof (for_ids_ok fetch_single_pokemon pokemon_ids st) as Hok.
  unfold prefetch_pokemon_data.
  destruct (for_ids _ _ _) as [r st']. exists st'. f_equal. apply Hok.
  intros i st0. by rewrite fetch_single_pokemon_run.
Qed.

Lemma prefetch_species_data_ok pokemon_ids st :
  ∃ st', prefetch_species_data pokemon_ids st = (Ok (), st').
Proof.
  pose proof (for_ids_ok fetch_single_species pokemon_ids st) as Hok.
  unfold prefetch_species_data.
  destruct (for_ids _ _ _) as [r st']. exists st'. f_equal. apply Hok.
  intros i st0. by rewrite fetch_single_species_run.
Qed.

(** Six rounds are enough: every round that does not stop the loop adds an
    entry to the roster. *)
Lemma fill_team_is_some fuel selected_generations type_filter evolution_filter
    legendary_filter sel st :
  (6 ≤ length (selected_pokemon sel) + fuel)%nat →
  is_Some (fill_team fuel selected_generations type_filter evolution_filter
             legendary_filter sel st).
Proof.
  revert sel st. induction fuel as [|fuel IH]; intros sel st Hfuel; simpl;
    (case_bool_decide; [|by eauto]); [lia|].
  destruct (get_random_pokemon _ _ _ _ _) as [[data|?] st1]; [|by eauto].
  destruct (truthy data); cbn [negb]; [|by eauto].
  destruct (commit type_filter data sel) as [sel1|] eqn:Hcommit; [|by eauto].
  apply IH. destruct (commit_spec _ _ _ _ Hcommit) as [-> _].
  rewrite length_app. simpl. lia.
Qed.

(** C7: the fill loop terminates, within six rounds, from every state and
    for every selection of generations and filters.  When what the caches
    hold bars every candidate from passing the filters that are on, the
    first round tries every candidate, returns no result and ends the loop:
    the cycle ends with an empty roster and the warning that no further
    entity was found.  In particular a round over a single barred id
    returns no result. *)
Theorem fill_loop_terminates selected_generations type_filter evolution_filter
    legendary_filter pokemon_names st :
  (∀ fuel, (6 ≤ fuel)%nat →
     is_Some (generate_pokemon_team fuel selected_generations type_filter
                evolution_filter legendary_filter pokemon_names st))
  ∧ (∀ valid_ids,
       ids_of_generations selected_generations = Ok valid_ids →
       Forall (λ i, barred evolution_filter legendary_filter st i = true)
         valid_ids →
       ∃ st',
         generate_pokemon_team 6 selected_generations type_filter
           evolution_filter legendary_filter [] st
         = Some (Ok (Selection [] ∅), st') ∧
         warnings st' = warnings st ++ [WarnNoMorePokemon])
  ∧ (∀ pokemon_id,
       barred evolution_filter legendary_filter st pokemon_id = true →
       ∃ st',
         try_candidates
           (if type_filter then Some ∅ else None)
           evolution_filter legendary_filter [pokemon_id] st
         = (Ok JNull, st')).
Proof using shuffle_perm.
  split; [|split].
  - intros fuel Hfuel. unfold generate_pokemon_team.
    destruct (manual_selection _ _ _ _ _) as [[manual|?] st1]; [|by eauto].
    apply fill_team_is_some. lia.
  - intros valid_ids Hids Hbarred.
    unfold generate_pokemon_team, manual_selection.
    rewrite bind_run. unfold lift at 1. rewrite Hids.
    destruct (prefetch_pokemon_data_ok valid_ids st) as [st1 Hst1].
    destruct (prefetch_species_data_ok valid_ids st1) as [st2 Hst2].
    rewrite bind_run, Hst1, bind_run, Hst2.
    assert (extends st st2 ∧ warnings st2 = warnings st) as [Hext Hwarn].
    { split.
      - eapply (preserves_prefetch_species_data (extends st));
          [apply stable_extends| |done].
        eapply (preserves_prefetch_pokemon_data (extends st));
          [apply stable_extends|apply extends_refl|done].
      - eapply (preserves_prefetch_species_data (λ s, warnings s = warnings st));
          [apply stable_warnings| |done].
        by eapply (preserves_prefetch_pokemon_data
                     (λ s, warnings s = warnings st));
          [apply stable_warnings| |done]. }
    destruct (get_random_pokemon_barred selected_generations
                (if type_filter then Some ∅ else None)
                evolution_filter legendary_filter valid_ids st2 Hids)
      as [st3 Hround].
    { eapply Forall_impl; [exact Hbarred|]. intros i.
      by apply barred_extends. }
    simpl. rewrite Hround. simpl. eexists. split; [done|]. simpl.
    f_equal. rewrite <-Hwarn.
    by eapply (preserves_get_random_pokemon (λ s, warnings s = warnings st2));
      [apply stable_warnings| |done].
  - intros pokemon_id Hbarred. apply try_candidates_barred.
    by repeat constructor.
Qed.

(** ** Further properties

    *** Splitting at a separator *)

Lemma split_on_nonempty sep s : split_on sep s ≠ [].
Proof.
  destruct s as [|c rest]; simpl; [done|].
  destruct (Ascii.eqb c sep); [done|]. by destruct (split_on sep rest).
Qed.

Lemma split_on_join sep s : join_with sep (split_on sep s) = s.
Proof.
  induction s as [|c rest IH]; simpl; [done|].
  pose proof (split_on_nonempty sep rest) as Hne.
  destruct (Ascii.eqb_spec c sep) as [->|_].
  - destruct (split_on sep rest) as [|part parts]; [done|].
    simpl in *. by rewrite IH.
  - destruct (split_on sep rest) as [|part [|part' parts]]; [done|..];
      simpl in *; by rewrite <-IH.
Qed.

Lemma split_on_parts sep s :
  Forall (λ part, occurs sep part = false) (split_on sep s).
Proof.
  induction s as [|c rest IH]; simpl; [by repeat constructor|].
  destruct (Ascii.eqb_spec c sep) as [->|Hne]; [by constructor|].
  destruct (split_on sep rest) as [|part parts]; simpl.
  - repeat constructor. simpl. by destruct (Ascii.eqb_spec c sep).
  - apply Forall_cons in IH as [Hpart Hparts]. constructor; [|done].
    simpl. rewrite Hpart. by destruct (Ascii.eqb_spec c sep).
Qed.

Lemma append_nil (b : string) : "" +:+ b = b.
Proof. reflexivity. Qed.

Lemma append_cons x (a b : string) : String x a +:+ b = String x (a +:+ b).
Proof. reflexivity. Qed.

Lemma split_on_app sep a b :
  split_on sep (a +:+ String sep b) = split_on sep a ++ split_on sep b.
Proof.
  induction a as [|c a IH].
  - rewrite append_nil. simpl. by rewrite Ascii.eqb_refl.
  - rewrite append_cons. simpl.
    destruct (Ascii.eqb c sep); [by rewrite IH|]. rewrite IH.
    pose proof (split_on_nonempty sep a) as Hne.
    by destruct (split_on sep a).
Qed.

Lemma split_on_whole sep s : occurs sep s = false → split_on sep s = [s].
Proof.
  induction s as [|c rest IH]; simpl; [done|].
  destruct (Ascii.eqb c sep); [done|]. simpl. intros Hrest. by rewrite IH.
Qed.

Lemma string_app_assoc (a b c : string) : (a +:+ b) +:+ c = a +:+ b +:+ c.
Proof.
  induction a as [|x a IH]; [done|]. by rewrite !append_cons, IH.
Qed.

Lemma join_with_snoc sep parts part :
  parts ≠ [] →
  join_with sep (parts ++ [part]) = join_with sep parts +:+ String sep part.
Proof.
  induction parts as [|p [|p' parts] IH]; [done|done|]. intros _.
  change (join_with sep ((p :: p' :: parts) ++ [part]))
    with (p +:+ String sep (join_with sep ((p' :: parts) ++ [part]))).
  rewrite IH by done.
  change (join_with sep (p :: p' :: parts))
    with (p +:+ String sep (join_with sep (p' :: parts))).
  by rewrite string_app_assoc.
Qed.

Lemma from_end_last {A} (l : list A) x : from_end (l ++ [x]) 1 = Ok x.
Proof. unfold from_end. by rewrite rev_unit. Qed.

Lemma from_end_second_last {A} (l : list A) x y :
  from_end (l ++ [x; y]) 2 = Ok x.
Proof.
  unfold from_end. change [x; y] with ([x] ++ [y]).
  by rewrite (assoc_L (++)), !rev_unit.
Qed.

Lemma ends_with_slash_app a b :
  b ≠ "" → ends_with_slash (a +:+ b) = ends_with_slash b.
Proof.
  intros Hb. induction a as [|c a IH]; [done|].
  rewrite append_cons. simpl. rewrite IH.
  destruct (a +:+ b) eqn:Hab; [|done]. by destruct a, b.
Qed.

Lemma path_join_relative a b :
  starts_with_slash b = false → b ≠ "" →
  path_join a b ≠ "" ∧ ends_with_slash (path_join a b) = ends_with_slash b.
Proof.
  intros Hrel Hb. unfold path_join. rewrite Hrel.
  destruct (String.eqb a "" || ends_with_slash a).
  - split; [by destruct a, b|]. by apply ends_with_slash_app.
  - split; [by destruct a|].
    rewrite ends_with_slash_app by done. by destruct b.
Qed.

Lemma sprite_cache_dir_shape script_dir :
  SPRITE_CACHE_DIR script_dir ≠ "" ∧
  ends_with_slash (SPRITE_CACHE_DIR script_dir) = false.
Proof. by apply path_join_relative. Qed.

(** The file of a sprite lies directly in the sprite directory and is named
    by what follows the last slash of the URL (the whole URL when it has no
    slash): a name with no slash in it.  URLs that differ only before their
    last slash get the same file. *)
Theorem sprite_path_is_last_segment script_dir url :
  ∃ head tail,
    url = head +:+ tail ∧
    (head = "" ∨ ends_with_slash head = true) ∧
    occurs "/" tail = false ∧
    get_sprite_path script_dir url
    = Ok (SPRITE_CACHE_DIR script_dir +:+ "/" +:+ tail) ∧
    ∀ head', head' = "" ∨ ends_with_slash head' = true →
             get_sprite_path script_dir (head' +:+ tail)
             = get_sprite_path script_dir url.
Proof.
  assert (∀ tail, occurs "/" tail = false →
            path_join (SPRITE_CACHE_DIR script_dir) tail
            = SPRITE_CACHE_DIR script_dir +:+ "/" +:+ tail) as Hjoin.
  { intros tail Htail. unfold path_join.
    destruct (sprite_cache_dir_shape script_dir) as [Hne ->].
    destruct (String.eqb_spec (SPRITE_CACHE_DIR script_dir) "") as [|_];
      [done|].
    destruct tail as [|c tail]; [done|]. simpl in *.
    by destruct (Ascii.eqb c "/"). }
  assert (∀ head tail,
            head = "" ∨ ends_with_slash head = true →
            occurs "/" tail = false →
            get_sprite_path script_dir (head +:+ tail)
            = Ok (SPRITE_CACHE_DIR script_dir +:+ "/" +:+ tail)) as Hpath.
  { intros head tail Hhead Htail. unfold get_sprite_path.
    destruct Hhead as [->|Hhead].
    - rewrite append_nil, (split_on_whole _ _ Htail).
      change [tail] with ([] ++ [tail]). rewrite from_end_last.
      simpl. by rewrite Hjoin.
    - assert (∃ head0, head = head0 +:+ "/") as [head0 ->].
      { clear -Hhead. induction head as [|c head IH]; [done|].
        destruct head as [|c' head].
        - simpl in Hhead. apply Ascii.eqb_eq in Hhead as ->. by exists "".
        - destruct IH as [head0 ->]; [done|]. by exists (String c head0). }
      rewrite string_app_assoc.
      change ("/" +:+ tail) with (String "/" tail).
      rewrite split_on_app, (split_on_whole _ _ Htail), from_end_last.
      simpl. by rewrite Hjoin. }
  pose proof (split_on_join "/" url) as Hurl.
  pose proof (split_on_parts "/" url) as Hparts.
  pose proof (split_on_nonempty "/" url) as Hne.
  destruct (split_on "/" url) as [|p parts _] using rev_ind; [done|].
  clear Hne. apply Forall_app in Hparts as [_ [Htail _]%Forall_cons].
  assert (∃ head, url = head +:+ p ∧ (head = "" ∨ ends_with_slash head = true))
    as (head & -> & Hhead).
  { destruct parts as [|q parts].
    - exists "". by split; [|left].
    - exists (join_with "/" (q :: parts) +:+ "/"). split.
      + rewrite <-Hurl, join_with_snoc by done. by rewrite string_app_assoc.
      + right. by rewrite ends_with_slash_app. }
  exists head, p. split; [done|]. split; [done|]. split; [done|].
  split; [by apply Hpath|].
  intros head' Hhead'. by rewrite !Hpath.
Qed.

(** The id of a chain node is read from the last-but-one segment of its
    species URL: from [segment] when the URL ends in [/segment/].  A URL
    with no slash has no such segment: [IndexError] is raised, which the
    resolver does not catch. *)
Theorem species_id_reads_second_last_segment chain_data species url :
  getitem chain_data "species" = Ok species →
  getitem species "url" = Ok (JStr url) →
  (∀ base segment,
     url = base +:+ "/" +:+ segment +:+ "/" →
     occurs "/" segment = false →
     species_id chain_data
     = match py_int segment with
       | Some n => Ok n
       | None => Raise ValueError
       end)
  ∧ (occurs "/" url = false →
     species_id chain_data = Raise IndexError ∧
     caught_by_resolver IndexError = false ∧
     ∀ evolution_chain,
       extract_chain chain_data evolution_chain
       = (Raise IndexError, evolution_chain)).
Proof.
  intros Hspecies Hurl. split.
  - intros base segment -> Hsegment. unfold species_id.
    rewrite Hspecies. cbn [result_bind]. rewrite Hurl. cbn [result_bind].
    change ("/" +:+ segment +:+ "/")
      with (String "/" (segment +:+ String "/" "")).
    rewrite !split_on_app, (split_on_whole _ _ Hsegment).
    change ([segment] ++ split_on "/" "") with [segment; ""].
    by rewrite from_end_second_last.
  - intros Hflat.
    assert (species_id chain_data = Raise IndexError) as Hid.
    { unfold species_id. rewrite Hspecies. cbn [result_bind].
      rewrite Hurl. cbn [result_bind].
      by rewrite (split_on_whole _ _ Hflat). }
    split; [done|]. split; [done|]. intros evolution_chain.
    by rewrite extract_chain_eq, Hid.
Qed.

(** *** From the checkboxes to the candidate ids *)

Lemma selected_from_elem i vars g :
  g ∈ selected_from i vars ↔
  ∃ k : nat, vars !! k = Some true ∧ g = i + Z.of_nat k + 1.
Proof.
  revert i. induction vars as [|var vars IH]; intros i; simpl.
  - split; [by intros ?%elem_of_nil|]. by intros (k & ? & _).
  - assert (g ∈ selected_from (i + 1) vars ↔
            ∃ k : nat, (var :: vars) !! S k = Some true ∧
                       g = i + Z.of_nat (S k) + 1) as Hrest.
    { rewrite IH. split; intros (k & Hk & ->); exists k;
        (split; [done|lia]). }
    destruct var.
    + rewrite elem_of_cons, Hrest. split.
      * intros [->|(k & Hk & ->)]; [exists 0%nat|exists (S k)];
          (split; [done|lia]).
      * intros ([|k] & Hk & ->); [left; lia|right; by exists k].
    + rewrite Hrest. split.
      * intros (k & Hk & ->). by exists (S k).
      * intros ([|k] & Hk & ->); [done|by exists k].
Qed.

Lemma gen_ranges_elem gen start end_ :
  gen_ranges !! gen = Some (start, end_) →
  (gen, (start, end_)) ∈
    [ (1, (1, 151)); (2, (152, 251)); (3, (252, 386)); (4, (387, 493));
      (5, (494, 649)); (6, (650, 721)); (7, (722, 809)); (8, (810, 905));
      (9, (906, 1025)) ].
Proof. apply elem_of_list_to_map_2. Qed.

(** The intervals of the table follow one another without overlap. *)
Lemma gen_ranges_increasing gen start end_ gen' start' end_' :
  gen_ranges !! gen = Some (start, end_) →
  gen_ranges !! gen' = Some (start', end_') →
  1 ≤ gen ≤ 9 ∧ start ≤ end_ ∧ (gen < gen' → end_ < start').
Proof.
  intros Hgen%gen_ranges_elem Hgen'%gen_ranges_elem.
  repeat (apply elem_of_cons in Hgen as [[= -> -> ->]|Hgen]);
    try (by apply elem_of_nil in Hgen);
    repeat (apply elem_of_cons in Hgen' as [[= -> -> ->]|Hgen']);
    try (by apply elem_of_nil in Hgen'); lia.
Qed.

Lemma ids_of_selected_NoDup i vars ids :
  ids_of_generations (selected_from i vars) = Ok ids → NoDup ids.
Proof.
  revert i ids. induction vars as [|var vars IH]; intros i ids; simpl.
  { intros [= <-]. constructor. }
  destruct var; [|apply IH]. simpl.
  destruct (gen_ranges !! (i + 1)) as [[start end_]|] eqn:Hgen; [|done].
  destruct (ids_of_generations (selected_from (i + 1) vars)) as [ids'|]
    eqn:Hids'; [|done].
  simpl. intros [= <-]. apply NoDup_app. split; [apply NoDup_seqZ|].
  split; [|by eapply IH].
  intros x Hx%elem_of_id_range
    (gen' & start' & end_' & Hgen' & Hrange' & Hx')%(ids_of_generations_elem
                                                       _ _ _ Hids').
  destruct (gen_ranges_increasing _ _ _ _ _ _ Hgen Hrange') as (_ & _ & Hlt').
  apply selected_from_elem in Hgen' as (k & _ & ->). lia.
Qed.

(** Whatever the nine checkboxes show, the candidate ids are defined (no
    generation is unknown to the table) and hold no id twice; the cycle
    stops with the warning exactly when no box is ticked, and starts the
    sampler on the ticked generations otherwise. *)
Theorem selector_gives_valid_candidates vars :
  length vars = 9%nat →
  Forall (λ gen, 1 ≤ gen ≤ 9) (get_selected_generations vars)
  ∧ (∃ ids,
       ids_of_generations (get_selected_generations vars) = Ok ids ∧
       NoDup ids ∧
       (ids = [] ↔ Forall (λ var, var = false) vars))
  ∧ ∀ fuel type_filter evolution_filter legendary_filter pokemon_names st,
      (Forall (λ var, var = false) vars →
       show_pokemon fuel vars type_filter evolution_filter legendary_filter
         pokemon_names st = NoGenerationSelected)
      ∧ (¬ Forall (λ var, var = false) vars →
         show_pokemon fuel vars type_filter evolution_filter legendary_filter
           pokemon_names st
         = Started (generate_pokemon_team fuel (get_selected_generations vars)
                      type_filter evolution_filter legendary_filter
                      pokemon_names st)).
Proof.
  intros Hlen.
  assert (Forall (λ gen, 1 ≤ gen ≤ 9) (get_selected_generations vars))
    as Hvalid.
  { apply Forall_forall. intros g (k & Hk & ->)%selected_from_elem.
    apply lookup_lt_Some in Hk. lia. }
  assert (get_selected_generations vars = [] ↔
          Forall (λ var, var = false) vars) as Hempty.
  { split.
    - intros Hnil. apply Forall_forall. intros [] Hvar; [|done].
      apply list_elem_of_lookup in Hvar as [k Hk].
      assert (0 + Z.of_nat k + 1 ∈ get_selected_generations vars) as Hin.
      { apply selected_from_elem. by exists k. }
      rewrite Hnil in Hin. by apply elem_of_nil in Hin.
    - intros Hfalse.
      destruct (get_selected_generations vars) as [|g gens] eqn:Hgens;
        [done|].
      assert (g ∈ get_selected_generations vars) as Hin
        by (rewrite Hgens; by left).
      apply selected_from_elem in Hin as (k & Hk & _).
      by pose proof (proj1 (Forall_forall _ _) Hfalse _
                       (list_elem_of_lookup_2 _ _ _ Hk)). }
  split; [done|]. split.
  - destruct (ids_of_generations_defined _ Hvalid) as [ids Hids].
    exists ids. split; [done|]. split.
    { by eapply ids_of_selected_NoDup. }
    rewrite <-Hempty. split.
    + intros ->. destruct (get_selected_generations vars) as [|g gens]; [done|].
      simpl in Hids.
      destruct (gen_ranges !! g) as [[start end_]|] eqn:Hg; [|done].
      destruct (ids_of_generations gens) as [ids'|]; [|done].
      simpl in Hids. injection Hids as Hids.
      apply app_eq_nil in Hids as [Hrange _].
      destruct (gen_ranges_increasing _ _ _ _ _ _ Hg Hg) as (_ & Hle & _).
      assert (start ∈ id_range start end_) as Hin
        by (apply elem_of_id_range; lia).
      rewrite Hrange in Hin. by apply elem_of_nil in Hin.
    + intros Hnil. rewrite Hnil in Hids. simpl in Hids. congruence.
  - intros fuel type_filter evolution_filter legendary_filter pokemon_names st.
    unfold show_pokemon. split.
    + intros Hfalse. by rewrite (proj2 Hempty Hfalse).
    + intros Hsome.
      destruct (get_selected_generations vars) eqn:Hgens; [|done].
      destruct Hsome. by apply Hempty.
Qed.

(** *** The prefetcher *)

Lemma for_ids_best_effort (f : Z → M unit) (cached : state → Z → Prop)
    (url : Z → string) ids st :
  (∀ st st' i, extends st st' → cached st i → cached st' i) →
  (∀ i st, ∃ st1,
     f i st = (Ok (), st1) ∧ extends st st1 ∧
     (cached st i → st1 = st) ∧
     (¬ cached st1 i →
      st1 = tick_requests st ∧ http_get (requests st) (url i) = None) ∧
     (requests st ≤ requests st1 ≤ S (requests st))%nat) →
  ∃ st',
    for_ids f ids st = (Ok (), st') ∧
    extends st st' ∧
    (requests st ≤ requests st' ≤ requests st + length ids)%nat ∧
    (Forall (cached st) ids → st' = st) ∧
    ∀ i, i ∈ ids → ¬ cached st' i →
         ∃ n, (requests st ≤ n < requests st')%nat ∧
              http_get n (url i) = None.
Proof.
  intros Hmono Hstep. revert st.
  induction ids as [|i ids IH]; intros st; simpl.
  { exists st. split; [done|]. split; [apply extends_refl|].
    split; [lia|]. split; [done|]. by intros i ?%elem_of_nil. }
  destruct (Hstep i st) as (st1 & Hrun & Hext & Hhit & Hmiss & Hreq).
  destruct (IH st1) as (st' & Hrest & Hext' & Hreq' & Hall & Hfailed).
  exists st'. rewrite bind_run, Hrun. split; [done|].
  split; [by eapply extends_trans|]. split; [lia|]. split.
  - intros [Hi Hids]%Forall_cons. specialize (Hhit Hi). subst st1.
    by apply Hall.
  - intros j [->|Hj]%elem_of_cons Hj'.
    + assert (¬ cached st1 i) as Hi by (intros ?; by eapply Hj', Hmono).
      destruct (Hmiss Hi) as [-> Hdown]. exists (requests st).
      split; [simpl in *; lia|done].
    + destruct (Hfailed j Hj Hj') as (n & Hn & Hdown). exists n.
      split; [lia|done].
Qed.

(** The prefetcher never raises and never touches an entry that is already
    cached; it issues at most one request per listed id and none when every
    id is cached; and an id is still missing from the cache afterwards only
    when its request failed during the prefetch. *)
Theorem prefetch_is_best_effort pokemon_ids st :
  (∃ st',
     prefetch_pokemon_data pokemon_ids st = (Ok (), st') ∧
     extends st st' ∧
     (requests st ≤ requests st' ≤ requests st + length pokemon_ids)%nat ∧
     (Forall (λ i, is_Some (dict_lookup (HInt i) (pokemon_cache st)))
        pokemon_ids → st' = st) ∧
     ∀ i, i ∈ pokemon_ids →
          dict_lookup (HInt i) (pokemon_cache st') = None →
          ∃ n, (requests st ≤ n < requests st')%nat ∧
               http_get n ("https://pokeapi.co/api/v2/pokemon/" +:+ pretty i)
               = None)
  ∧ (∃ st',
       prefetch_species_data pokemon_ids st = (Ok (), st') ∧
       extends st st' ∧
       (requests st ≤ requests st' ≤ requests st + length pokemon_ids)%nat ∧
       (Forall (λ i, is_Some (dict_lookup (HInt i) (species_cache st)))
          pokemon_ids → st' = st) ∧
       ∀ i, i ∈ pokemon_ids →
            dict_lookup (HInt i) (species_cache st') = None →
            ∃ n, (requests st ≤ n < requests st')%nat ∧
                 http_get n
                   ("https://pokeapi.co/api/v2/pokemon-species/" +:+ pretty i)
                 = None).
Proof.
  split.
  - destruct (for_ids_best_effort fetch_single_pokemon
                (λ s i, is_Some (dict_lookup (HInt i) (pokemon_cache s)))
                (λ i, "https://pokeapi.co/api/v2/pokemon/" +:+ pretty i)
                pokemon_ids st) as (st' & Hrun & Hext & Hreq & Hall & Hfailed).
    + intros s s' i Hext [d Hd]. exists d. by apply (extends_pokemon _ _ Hext).
    + intros i s. rewrite fetch_single_pokemon_run.
      destruct (get_pokemon_data i s) as [r s1] eqn:Hget. exists s1.
      split; [done|]. split.
      { eapply (preserves_get_pokemon_data (extends s));
          [apply stable_extends|apply extends_refl|done]. }
      revert Hget. rewrite get_pokemon_data_run.
      destruct (dict_lookup (HInt i) (pokemon_cache s)) as [d|] eqn:Hhit.
      { intros [= _ <-]. split; [done|]. split; [|lia].
        intros []. by exists d. }
      destruct (http_get _ _) as [d|] eqn:Hdown; intros [= _ <-]; simpl.
      * split; [by intros [? [=]]|]. split; [|lia].
        intros []. exists d. apply dict_lookup_insert_eq.
      * split; [by intros [? [=]]|]. split; [done|lia].
    + exists st'. split; [done|]. split; [done|]. split; [done|].
      split; [done|]. intros i Hi Hmiss. apply Hfailed; [done|].
      rewrite Hmiss. by intros [? [=]].
  - destruct (for_ids_best_effort fetch_single_species
                (λ s i, is_Some (dict_lookup (HInt i) (species_cache s)))
                (λ i, "https://pokeapi.co/api/v2/pokemon-species/" +:+ pretty i)
                pokemon_ids st) as (st' & Hrun & Hext & Hreq & Hall & Hfailed).
    + intros s s' i Hext [d Hd]. exists d. by apply (extends_species _ _ Hext).
    + intros i s. rewrite fetch_single_species_run.
      destruct (get_pokemon_species_data i s) as [r s1] eqn:Hget. exists s1.
      split; [done|]. split.
      { eapply (preserves_get_pokemon_species_data (extends s));
          [apply stable_extends|apply extends_refl|done]. }
      revert Hget. rewrite get_pokemon_species_data_run.
      destruct (dict_lookup (HInt i) (species_cache s)) as [d|] eqn:Hhit.
      { intros [= _ <-]. split; [done|]. split; [|lia].
        intros []. by exists d. }
      destruct (http_get _ _) as [d|] eqn:Hdown; intros [= _ <-]; simpl.
      * split; [by intros [? [=]]|]. split; [|lia].
        intros []. exists d. apply dict_lookup_insert_eq.
      * split; [by intros [? [=]]|]. split; [done|lia].
    + exists st'. split; [done|]. split; [done|]. split; [done|].
      split; [done|]. intros i Hi Hmiss. apply Hfailed; [done|].
      rewrite Hmiss. by intros [? [=]].
Qed.

(** *** Nothing is evicted *)

Lemma extends_generate_pokemon_team fuel selected_generations type_filter
    evolution_filter legendary_filter pokemon_names st r st' :
  generate_pokemon_team fuel selected_generations type_filter evolution_filter
    legendary_filter pokemon_names st = Some (r, st') →
  extends st st'.
Proof.
  unfold generate_pokemon_team.
  destruct (manual_selection _ _ _ _ _) as [[manual|?] st1] eqn:Hmanual.
  - intros Hfill.
    eapply (preserves_fill_team (extends st));
      [apply stable_extends|apply extends_add_warning| |done].
    eapply (preserves_manual_selection (extends st));
      [apply stable_extends|apply extends_add_warning|apply extends_refl|done].
  - intros [= _ <-].
    eapply (preserves_manual_selection (extends st));
      [apply stable_extends|apply extends_add_warning|apply extends_refl|done].
Qed.

(** A whole cycle, however it ends, evicts and overwrites nothing: what a
    cache held before is served from the cache afterwards, unchanged and
    without a request. *)
Theorem cycle_keeps_cached_entries fuel selected_generations type_filter
    evolution_filter legendary_filter pokemon_names st r st' :
  generate_pokemon_team fuel selected_generations type_filter evolution_filter
    legendary_filter pokemon_names st = Some (r, st') →
  (∀ i data, dict_lookup (HInt i) (pokemon_cache st) = Some data →
             get_pokemon_data i st' = (Ok data, st'))
  ∧ (∀ i data, dict_lookup (HInt i) (species_cache st) = Some data →
               get_pokemon_species_data i st' = (Ok data, st'))
  ∧ (∀ i chain, evolution_cache st !! i = Some chain →
                get_evolution_chain i st' = (Ok chain, st')).
Proof.
  intros [Hpokemon Hspecies Hevolution]%extends_generate_pokemon_team.
  split; [|split].
  - intros i data Hhit.
    by rewrite get_pokemon_data_run, (Hpokemon _ _ Hhit).
  - intros i data Hhit.
    by rewrite get_pokemon_species_data_run, (Hspecies _ _ Hhit).
  - intros i chain Hhit.
    by rewrite get_evolution_chain_run, (lookup_weaken _ _ _ _ Hhit Hevolution).
Qed.

(** *** The name index and the manual picks *)

Lemma list_index_ok x l i :
  list_index x l = Ok i →
  ∃ k : nat, i = Z.of_nat k ∧ l !! k = Some x ∧
             ∀ j : nat, (j < k)%nat → l !! j ≠ Some x.
Proof.
  revert i. induction l as [|y l IH]; intros i; simpl; [done|].
  destruct (String.eqb_spec x y) as [->|Hne].
  - intros [= <-]. exists 0%nat. split; [done|]. split; [done|]. lia.
  - destruct (list_index x l) as [i'|]; [|done]. simpl. intros [= <-].
    destruct (IH _ eq_refl) as (k & -> & Hk & Hfirst). exists (S k).
    split; [lia|]. split; [done|]. intros [|j] Hj; simpl; [congruence|].
    apply Hfirst. lia.
Qed.

Lemma list_index_raise x l e :
  list_index x l = Raise e → e = ValueError ∧ x ∉ l.
Proof.
  induction l as [|y l IH]; simpl.
  - intros [= <-]. split; [done|]. by intros ?%elem_of_nil.
  - destruct (String.eqb_spec x y) as [->|Hne]; [done|].
    destruct (list_index x l) as [i'|e'] eqn:Hl; [done|]. simpl.
    intros [= <-]. destruct (IH eq_refl) as [-> Hnotin]. split; [done|].
    by intros [?|?]%elem_of_cons.
Qed.

Lemma list_index_elem x l : x ∈ l → ∃ i, list_index x l = Ok i.
Proof.
  intros Hin. destruct (list_index x l) as [i|e] eqn:Hl; [by eauto|].
  by destruct (list_index_raise _ _ _ Hl) as [_ []].
Qed.

Lemma capitalized_names_ok items names :
  Forall2 (λ p n, getitem p "name" = Ok (JStr n)) items names →
  capitalized_names items = Ok (capitalize <$> names).
Proof.
  induction 1 as [|p n items names Hp _ IH]; simpl; [done|].
  by rewrite Hp, IH.
Qed.

(** The name index: empty when the request fails; otherwise the names of
    the listed entries, capitalized, in the order of the document.  A name
    is found at the position of its first occurrence, which is its own
    position when the capitalized names are distinct. *)
Theorem name_index_lists_capitalized_names st :
  (http_get (requests st) "https://pokeapi.co/api/v2/pokemon?limit=1025" = None →
   get_all_pokemon st = (Ok [], tick_requests st))
  ∧ ∀ data items names,
      http_get (requests st) "https://pokeapi.co/api/v2/pokemon?limit=1025"
      = Some data →
      getitem data "results" = Ok (JArr items) →
      Forall2 (λ p n, getitem p "name" = Ok (JStr n)) items names →
      get_all_pokemon st = (Ok (capitalize <$> names), tick_requests st) ∧
      ∀ (k : nat) n,
        names !! k = Some n →
        ∃ k' : nat,
          (k' ≤ k)%nat ∧
          list_index (capitalize n) (capitalize <$> names) = Ok (Z.of_nat k') ∧
          (capitalize <$> names) !! k' = Some (capitalize n) ∧
          (NoDup (capitalize <$> names) → k' = k).
Proof.
  split.
  - intros Hdown. unfold get_all_pokemon, try_except.
    rewrite bind_run. unfold fetch_json at 1. by rewrite Hdown.
  - intros data items names Hup Hresults Hnames. split.
    + unfold get_all_pokemon, try_except.
      rewrite bind_run. unfold fetch_json at 1. rewrite Hup.
      rewrite bind_run. unfold lift at 1. rewrite Hresults.
      rewrite bind_run. unfold lift. simpl.
      by rewrite (capitalized_names_ok _ _ Hnames).
    + intros k n Hk.
      assert ((capitalize <$> names) !! k = Some (capitalize n)) as Hk'
        by (by rewrite list_lookup_fmap, Hk).
      destruct (list_index_elem (capitalize n) (capitalize <$> names))
        as [i Hi]; [by eapply list_elem_of_lookup_2|].
      destruct (list_index_ok _ _ _ Hi) as (k' & -> & Hfound & Hfirst).
      exists k'. split.
      { destruct (decide (k' ≤ k)%nat); [done|].
        destruct (Hfirst k); [lia|done]. }
      split; [done|]. split; [done|].
      intros Hnodup. by eapply NoDup_lookup.
Qed.

(** Manual picks that are dropped without a word: an empty selector costs
    nothing; a name that is not in the index (every name, when the index
    could not be fetched) and a name whose record cannot be fetched leave
    the selection as it was and schedule no warning. *)
Theorem manual_pick_skips_silently type_filter legendary_filter sel st :
  manual_pick type_filter legendary_filter "" sel st = (Ok sel, st)
  ∧ (∀ pokemon_name names st1,
       pokemon_name ≠ "" →
       get_all_pokemon st = (Ok names, st1) →
       pokemon_name ∉ names →
       manual_pick type_filter legendary_filter pokemon_name sel st
       = (Ok sel, st1) ∧ warnings st1 = warnings st)
  ∧ (∀ pokemon_name names st1 index pokemon_data st2,
       pokemon_name ≠ "" →
       get_all_pokemon st = (Ok names, st1) →
       list_index pokemon_name names = Ok index →
       get_pokemon_data (index + 1) st1 = (Ok pokemon_data, st2) →
       truthy pokemon_data = false →
       manual_pick type_filter legendary_filter pokemon_name sel st
       = (Ok sel, st2) ∧ warnings st2 = warnings st).
Proof.
  split; [done|]. split.
  - intros pokemon_name names st1 Hname Hnames Hnotin. split.
    + unfold manual_pick.
      destruct (String.eqb_spec pokemon_name "") as [|_]; [done|].
      unfold try_except. rewrite bind_run, Hnames, bind_run. unfold lift at 1.
      destruct (list_index pokemon_name names) as [i|e] eqn:Hindex.
      * destruct (list_index_ok _ _ _ Hindex) as (k & _ & Hk & _).
        destruct Hnotin. by eapply list_elem_of_lookup_2.
      * by destruct (list_index_raise _ _ _ Hindex) as [-> _].
    + by eapply (preserves_get_all_pokemon (λ s, warnings s = warnings st));
        [apply stable_warnings| |done].
  - intros pokemon_name names st1 index pokemon_data st2
      Hname Hnames Hindex Hdata Hfalse. split.
    + unfold manual_pick.
      destruct (String.eqb_spec pokemon_name "") as [|_]; [done|].
      unfold try_except. rewrite bind_run, Hnames, bind_run. unfold lift at 1.
      rewrite Hindex. cbv zeta. by rewrite bind_run, Hdata, Hfalse.
    + eapply (preserves_get_pokemon_data (λ s, warnings s = warnings st));
        [apply stable_warnings| |done].
      by eapply (preserves_get_all_pokemon (λ s, warnings s = warnings st));
        [apply stable_warnings| |done].
Qed.

(** *** How a cycle ends *)


Lemma fill_team_outcome fuel selected_generations type_filter
    evolution_filter legendary_filter sel st sel' st' :
  fill_team fuel selected_generations type_filter evolution_filter
    legendary_filter sel st = Some (Ok sel', st') →
  (length (selected_pokemon sel) ≤ length (selected_pokemon sel'))%nat ∧
  (length (selected_pokemon sel) ≤ 6 → length (selected_pokemon sel') ≤ 6)%nat ∧
  ((6 ≤ length (selected_pokemon sel'))%nat ∧ warnings st' = warnings st
   ∨ (length (selected_pokemon sel') < 6)%nat ∧
     warnings st' = warnings st ++ [WarnNoMorePokemon]).
Proof.
  revert sel st.
  induction fuel as [|fuel IH]; intros sel st; simpl;
    (case_bool_decide as Hlen;
     [|intros [= <- <-]; split; [lia|]; split; [lia|]; left; split;
       [lia|done]]); [done|].
  destruct (get_random_pokemon _ _ _ _ _) as [[data|?] st1] eqn:Hrandom;
    [|done].
  assert (warnings st1 = warnings st) as Hwarn.
  { by eapply (preserves_get_random_pokemon (λ s, warnings s = warnings st));
      [apply stable_warnings| |done]. }
  destruct (truthy data); cbn [negb].
  2: { intros [= <- <-]. split; [lia|]. split; [lia|]. right.
       split; [done|]. simpl. by rewrite Hwarn. }
  destruct (commit type_filter data sel) as [sel1|] eqn:Hcommit; [|done].
  destruct (commit_spec _ _ _ _ Hcommit) as [Hroster _].
  intros (Hle & Hmax & Hend)%IH.
  rewrite Hroster, length_app in Hle, Hmax. simpl in Hle, Hmax.
  rewrite Hwarn in Hend. split; [lia|]. split; [lia|done].
Qed.


(** *** Where the random fill takes its entries from *)

Lemma get_random_pokemon_candidate selected_generations existing_types
    evolution_filter exclude_legendary st pokemon_data st' :
  get_random_pokemon selected_generations existing_types evolution_filter
    exclude_legendary st = (Ok pokemon_data, st') →
  truthy pokemon_data = true →
  ∃ valid_ids pokemon_id,
    ids_of_generations selected_generations = Ok valid_ids ∧
    pokemon_id ∈ valid_ids ∧
    dict_lookup (HInt pokemon_id) (pokemon_cache st') = Some pokemon_data.
Proof using shuffle_perm.
  unfold get_random_pokemon. rewrite bind_run. unfold lift at 1.
  destruct (ids_of_generations selected_generations) as [[|i ids]|]; try done.
  - by intros [= <- <-].
  - rewrite bind_run. unfold random_shuffle at 1.
    intros Htry Htrue.
    destruct (try_candidates_accept _ _ _ _ _ _ _ Htry Htrue)
      as [(pokemon_id & Hin & Hcached) _].
    exists (i :: ids), pokemon_id. split; [done|].
    split; [by rewrite shuffle_perm in Hin|done].
Qed.

Lemma fill_team_from_candidates fuel selected_generations type_filter
    evolution_filter legendary_filter sel st sel' st' valid_ids :
  ids_of_generations selected_generations = Ok valid_ids →
  fill_team fuel selected_generations type_filter evolution_filter
    legendary_filter sel st = Some (Ok sel', st') →
  ∀ (j : nat) b,
    (length (selected_pokemon sel) ≤ j)%nat →
    selected_pokemon sel' !! j = Some b →
    truthy b = true ∧
    ∃ i, i ∈ valid_ids ∧
         dict_lookup (HInt i) (pokemon_cache st') = Some b.
Proof using shuffle_perm.
  intros Hids. revert sel st.
  induction fuel as [|fuel IH]; intros sel st; simpl;
    (case_bool_decide as Hlen;
     [|intros [= <- <-] j b Hj Hb; apply lookup_lt_Some in Hb; lia]);
    [done|].
  destruct (get_random_pokemon _ _ _ _ _) as [[data|?] st1] eqn:Hrandom;
    [|done].
  destruct (truthy data) eqn:Htrue; cbn [negb].
  2: { intros [= <- <-] j b Hj Hb. apply lookup_lt_Some in Hb. lia. }
  destruct (commit type_filter data sel) as [sel1|] eqn:Hcommit; [|done].
  destruct (commit_spec _ _ _ _ Hcommit) as [Hroster _].
  intros Hrest j b Hj Hb.
  destruct (decide (j = length (selected_pokemon sel))) as [->|Hne].
  - destruct (fill_team_outcome _ _ _ _ _ _ _ _ _ Hrest) as (_ & _ & _).
    assert (selected_pokemon sel' !! length (selected_pokemon sel) = Some data)
      as Hdata.
    { clear IH Hb.
      assert (∃ added, selected_pokemon sel' = selected_pokemon sel1 ++ added)
        as [added Hadded].
      { clear -Hrest. revert sel1 st1 Hrest.
        induction fuel as [|fuel IH]; intros sel1 st1; simpl;
          (case_bool_decide;
           [|intros [= <- <-]; exists []; by rewrite app_nil_r]); [done|].
        destruct (get_random_pokemon _ _ _ _ _) as [[d|?] s1]; [|done].
        destruct (truthy d); cbn [negb];
          [|intros [= <- <-]; exists []; by rewrite app_nil_r].
        destruct (commit type_filter d sel1) as [sel2|] eqn:Hc; [|done].
        destruct (commit_spec _ _ _ _ Hc) as [Hr _].
        intros [added Hadded]%IH. exists ([d] ++ added).
        by rewrite Hadded, Hr, <-(assoc_L (++)). }
      rewrite Hadded, Hroster, <-(assoc_L (++)). simpl.
      by apply list_lookup_middle. }
    assert (b = data) as -> by congruence. split; [done|].
    destruct (get_random_pokemon_candidate _ _ _ _ _ _ _ Hrandom Htrue)
      as (ids' & i & Hids' & Hin & Hcached).
    assert (ids' = valid_ids) as -> by congruence.
    exists i. split; [done|].
    assert (extends st1 st') as Hext.
    { eapply (preserves_fill_team (extends st1));
        [apply stable_extends|apply extends_add_warning|apply extends_refl
        |done]. }
    by apply (extends_pokemon _ _ Hext).
  - apply (IH _ _ Hrest j b); [|done].
    rewrite Hroster, length_app. simpl. lia.
Qed.

(** Every entry that the random fill appends is a record with a true truth
    value, cached under an id of one of the selected generations; manual
    picks are under no such restriction. *)
Theorem random_fill_draws_from_selected_generations fuel selected_generations
    type_filter evolution_filter legendary_filter pokemon_names st sel st' :
  generate_pokemon_team fuel selected_generations type_filter evolution_filter
    legendary_filter pokemon_names st = Some (Ok sel, st') →
  ∃ manual st1,
    manual_selection selected_generations type_filter legendary_filter
      pokemon_names st = (Ok manual, st1) ∧
    ∀ (j : nat) b,
      (length (selected_pokemon manual) ≤ j)%nat →
      selected_pokemon sel !! j = Some b →
      truthy b = true ∧
      ∃ i gen start end_,
        dict_lookup (HInt i) (pokemon_cache st') = Some b ∧
        gen ∈ selected_generations ∧
        gen_ranges !! gen = Some (start, end_) ∧
        start ≤ i ≤ end_.
Proof using shuffle_perm.
  intros (manual & st1 & Hmanual & Hfill)%generate_pokemon_team_inv.
  exists manual, st1. split; [done|]. intros j b Hj Hb.
  assert (∃ ids, ids_of_generations selected_generations = Ok ids)
    as [ids Hids].
  { revert Hmanual. unfold manual_selection. rewrite bind_run. unfold lift at 1.
    destruct (ids_of_generations selected_generations); [by eauto|done]. }
  destruct (fill_team_from_candidates _ _ _ _ _ _ _ _ _ _ Hids Hfill j b Hj Hb)
    as (Htrue & i & Hin & Hcached).
  split; [done|].
  apply (ids_of_generations_elem _ _ _ Hids) in Hin
    as (gen & start & end_ & Hgen & Hrange & Hi).
  by exists i, gen, start, end_.
Qed.

(** *** Branching chains *)

Lemma preorder_node id children :
  preorder (ChainNode id children) = [id] ++ mjoin (preorder <$> children).
Proof. done. Qed.

Lemma rightmost_node id children :
  rightmost (ChainNode id children) = default id (last (rightmost <$> children)).
Proof. done. Qed.

Lemma last_preorder t : last (preorder t) = Some (rightmost t).
Proof.
  induction t as [id children IH] using chain_tree_forall_ind.
  rewrite preorder_node, rightmost_node.
  destruct children as [|c cs _] using rev_ind; [done|].
  apply Forall_app in IH as [_ [Hc _]%Forall_cons].
  rewrite !fmap_app, !fmap_cons, !fmap_nil, last_snoc, join_app.
  rewrite !last_app. simpl. rewrite app_nil_r. by rewrite Hc.
Qed.

Lemma rightmost_leaf t : rightmost t ∈ leaves t.
Proof.
  induction t as [id children IH] using chain_tree_forall_ind.
  rewrite rightmost_node.
  destruct children as [|c cs _] using rev_ind;
    [by apply list_elem_of_singleton|].
  apply Forall_app in IH as [_ [Hc _]%Forall_cons].
  assert (leaves (ChainNode id (cs ++ [c])) = mjoin (leaves <$> (cs ++ [c])))
    as -> by by destruct cs.
  rewrite !fmap_app, !fmap_cons, !fmap_nil, last_snoc.
  apply list_elem_of_join. exists (leaves c). split; [done|].
  apply elem_of_app. right. by apply list_elem_of_singleton.
Qed.

(** Of an evolution tree only the id that the traversal visits last counts
    as fully evolved: on a first query for an id whose species record
    refers to a tree document, [is_fully_evolved] answers whether the id is
    that one id.  It is a leaf of the tree; every other leaf of a branching
    tree, although it evolves no further, is answered with [False]. *)
Theorem only_last_leaf_counts_as_fully_evolved
    pokemon_id st species_data st1 ref url evolution_data chain t :
  evolution_cache st !! pokemon_id = None →
  get_pokemon_species_data pokemon_id st = (Ok species_data, st1) →
  truthy species_data = true →
  getitem species_data "evolution_chain" = Ok ref →
  getitem ref "url" = Ok (JStr url) →
  http_get (requests st1) url = Some evolution_data →
  getitem evolution_data "chain" = Ok chain →
  represents chain t →
  rightmost t ∈ leaves t ∧
  (∃ st',
     is_fully_evolved pokemon_id st
       = (Ok (bool_decide (pokemon_id = rightmost t)), st')) ∧
  ∀ leaf, leaf ∈ leaves t → leaf ≠ rightmost t → pokemon_id = leaf →
          (is_fully_evolved pokemon_id st).1 = Ok false.
Proof.
  intros Hmiss Hspecies Htrue Href Hurl Hdoc Hchain Hrep.
  assert (∃ st',
     is_fully_evolved pokemon_id st
       = (Ok (bool_decide (pokemon_id = rightmost t)), st')) as [st' Hrun].
  { unfold is_fully_evolved. rewrite bind_run.
    rewrite get_evolution_chain_run, Hmiss, Hspecies, Htrue.
    rewrite (resolve_chain_run _ _ ref url), Hdoc, Hchain by done.
    rewrite (extract_chain_preorder chain t Hrep). simpl.
    pose proof (last_preorder t) as Hlast.
    destruct t as [id children]. simpl in *. rewrite Hlast.
    eexists. unfold mret, M_ret. f_equal. f_equal.
    apply bool_decide_ext. split; congruence. }
  split; [apply rightmost_leaf|]. split; [by exists st'|].
  intros leaf _ Hne ->. rewrite Hrun. simpl. by rewrite bool_decide_eq_false_2.
Qed.

(** *** What the filters let through *)

Lemma resolve_chain_ok pokemon_id species_data st chain st' :
  resolve_chain pokemon_id species_data st = (Ok chain, st') →
  evolution_cache st' !! pokemon_id = Some chain.
Proof.
  unfold resolve_chain. rewrite bind_run. unfold lift at 1.
  destruct (getitem species_data _) as [ref|?]; [|done].
  rewrite bind_run. unfold lift at 1.
  destruct (getitem ref _) as [url|?]; [|done].
  rewrite bind_run.
  destruct (match url with JStr u => fetch_json u | _ => _ end st)
    as [[data|?] st1]; [|done].
  rewrite bind_run. unfold lift at 1.
  destruct (getitem data _) as [chain_data|?]; [|done].
  destruct (extract_chain chain_data []) as [[[]|?] evolution_chain]; [|done].
  intros [= <- <-]. simpl. by rewrite lookup_insert_eq.
Qed.

Lemma is_fully_evolved_true pokemon_id st st' :
  is_fully_evolved pokemon_id st = (Ok true, st') →
  stage_barred st' pokemon_id = false.
Proof.
  unfold is_fully_evolved. rewrite bind_run, get_evolution_chain_run.
  unfold stage_barred.
  destruct (evolution_cache st !! pokemon_id) as [chain|] eqn:Hcache.
  { destruct chain as [|stage stages].
    - intros [= <-]. by rewrite Hcache.
    - intros [= Hlast <-]. by rewrite Hcache, Hlast. }
  destruct (get_pokemon_species_data pokemon_id st)
    as [[species_data|?] st1] eqn:Hspecies; [|done].
  pose proof (get_pokemon_species_data_evolution_cache _ _ _ _ Hspecies) as Hst1.
  destruct (truthy species_data).
  - destruct (resolve_chain pokemon_id species_data st1)
      as [[chain|e] st2] eqn:Hresolve.
    + pose proof (resolve_chain_ok _ _ _ _ _ Hresolve) as Hchain.
      destruct chain as [|stage stages].
      * intros [= <-]. by rewrite Hchain.
      * intros [= Hlast <-]. by rewrite Hchain, Hlast.
    + pose proof (resolve_chain_raise _ _ _ _ _ Hresolve) as Hst2.
      destruct (caught_by_resolver e); [|done].
      intros [= <-]. by rewrite Hst2, Hst1, Hcache.
  - intros [= <-]. by rewrite Hst1, Hcache.
Qed.

Lemma legendary_excluded_evolution_cache flag pokemon_id st r st' :
  legendary_excluded flag pokemon_id st = (r, st') →
  evolution_cache st' = evolution_cache st.
Proof.
  destruct flag; simpl; [|by intros [= _ <-]].
  rewrite fmap_run, is_legendary_run.
  destruct (get_pokemon_species_data pokemon_id st)
    as [[species_data|?] st1] eqn:Hspecies;
    pose proof (get_pokemon_species_data_evolution_cache _ _ _ _ Hspecies)
      as Hst1; [|by intros [= _ <-]].
  destruct (truthy species_data); [|by intros [= _ <-]].
  destruct (dict_get species_data "is_legendary" _) as [legendary|?];
    [|by intros [= _ <-]].
  destruct (truthy legendary); [by intros [= _ <-]|].
  destruct (dict_get species_data "is_mythical" _); by intros [= _ <-].
Qed.

Lemma get_pokemon_species_data_lookup pokemon_id st species_data st' :
  get_pokemon_species_data pokemon_id st = (Ok species_data, st') →
  dict_lookup (HInt pokemon_id) (species_cache st') = Some species_data
  ∨ species_data = JNull ∧
    dict_lookup (HInt pokemon_id) (species_cache st') = None.
Proof.
  rewrite get_pokemon_species_data_run.
  destruct (dict_lookup _ _) eqn:Hhit; [intros [= <- <-]; by left|].
  destruct (http_get _ _); intros [= <- <-].
  - left. simpl. apply dict_lookup_insert_eq.
  - by right.
Qed.

Lemma is_legendary_state pokemon_id st r st1 r' st2 :
  is_legendary pokemon_id st = (r, st1) →
  get_pokemon_species_data pokemon_id st = (r', st2) →
  st1 = st2.
Proof.
  rewrite is_legendary_run. intros Hrun Hspecies. rewrite Hspecies in Hrun.
  destruct r' as [species_data|?]; [|by injection Hrun as _ <-].
  destruct (truthy species_data); [|by injection Hrun as _ <-].
  destruct (dict_get species_data "is_legendary" _) as [legendary|?];
    [|by injection Hrun as _ <-].
  destruct (truthy legendary); by injection Hrun as _ <-.
Qed.

Lemma legendary_excluded_false pokemon_id st st' :
  legendary_excluded true pokemon_id st = (Ok false, st') →
  notable_barred st' pokemon_id = false.
Proof.
  simpl. rewrite fmap_run.
  destruct (is_legendary pokemon_id st) as [[v|?] st1] eqn:Hlegendary; [|done].
  intros [= Hv <-].
  destruct (get_pokemon_species_data pokemon_id st)
    as [species_data st2] eqn:Hspecies.
  pose proof (is_legendary_state _ _ _ _ _ _ Hlegendary Hspecies) as ->.
  destruct species_data as [species_data|e].
  2: { rewrite is_legendary_run, Hspecies in Hlegendary. done. }
  unfold notable_barred.
  destruct (get_pokemon_species_data_lookup _ _ _ _ Hspecies)
    as [Hcached|[-> Hcached]]; rewrite Hcached; [|done].
  destruct species_data as [| | | | |members]; try done.
  destruct (is_legendary_on_record _ _ _ _ Hspecies) as (v' & Hrun & Hflag).
  congruence.
Qed.

Lemma check_candidate_passes existing_types evolution_filter exclude_legendary
    pokemon_id st pokemon_data st' :
  check_candidate existing_types evolution_filter exclude_legendary
    pokemon_id st = (Ok (Some pokemon_data), st') →
  (evolution_filter = true → stage_barred st' pokemon_id = false) ∧
  (exclude_legendary = true → notable_barred st' pokemon_id = false).
Proof.
  unfold check_candidate. rewrite bind_run.
  destruct (get_pokemon_data pokemon_id st) as [[data|?] st1]; [|done].
  destruct (truthy data); [|done]. cbn [negb]. rewrite bind_run.
  destruct (evolution_excluded evolution_filter pokemon_id st1)
    as [[[]|?] st2] eqn:Hstage; try done.
  rewrite bind_run.
  destruct (legendary_excluded exclude_legendary pokemon_id st2)
    as [[[]|?] st3] eqn:Hnotable; try done.
  intros Hrest.
  assert (st' = st3) as ->.
  { destruct existing_types as [used|]; [|by injection Hrest as _ <-].
    revert Hrest. rewrite bind_run. unfold lift at 1.
    destruct (type_names data); [|done].
    case_bool_decide; [done|]. by intros [= _ <-]. }
  split.
  - intros ->. simpl in Hstage. rewrite fmap_run in Hstage.
    destruct (is_fully_evolved pokemon_id st1) as [[[]|?] s] eqn:Hfull;
      try done.
    injection Hstage as <-. apply is_fully_evolved_true in Hfull.
    unfold stage_barred in *.
    by rewrite (legendary_excluded_evolution_cache _ _ _ _ _ Hnotable).
  - intros ->. by apply legendary_excluded_false in Hnotable.
Qed.

Lemma try_candidates_passes existing_types evolution_filter exclude_legendary
    valid_ids st pokemon_data st' :
  try_candidates existing_types evolution_filter exclude_legendary
    valid_ids st = (Ok pokemon_data, st') →
  truthy pokemon_data = true →
  ∃ pokemon_id,
    pokemon_id ∈ valid_ids ∧
    dict_lookup (HInt pokemon_id) (pokemon_cache st') = Some pokemon_data ∧
    (evolution_filter = true → stage_barred st' pokemon_id = false) ∧
    (exclude_legendary = true → notable_barred st' pokemon_id = false).
Proof.
  revert st. induction valid_ids as [|pokemon_id rest IH]; intros st; simpl.
  - by intros [= <- <-].
  - rewrite bind_run.
    destruct (check_candidate _ _ _ _ _) as [[[data|]|?] st1] eqn:Hcheck;
      [| |done].
    + intros [= <- <-] _.
      destruct (check_candidate_accept _ _ _ _ _ _ _ Hcheck) as (_ & ? & _).
      destruct (check_candidate_passes _ _ _ _ _ _ _ Hcheck) as [? ?].
      exists pokemon_id. by rewrite elem_of_cons; auto.
    + intros Hrest Htrue.
      destruct (IH _ Hrest Htrue) as (i & Hi & ?).
      exists i. by rewrite elem_of_cons; auto.
Qed.

(** What [get_random_pokemon] returns has passed the filters that are on,
    as far as the caches can tell when it returns: the record is cached
    under an id whose cached chain, with the stage filter on, is empty or
    ends with that id, and whose cached species record, with the legendary
    filter on, has neither notability flag set.  An id whose chain is not
    cached, because it could not be resolved, passes the stage filter. *)
Theorem returned_candidate_passed_the_filters selected_generations
    existing_types evolution_filter exclude_legendary st pokemon_data st' :
  get_random_pokemon selected_generations existing_types evolution_filter
    exclude_legendary st = (Ok pokemon_data, st') →
  truthy pokemon_data = true →
  ∃ pokemon_id,
    dict_lookup (HInt pokemon_id) (pokemon_cache st') = Some pokemon_data ∧
    (evolution_filter = true →
     ∀ chain, evolution_cache st' !! pokemon_id = Some chain →
              chain = [] ∨ last chain = Some pokemon_id) ∧
    (exclude_legendary = true →
     ∀ members,
       dict_lookup (HInt pokemon_id) (species_cache st') = Some (JObj members) →
       species_flag (JObj members) "is_legendary" = false ∧
       species_flag (JObj members) "is_mythical" = false).
Proof.
  unfold get_random_pokemon. rewrite bind_run. unfold lift at 1.
  destruct (ids_of_generations selected_generations) as [[|i ids]|]; try done.
  - by intros [= <- <-].
  - rewrite bind_run. unfold random_shuffle at 1.
    intros Htry Htrue.
    destruct (try_candidates_passes _ _ _ _ _ _ _ Htry Htrue)
      as (pokemon_id & _ & Hcached & Hstage & Hnotable).
    exists pokemon_id. split; [done|]. split.
    + intros Hfilter chain Hchain. specialize (Hstage Hfilter).
      unfold stage_barred in Hstage. rewrite Hchain in Hstage.
      destruct chain as [|stage stages]; [by left|]. right.
      apply negb_false_iff, bool_decide_eq_true in Hstage. done.
    + intros Hfilter members Hspecies. specialize (Hnotable Hfilter).
      unfold notable_barred in Hnotable. rewrite Hspecies in Hnotable.
      by apply orb_false_iff in Hnotable.
Qed.

(** *** Rendering *)

(** The two loops of [update_ui] build a panel for the first six roster
    entries, in roster order, and for no other: every index they use is
    within the roster, so that [selected_pokemon[idx]] does not raise, and
    a seventh entry is never shown. *)
Theorem display_shows_first_six (n : nat) :
  displayed_indices n = seq 0 (n `min` 6) ∧
  ∀ roster : list json,
    length roster = n →
    Forall (λ idx, is_Some (roster !! idx)) (displayed_indices n) ∧
    omap (λ idx, roster !! idx) (displayed_indices n) = take 6 roster.
Proof.
  assert (displayed_indices n = seq 0 (n `min` 6)) as Hshown.
  { do 6 (destruct n as [|n]; [reflexivity|]). by destruct n. }
  split; [done|]. intros roster Hlen. rewrite Hshown. split.
  - apply Forall_forall. intros idx [_ Hidx]%elem_of_seq.
    apply lookup_lt_is_Some. lia.
  - subst n. clear Hshown.
    assert (∀ (l : list json) m k,
              omap (λ idx, l !! idx) (seq k ((length l - k) `min` m))
              = take m (drop k l)) as Hgen.
    { intros l m. induction m as [|m IH]; intros k.
      { by rewrite Nat.min_0_r. }
      destruct (decide (k < length l)%nat) as [Hk|Hk].
      - destruct (lookup_lt_is_Some_2 l k Hk) as [x Hx].
        replace ((length l - k) `min` S m)%nat
          with (S ((length l - S k) `min` m)) by lia.
        rewrite (drop_S _ _ _ Hx). simpl. rewrite Hx. simpl.
        by rewrite IH.
      - replace ((length l - k) `min` S m)%nat with 0%nat by lia.
        by rewrite drop_ge by lia. }
    specialize (Hgen roster 6%nat 0%nat).
    by rewrite Nat.sub_0_r in Hgen.
Qed.

Lemma first_german_skip before rest dflt :
  Forall (λ name, ∃ code, language_code name = Ok code ∧ code ≠ JStr "de")
    before →
  first_german (before ++ rest) dflt = first_german rest dflt.
Proof.
  induction 1 as [|name before (code & Hcode & Hne) _ IH]; [done|].
  simpl. unfold language_code in Hcode.
  destruct (getitem name "language") as [language|?]; [|done]. simpl in *.
  rewrite Hcode. simpl.
  destruct code as [| | |s| |]; try done.
  destruct (String.eqb_spec s "de") as [->|_]; [done|exact IH].
Qed.

(** The name shown for an entry is the ['name'] of the first entry of the
    species record's ['names'] whose language is ['de']; entries after it
    are not looked at.  Without such an entry it is the capitalised name of
    the primary record.  That default is computed before the search: a
    primary record without a ['name'] makes the lookup raise although a
    German name is there. *)
Theorem german_name_is_first_german_entry species_data pokemon_data items :
  getitem species_data "names" = Ok (JArr items) →
  (∀ before entry after s,
     items = before ++ entry :: after →
     Forall (λ name, ∃ code, language_code name = Ok code ∧ code ≠ JStr "de")
       before →
     language_code entry = Ok (JStr "de") →
     getitem pokemon_data "name" = Ok (JStr s) →
     german_name species_data pokemon_data = getitem entry "name")
  ∧ (∀ s,
       Forall (λ name, ∃ code, language_code name = Ok code ∧ code ≠ JStr "de")
         items →
       getitem pokemon_data "name" = Ok (JStr s) →
       german_name species_data pokemon_data = Ok (JStr (capitalize s)))
  ∧ (∀ e,
       getitem pokemon_data "name" = Raise e →
       german_name species_data pokemon_data = Raise e).
Proof.
  intros Hnames. unfold german_name. rewrite Hnames. simpl.
  split; [|split].
  - intros before entry after s -> Hbefore Hentry ->. simpl.
    rewrite (first_german_skip _ _ _ Hbefore). simpl.
    unfold language_code in Hentry.
    destruct (getitem entry "language") as [language|?]; [|done]. simpl in *.
    by rewrite Hentry.
  - intros s Hitems ->. simpl.
    rewrite <-(app_nil_r items). by rewrite (first_german_skip _ _ _ Hitems).
  - by intros e ->.
Qed.

(** *** What a restart keeps *)

Lemma reload_lookup (acc d : pydict) s :
  dict_lookup (HStr s)
    (foldl (λ d kv, dict_insert (HStr kv.1) kv.2 d) acc (json_dump d))
  = match last_written s d with
    | Some v => Some v
    | None => dict_lookup (HStr s) acc
    end.
Proof.
  revert acc. induction d as [|[k v] d IH]; intros acc; [done|].
  unfold json_dump. rewrite fmap_cons. cbn [foldl fst snd].
  fold (json_dump d). rewrite IH. unfold last_written.
  rewrite filter_cons. cbn [fst].
  destruct (decide (json_key k = s)) as [<-|Hne].
  - rewrite last_cons.
    destruct (last (filter _ d)) as [[k' v']|]; [done|].
    simpl. apply dict_lookup_insert_eq.
  - destruct (last (filter _ d)) as [[k' v']|]; [done|].
    simpl. apply dict_lookup_insert_ne. by intros [= ?].
Qed.

Lemma json_load_dump_lookup (d : pydict) s :
  dict_lookup (HStr s) (json_load (json_dump d)) = last_written s d.
Proof.
  unfold json_load. rewrite reload_lookup. by destruct (last_written s d).
Qed.

(** After [save_cache] and a new start, what a cache holds under a key
    text is what the last entry written under that text held: of a record
    loaded from the file under ["25"] and a record fetched later under [25],
    which the dump writes under one text, the fetched one is kept.  A
    record cached under an integer key, with no later entry of the same
    text, is found again under the decimal text of its key. *)
Theorem restart_keeps_last_written st :
  (∀ s,
     dict_lookup (HStr s) (pokemon_cache (flush_and_restart st))
       = last_written s (pokemon_cache st) ∧
     dict_lookup (HStr s) (species_cache (flush_and_restart st))
       = last_written s (species_cache st))
  ∧ (∀ before i v after,
       pokemon_cache st = before ++ (HInt i, v) :: after →
       Forall (λ kv, json_key kv.1 ≠ pretty i) after →
       dict_lookup (HStr (pretty i)) (pokemon_cache (flush_and_restart st))
         = Some v).
Proof.
  assert (∀ s,
     dict_lookup (HStr s) (pokemon_cache (flush_and_restart st))
       = last_written s (pokemon_cache st) ∧
     dict_lookup (HStr s) (species_cache (flush_and_restart st))
       = last_written s (species_cache st)) as Hkept.
  { intros s. split; apply json_load_dump_lookup. }
  split; [done|]. intros before i v after Hcache Hafter.
  rewrite (proj1 (Hkept _)), Hcache. unfold last_written.
  rewrite filter_app, filter_cons. cbn [fst json_key].
  destruct (decide (pretty i = pretty i)); [|done].
  assert (filter (λ kv : pyhash * json, json_key kv.1 = pretty i) after = [])
    as ->.
  { clear -Hafter. induction Hafter as [|kv after Hkv _ IH]; [done|].
    rewrite filter_cons. by destruct (decide (json_key kv.1 = pretty i)). }
  by rewrite last_snoc.
Qed.

Lemma dict_insert_keys k v (d : pydict) x :
  x ∈ (dict_insert k v d).*1 → x = k ∨ x ∈ d.*1.
Proof.
  induction d as [|[k' v'] d IH]; simpl.
  - intros ->%list_elem_of_singleton. by left.
  - destruct (decide (k = k')) as [->|]; simpl.
    + by right.
    + rewrite !elem_of_cons. intros [->|Hin]; [by right; left|].
      destruct (IH Hin); auto.
Qed.

Lemma dict_insert_NoDup k v (d : pydict) :
  NoDup d.*1 → NoDup (dict_insert k v d).*1.
Proof.
  induction d as [|[k' v'] d IH]; simpl.
  - intros _. apply NoDup_singleton.
  - intros [Hk' Hd]%NoDup_cons.
    destruct (decide (k = k')) as [->|Hne]; simpl.
    + by apply NoDup_cons.
    + apply NoDup_cons. split; [|by apply IH].
      intros [->|Hin]%dict_insert_keys; done.
Qed.

Lemma json_load_NoDup members : NoDup (json_load members).*1.
Proof.
  unfold json_load.
  assert (∀ d : pydict,
            NoDup d.*1 →
            NoDup (foldl (λ d kv, dict_insert (HStr kv.1) kv.2 d) d members).*1)
    as Hacc; [|apply Hacc, NoDup_nil_2].
  induction members as [|[k v] members IH]; intros d Hd; simpl; [done|].
  apply IH. by apply dict_insert_NoDup.
Qed.

Lemma json_load_dump_str_keys (d : pydict) :
  NoDup d.*1 →
  Forall (λ kv, ∃ s, kv.1 = HStr s) d →
  json_load (json_dump d) = d.
Proof.
  intros Hnodup Hstr. unfold json_load, json_dump.
  rewrite json_load_fresh.
  - simpl. rewrite <-list_fmap_compose.
    clear Hnodup. induction Hstr as [|[k v] d [s Hk] _ IH]; [done|].
    rewrite fmap_cons, IH. simpl in *. by subst k.
  - rewrite <-list_fmap_compose.
    clear -Hnodup Hstr. induction Hstr as [|[k v] d [s Hk] Hd IH]; simpl in *;
      [constructor|].
    subst k. apply NoDup_cons in Hnodup as [Hs Hnodup].
    apply NoDup_cons. split; [|by apply IH].
    intros ([k' v'] & Heq & Hin)%list_elem_of_fmap. simpl in Heq.
    apply Hs. apply list_elem_of_fmap. exists (k', v'). split; [|done].
    destruct (proj1 (Forall_forall _ _) Hd _ Hin) as [s' Hs'].
    simpl in *. subst k'. simpl in Heq. by subst s'.
  - apply Forall_forall. by intros kv _.
Qed.

(** A second [save_cache] and restart gives the two caches that the first
    one gave: once every key is text the round trip through the files is
    the identity.  The chains are not kept at all: no file holds
    [evolution_cache], which is empty after every restart. *)
Theorem second_restart_changes_nothing st :
  pokemon_cache (flush_and_restart (flush_and_restart st))
    = pokemon_cache (flush_and_restart st) ∧
  species_cache (flush_and_restart (flush_and_restart st))
    = species_cache (flush_and_restart st) ∧
  evolution_cache (flush_and_restart st) = ∅.
Proof.
  assert (∀ s, pokemon_cache (flush_and_restart s)
               = json_load (json_dump (pokemon_cache s))) as Hpokemon by done.
  assert (∀ s, species_cache (flush_and_restart s)
               = json_load (json_dump (species_cache s))) as Hspecies by done.
  split; [|split; [|done]].
  - rewrite (Hpokemon (flush_and_restart st)), (Hpokemon st).
    apply json_load_dump_str_keys;
      [apply json_load_NoDup|apply json_load_str_keys].
  - rewrite (Hspecies (flush_and_restart st)), (Hspecies st).
    apply json_load_dump_str_keys;
      [apply json_load_NoDup|apply json_load_str_keys].
Qed.

(** *** What the manual picks cost *)

Lemma stable_requests_at_least n : stable (λ st, (n ≤ requests st)%nat).
Proof. split; simpl; intros; lia. Qed.

Lemma get_all_pokemon_requests st r st' :
  get_all_pokemon st = (r, st') → requests st' = S (requests st).
Proof.
  unfold get_all_pokemon, try_except. rewrite bind_run. unfold fetch_json at 1.
  destruct (http_get _ _) as [data|]; [|by intros [= _ <-]].
  rewrite bind_run. unfold lift at 1.
  destruct (getitem data "results") as [results|?];
    [|by destruct (is_request_exception _); intros [= _ <-]].
  rewrite bind_run. unfold lift.
  destruct (py_iter results) as [items|?];
    [|by destruct (is_request_exception _); intros [= _ <-]].
  destruct (capitalized_names items);
    [|destruct (is_request_exception _)]; by intros [= _ <-].
Qed.

Lemma manual_pick_requests type_filter legendary_filter pokemon_name sel
    st r st' :
  pokemon_name ≠ "" →
  manual_pick type_filter legendary_filter pokemon_name sel st = (r, st') →
  (S (requests st) ≤ requests st')%nat.
Proof.
  intros Hname. unfold manual_pick.
  destruct (String.eqb_spec pokemon_name "") as [|_]; [done|].
  unfold try_except. rewrite bind_run.
  destruct (get_all_pokemon st) as [[names|e] st1] eqn:Hnames;
    pose proof (get_all_pokemon_requests _ _ _ Hnames) as Hst1.
  2: { destruct (bool_decide (e = ValueError)); intros [= _ <-]; lia. }
  set (rest := mbind _ _).
  assert (preserves (λ s, (S (requests st) ≤ requests s)%nat) rest) as Hrest.
  { pose proof (stable_requests_at_least (S (requests st))).
    subst rest. solve_preserves. }
  destruct (rest st1) as [[sel1|e] st2] eqn:Hrun;
    assert (S (requests st) ≤ requests st2)%nat
      by (eapply Hrest; [|done]; simpl; lia).
  - by intros [= _ <-].
  - destruct (bool_decide (e = ValueError)); by intros [= _ <-].
Qed.

(** The name index is not kept: every selector that holds a name asks the
    remote for the whole list again, the same name twice as well.  When the
    manual picks are through, at least as many requests have been issued as
    there are names. *)
Theorem index_is_fetched_for_every_manual_name type_filter legendary_filter
    pokemon_names sel st sel' st' :
  manual_picks type_filter legendary_filter pokemon_names sel st
    = (Ok sel', st') →
  (requests st + length (filter (λ n, n ≠ "") pokemon_names)
   ≤ requests st')%nat.
Proof.
  revert sel st.
  induction pokemon_names as [|pokemon_name rest IH]; intros sel st; simpl.
  { intros [= _ <-]. lia. }
  rewrite bind_run.
  destruct (manual_pick _ _ _ _ _) as [[sel1|?] st1] eqn:Hpick; [|done].
  intros Hrest%IH. rewrite filter_cons.
  destruct (decide (pokemon_name ≠ "")) as [Hname|Hempty].
  - pose proof (manual_pick_requests _ _ _ _ _ _ _ Hname Hpick). simpl. lia.
  - assert (requests st ≤ requests st1)%nat; [|lia].
    eapply (preserves_manual_pick (λ s, (requests st ≤ requests s)%nat));
      [apply stable_requests_at_least|done| |done]. done.
Qed.

End Engine.

(** ** Instances on the sample catalogue *)

Lemma candidate_set_is_union_of_intervals_witness :
  Forall (λ gen, 1 ≤ gen ≤ 9) [1; 3] ∧
  ∃ ids, ids_of_generations [1; 3] = Ok ids ∧
    ∀ i, i ∈ ids ↔
         ∃ gen start end_,
           gen ∈ [1; 3] ∧ gen_ranges !! gen = Some (start, end_) ∧
           start ≤ i ≤ end_.
Proof.
  assert (Forall (λ gen, 1 ≤ gen ≤ 9) [1; 3]) as H
    by (repeat constructor; lia).
  split; [exact H|].
  exact (proj1 candidate_set_is_union_of_intervals [1; 3] H).
Defined.

Lemma evolution_chain_is_preorder_witness :
  ∃ st',
    get_evolution_chain sample_http_get sample_int 265 (fresh None None)
      = (Ok [265; 266; 267; 268; 269], st') ∧
    evolution_cache st' = <[265 := [265; 266; 267; 268; 269]]> ∅ ∧
    get_evolution_chain sample_http_get sample_int 265 st'
      = (Ok [265; 266; 267; 268; 269], st').
Proof.
  apply (evolution_chain_is_preorder sample_http_get sample_int 265
           (fresh None None)
           (sample_species false false
              "https://pokeapi.co/api/v2/evolution-chain/135/")
           (set_species_cache
              [(HInt 265,
                sample_species false false
                  "https://pokeapi.co/api/v2/evolution-chain/135/")]
              (tick_requests (fresh None None)))
           (JObj [("url", JStr "https://pokeapi.co/api/v2/evolution-chain/135/")])
           "https://pokeapi.co/api/v2/evolution-chain/135/"
           wurmple_chain
           (sample_node "265" [ sample_node "266" [sample_node "267" []];
                                sample_node "268" [sample_node "269" []] ])
           (ChainNode 265 [ ChainNode 266 [ChainNode 267 []];
                            ChainNode 268 [ChainNode 269 []] ]));
    try reflexivity.
  repeat (econstructor; try reflexivity).
Defined.

(** C2, where the code departs from the claim: after [save_cache] and a
    fresh [load_cache] no integer id is a key of either cache, whatever was
    cached before.  With [{25: pikachu}] cached, the reloaded cache is
    [{"25": pikachu}]: the record is there, under a [str] key, and
    [get_pokemon_data(25)], which hit the cache before the restart, misses
    it afterwards and has to ask the remote again (here the remote is down,
    and the answer is [None]). *)
Theorem reloaded_cache_has_no_integer_keys :
  (∀ st pokemon_id,
     dict_lookup (HInt pokemon_id) (pokemon_cache (flush_and_restart st)) = None ∧
     dict_lookup (HInt pokemon_id) (species_cache (flush_and_restart st)) = None)
  ∧ (let st := set_pokemon_cache [(HInt 25, pikachu)] (fresh None None) in
     dict_lookup (HInt 25) (pokemon_cache st) = Some pikachu ∧
     get_pokemon_data offline_http_get 25 st = (Ok pikachu, st) ∧
     pokemon_cache (flush_and_restart st) = [(HStr "25", pikachu)] ∧
     dict_lookup (HInt 25) (pokemon_cache (flush_and_restart st)) = None ∧
     (get_pokemon_data offline_http_get 25 (flush_and_restart st)).1 = Ok JNull).
Proof.
  split.
  - intros st pokemon_id.
    split; apply dict_lookup_int_str_keys; apply json_load_str_keys.
  - cbv zeta. repeat split; by vm_compute.
Qed.

Lemma is_legendary_iff_flag_witness :
  (∃ v st',
     is_legendary sample_http_get 150 (fresh None None) = (Ok v, st') ∧
     truthy v = true)
  ∧ is_legendary offline_http_get 150 (fresh None None)
    = (Ok (JBool false), tick_requests (fresh None None)).
Proof.
  split.
  - destruct (proj1 (is_legendary_iff_flag sample_http_get 150 (fresh None None))
                _ _ eq_refl) as (v & Hrun & Hv).
    exists v. eexists. split; [exact Hrun|exact Hv].
  - exact (proj2 (is_legendary_iff_flag offline_http_get 150 (fresh None None))
             eq_refl eq_refl).
Defined.

Lemma failed_fetch_is_not_cached_witness :
  get_pokemon_data offline_http_get 7 (fresh None None)
    = (Ok JNull, tick_requests (fresh None None))
  ∧ get_pokemon_species_data offline_http_get 7 (fresh None None)
    = (Ok JNull, tick_requests (fresh None None))
  ∧ (∃ st', get_evolution_chain offline_http_get sample_int 7 (fresh None None)
            = (Ok [], st') ∧ evolution_cache st' = ∅)
  ∧ (∃ st', get_evolution_chain sample_http_get sample_int 150 (fresh None None)
            = (Ok [], st') ∧ evolution_cache st' = ∅)
  ∧ (∃ st', extract_chain sample_int (sample_node "7" [JObj [("evolves_to", JArr [])]]) []
            = (Raise KeyError, [7]) ∧
            get_evolution_chain sample_http_get sample_int 7 (fresh None None)
            = (Ok [], st') ∧ evolution_cache st' = ∅).
Proof.
  destruct (failed_fetch_is_not_cached offline_http_get sample_int 7
              (fresh None None)) as (Hpokemon & Hspecies & Hoffline).
  destruct (failed_fetch_is_not_cached sample_http_get sample_int 150
              (fresh None None)) as (_ & _ & Hmewtwo).
  destruct (failed_fetch_is_not_cached sample_http_get sample_int 7
              (fresh None None)) as (_ & _ & Hsquirtle).
  split; [exact (proj1 (Hpokemon eq_refl eq_refl))|].
  split; [exact (proj1 (Hspecies eq_refl eq_refl))|].
  split; [|split].
  - eexists. exact (proj1 (Hoffline eq_refl _ _ eq_refl) eq_refl).
  - eexists.
    exact (proj1 (proj2 (Hmewtwo eq_refl _ _ eq_refl) eq_refl _ _ eq_refl eq_refl)
             eq_refl).
  - eexists. split; [reflexivity|].
    destruct (proj2 (proj2 (Hsquirtle eq_refl _ _ eq_refl) eq_refl _ _
                       eq_refl eq_refl)
                _ _ KeyError [7] eq_refl eq_refl eq_refl)
      as (_ & Hcache & Hrun).
    split; [exact (Hrun (or_introl eq_refl))|exact Hcache].
Defined.

Lemma manual_pick_rejected_iff_notable_witness :
  ∃ sel' st',
    manual_pick sample_http_get true true "Charmander"
      (Selection [charmeleon] {[ HStr "fire" ]}) (fresh None None)
    = (Ok sel', st') ∧
    selected_pokemon sel' = [charmeleon; charmander] ∧
    warnings st' = [].
Proof.
  destruct (manual_pick_rejected_iff_notable sample_http_get
              true true "Charmander"
              (Selection [charmeleon] {[ HStr "fire" ]}) (fresh None None)
              ["Bulbasaur"; "Ivysaur"; "Venusaur"; "Charmander"; "Charmeleon"]
              (tick_requests (fresh None None)) 3 charmander
              (set_pokemon_cache [(HInt 4, charmander)]
                 (tick_requests (tick_requests (fresh None None))))
              false
              (tick_requests
                 (set_pokemon_cache [(HInt 4, charmander)]
                    (tick_requests (tick_requests (fresh None None))))))
    as (_ & sel' & Hrun & Hsel); try reflexivity.
  - discriminate.
  - intros _. eexists. reflexivity.
  - exists sel'. eexists. split; [exact Hrun|]. split; [exact Hsel|reflexivity].
Defined.

Lemma sample_shuffle_perm n l : sample_shuffle n l ≡ₚ l.
Proof. reflexivity. Qed.

Lemma sample_remote_faithful : remote_faithful sample_http_get.
Proof.
  intros n i data. unfold sample_http_get, sample_documents.
  generalize (eq_refl (pretty i)). generalize (pretty i) at 2 3. intros s Hs.
  cbn -[String.eqb].
  repeat match goal with
  | |- context [String.eqb ?a ?b] =>
      destruct (String.eqb_spec a b) as [Heq|_];
        [simpl in Heq; repeat (injection Heq as Heq); try discriminate Heq|]
  end; intros [= <-].
  - by rewrite (inj pretty i 1 (eq_trans Hs Heq)).
  - by rewrite (inj pretty i 4 (eq_trans Hs Heq)).
  - by rewrite (inj pretty i 5 (eq_trans Hs Heq)).
Qed.

(** C1 fails as stated.  With every filter off the random fill can return
    the same record for every slot, here six times the record of id 1 (the
    shuffle leaves the candidates in the same order each time); and with
    the type filter on, the same name picked twice by hand is in the
    roster twice. *)
Lemma roster_can_repeat_an_id :
  (∃ sel st',
     generate_pokemon_team sample_http_get sample_shuffle sample_int 6 [1]
       false false false [] (fresh None None) = Some (Ok sel, st') ∧
     selected_pokemon sel = replicate 6 bulbasaur ∧
     ¬ distinct_ids (selected_pokemon sel))
  ∧ (∃ sel st',
       generate_pokemon_team sample_http_get sample_shuffle sample_int 6 [1]
         true false false ["Charmander"; "Charmander"] (fresh None None)
       = Some (Ok sel, st') ∧
       selected_pokemon sel = [charmander; charmander; bulbasaur] ∧
       ¬ distinct_ids (selected_pokemon sel)).
Proof.
  split.
  - eexists _, _. split; [by vm_compute|]. split; [done|].
    intros Hnodup%NoDup_cons_1_1. apply Hnodup. by left.
  - eexists _, _. split; [by vm_compute|]. split; [done|].
    intros Hnodup%NoDup_cons_1_1. apply Hnodup. by left.
Qed.

(** C3 fails as stated: with the type filter on, two manual picks of type
    fire are both in the roster. *)
Lemma manual_picks_can_share_a_type :
  ∃ sel st',
    generate_pokemon_team sample_http_get sample_shuffle sample_int 6 [1]
      true false false ["Charmander"; "Charmeleon"] (fresh None None)
    = Some (Ok sel, st') ∧
    selected_pokemon sel = [charmander; charmeleon; bulbasaur] ∧
    selected_pokemon sel !! 0%nat = Some charmander ∧
    selected_pokemon sel !! 1%nat = Some charmeleon ∧
    share_type charmander charmeleon.
Proof.
  eexists _, _. split; [by vm_compute|]. repeat split.
  exists ({[ HStr "fire" ]} ∪ ∅), ({[ HStr "fire" ]} ∪ ∅).
  split; [done|]. split; [done|]. set_solver.
Qed.

Lemma random_fill_shares_no_type_witness :
  ∃ sel st',
    generate_pokemon_team sample_http_get sample_shuffle sample_int 6 [1]
      true false false ["Charmander"; "Charmeleon"] (fresh None None)
    = Some (Ok sel, st') ∧
    ∃ manual st1,
      manual_selection sample_http_get [1] true false
        ["Charmander"; "Charmeleon"] (fresh None None) = (Ok manual, st1) ∧
      (∃ added, selected_pokemon sel = selected_pokemon manual ++ added) ∧
      ∀ i j a b,
        (i < j)%nat → (length (selected_pokemon manual) ≤ j)%nat →
        selected_pokemon sel !! i = Some a →
        selected_pokemon sel !! j = Some b →
        ∃ ta tb, type_names a = Ok ta ∧ type_names b = Ok tb ∧ ta ∩ tb = ∅.
Proof.
  eexists _, _. split; [by vm_compute|].
  eapply (random_fill_shares_no_type sample_http_get sample_shuffle sample_int
            6 [1] false false ["Charmander"; "Charmeleon"] (fresh None None)).
  by vm_compute.
Defined.

Lemma random_fill_repeats_no_id_witness :
  remote_faithful sample_http_get ∧
  cache_faithful (fresh None None) ∧
  ∃ sel st',
    generate_pokemon_team sample_http_get sample_shuffle sample_int 6 [1]
      true false false ["Charmander"; "Charmeleon"] (fresh None None)
    = Some (Ok sel, st') ∧
    ∃ manual st1,
      manual_selection sample_http_get [1] true false
        ["Charmander"; "Charmeleon"] (fresh None None) = (Ok manual, st1) ∧
      (∃ added, selected_pokemon sel = selected_pokemon manual ++ added) ∧
      ∀ i j a b,
        (i < j)%nat → (length (selected_pokemon manual) ≤ j)%nat →
        selected_pokemon sel !! i = Some a →
        selected_pokemon sel !! j = Some b →
        type_names b ≠ Ok ∅ →
        ∃ ia ib, record_id a = Some ia ∧ record_id b = Some ib ∧ ia ≠ ib.
Proof.
  assert (cache_faithful (fresh None None)) as Hcache by (by intros i data).
  split; [exact sample_remote_faithful|]. split; [exact Hcache|].
  eexists _, _. split; [by vm_compute|].
  eapply (random_fill_repeats_no_id sample_http_get sample_shuffle sample_int
            6 [1] false false ["Charmander"; "Charmeleon"] (fresh None None)
            _ _ sample_remote_faithful Hcache).
  by vm_compute.
Defined.

Lemma fill_loop_terminates_witness :
  Forall (λ i, barred false true sample_legends i = true) (id_range 650 721)
  ∧ is_Some (generate_pokemon_team sample_http_get sample_shuffle sample_int
               6 [6] false false true [] sample_legends)
  ∧ (∃ st',
       generate_pokemon_team sample_http_get sample_shuffle sample_int
         6 [6] false false true [] sample_legends
       = Some (Ok (Selection [] ∅), st') ∧
       warnings st' = [WarnNoMorePokemon])
  ∧ (∃ st',
       try_candidates sample_http_get sample_int None false true [650]
         sample_legends = (Ok JNull, st')).
Proof.
  assert (Forall (λ i, barred false true sample_legends i = true)
            (id_range 650 721)) as Hbarred.
  { refine (bool_decide_unpack _ _). by vm_compute. }
  destruct (fill_loop_terminates sample_http_get sample_shuffle
              sample_shuffle_perm sample_int [6] false false true []
              sample_legends) as (Hterminates & Hpartial & Hsingle).
  split; [exact Hbarred|]. split; [apply Hterminates; lia|].
  split; [exact (Hpartial (id_range 650 721) eq_refl Hbarred)|].
  apply Hsingle. reflexivity.
Defined.

(** ** Instances of the further properties *)

Lemma sample_checkboxes_length :
  length [true; false; true; false; false; false; false; false; false] = 9%nat.
Proof. reflexivity. Qed.

Lemma selector_gives_valid_candidates_witness :
  get_selected_generations
    [true; false; true; false; false; false; false; false; false] = [1; 3]
  ∧ ∃ ids, ids_of_generations [1; 3] = Ok ids ∧ NoDup ids.
Proof.
  split; [reflexivity|].
  destruct (selector_gives_valid_candidates sample_http_get sample_shuffle
              sample_int
              [true; false; true; false; false; false; false; false; false]
              sample_checkboxes_length)
    as (_ & (ids & Hids & Hnodup & _) & _).
  by exists ids.
Defined.

Lemma species_id_reads_second_last_segment_witness :
  species_id sample_int (sample_node "266" []) = Ok 266
  ∧ species_id sample_int
      (JObj [("species", JObj [("url", JStr "pokemon-species")])])
    = Raise IndexError.
Proof.
  split.
  - exact (proj1 (species_id_reads_second_last_segment sample_int
                    (sample_node "266" [])
                    (JObj [("url", JStr "https://pokeapi.co/api/v2/pokemon-species/266/")])
                    "https://pokeapi.co/api/v2/pokemon-species/266/"
                    eq_refl eq_refl)
             "https://pokeapi.co/api/v2/pokemon-species" "266"
             eq_refl eq_refl).
  - exact (proj1 (proj2 (species_id_reads_second_last_segment sample_int
                           (JObj [("species", JObj [("url", JStr "pokemon-species")])])
                           (JObj [("url", JStr "pokemon-species")])
                           "pokemon-species" eq_refl eq_refl)
                    eq_refl)).
Defined.

Lemma sprite_path_is_last_segment_witness :
  ∃ head tail,
    "https://raw.githubusercontent.com/sprites/pokemon/25.png" = head +:+ tail ∧
    occurs "/" tail = false ∧
    get_sprite_path "/app"
      "https://raw.githubusercontent.com/sprites/pokemon/25.png"
    = Ok (SPRITE_CACHE_DIR "/app" +:+ "/" +:+ tail) ∧
    get_sprite_path "/app" ("shiny/" +:+ tail)
    = get_sprite_path "/app"
        "https://raw.githubusercontent.com/sprites/pokemon/25.png".
Proof.
  destruct (sprite_path_is_last_segment "/app"
              "https://raw.githubusercontent.com/sprites/pokemon/25.png")
    as (head & tail & Hurl & _ & Htail & Hpath & Hsame).
  exists head, tail. split; [exact Hurl|]. split; [exact Htail|].
  split; [exact Hpath|]. apply Hsame. right. reflexivity.
Defined.

Lemma prefetch_is_best_effort_witness :
  prefetch_pokemon_data sample_http_get [25]
    (set_pokemon_cache [(HInt 25, pikachu)] (fresh None None))
  = (Ok (), set_pokemon_cache [(HInt 25, pikachu)] (fresh None None)).
Proof.
  destruct (prefetch_is_best_effort sample_http_get [25]
              (set_pokemon_cache [(HInt 25, pikachu)] (fresh None None)))
    as [(st' & Hrun & _ & _ & Hsame & _) _].
  assert (Forall
            (λ i, is_Some
                    (dict_lookup (HInt i)
                       (pokemon_cache
                          (set_pokemon_cache [(HInt 25, pikachu)]
                             (fresh None None)))))
            [25]) as Hcached.
  { constructor; [|constructor]. exists pikachu. reflexivity. }
  rewrite (Hsame Hcached) in Hrun. exact Hrun.
Defined.

Lemma cycle_keeps_cached_entries_witness :
  ∃ sel st',
    generate_pokemon_team sample_http_get sample_shuffle sample_int 6 [1]
      false false false []
      (set_pokemon_cache [(HInt 25, pikachu)] (fresh None None))
    = Some (Ok sel, st') ∧
    get_pokemon_data sample_http_get 25 st' = (Ok pikachu, st').
Proof.
  eexists _, _. split; [by vm_compute|].
  refine (proj1 (cycle_keeps_cached_entries sample_http_get sample_shuffle
                   sample_int 6 [1] false false false []
                   (set_pokemon_cache [(HInt 25, pikachu)] (fresh None None))
                   (Ok _) _ _)
            25 pikachu eq_refl).
  by vm_compute.
Defined.

Lemma name_index_lists_capitalized_names_witness :
  get_all_pokemon offline_http_get (fresh None None)
    = (Ok [], tick_requests (fresh None None))
  ∧ get_all_pokemon sample_http_get (fresh None None)
    = (Ok ["Bulbasaur"; "Ivysaur"; "Venusaur"; "Charmander"; "Charmeleon"],
       tick_requests (fresh None None))
  ∧ ∃ k' : nat,
      (k' ≤ 3)%nat ∧
      list_index "Charmander"
        ["Bulbasaur"; "Ivysaur"; "Venusaur"; "Charmander"; "Charmeleon"]
      = Ok (Z.of_nat k').
Proof.
  split.
  - exact (proj1 (name_index_lists_capitalized_names offline_http_get
                    (fresh None None)) eq_refl).
  - destruct (proj2 (name_index_lists_capitalized_names sample_http_get
                       (fresh None None))
                (JObj [("results", JArr ((λ n, JObj [("name", JStr n)]) <$>
                   ["bulbasaur"; "ivysaur"; "venusaur"; "charmander";
                    "charmeleon"]))])
                ((λ n, JObj [("name", JStr n)]) <$>
                   ["bulbasaur"; "ivysaur"; "venusaur"; "charmander";
                    "charmeleon"])
                ["bulbasaur"; "ivysaur"; "venusaur"; "charmander"; "charmeleon"]
                eq_refl eq_refl)
      as [Hrun Hindex].
    { repeat constructor. }
    split; [exact Hrun|].
    destruct (Hindex 3%nat "charmander" eq_refl) as (k' & Hle & Hk' & _).
    exists k'. split; [exact Hle|exact Hk'].
Defined.

Lemma manual_pick_skips_silently_witness :
  manual_pick sample_http_get true true "Mew" (Selection [] ∅) (fresh None None)
    = (Ok (Selection [] ∅), tick_requests (fresh None None))
  ∧ manual_pick sample_http_get true true "Ivysaur" (Selection [] ∅)
      (fresh None None)
    = (Ok (Selection [] ∅), tick_requests (tick_requests (fresh None None))).
Proof.
  destruct (manual_pick_skips_silently sample_http_get true true
              (Selection [] ∅) (fresh None None)) as (_ & Habsent & Hdown).
  split.
  - refine (proj1 (Habsent "Mew"
              ["Bulbasaur"; "Ivysaur"; "Venusaur"; "Charmander"; "Charmeleon"]
              (tick_requests (fresh None None)) _ eq_refl _)).
    + discriminate.
    + refine (bool_decide_unpack _ _). by vm_compute.
  - refine (proj1 (Hdown "Ivysaur"
              ["Bulbasaur"; "Ivysaur"; "Venusaur"; "Charmander"; "Charmeleon"]
              (tick_requests (fresh None None)) 1 JNull
              (tick_requests (tick_requests (fresh None None)))
              _ eq_refl eq_refl eq_refl eq_refl)).
    discriminate.
Defined.


Lemma random_fill_draws_from_selected_generations_witness :
  ∃ sel st',
    generate_pokemon_team sample_http_get sample_shuffle sample_int 6 [1]
      true false false ["Charmander"; "Charmeleon"] (fresh None None)
    = Some (Ok sel, st') ∧
    ∃ manual st1,
      manual_selection sample_http_get [1] true false
        ["Charmander"; "Charmeleon"] (fresh None None) = (Ok manual, st1) ∧
      ∀ (j : nat) b,
        (length (selected_pokemon manual) ≤ j)%nat →
        selected_pokemon sel !! j = Some b →
        truthy b = true ∧
        ∃ i gen start end_,
          dict_lookup (HInt i) (pokemon_cache st') = Some b ∧
          gen ∈ [1] ∧
          gen_ranges !! gen = Some (start, end_) ∧
          start ≤ i ≤ end_.
Proof.
  eexists _, _. split; [by vm_compute|].
  eapply (random_fill_draws_from_selected_generations sample_http_get
            sample_shuffle sample_shuffle_perm sample_int
            6 [1] true false false ["Charmander"; "Charmeleon"]
            (fresh None None)).
  by vm_compute.
Defined.

Lemma only_last_leaf_counts_as_fully_evolved_witness :
  (is_fully_evolved branch_http_get sample_int 267 (fresh None None)).1
  = Ok false.
Proof.
  refine (proj2 (proj2
    (only_last_leaf_counts_as_fully_evolved branch_http_get sample_int 267
       (fresh None None)
       (sample_species false false
          "https://pokeapi.co/api/v2/evolution-chain/135/")
       (set_species_cache
          [(HInt 267,
            sample_species false false
              "https://pokeapi.co/api/v2/evolution-chain/135/")]
          (tick_requests (fresh None None)))
       (JObj [("url", JStr "https://pokeapi.co/api/v2/evolution-chain/135/")])
       "https://pokeapi.co/api/v2/evolution-chain/135/"
       wurmple_chain
       (sample_node "265" [ sample_node "266" [sample_node "267" []];
                            sample_node "268" [sample_node "269" []] ])
       (ChainNode 265 [ ChainNode 266 [ChainNode 267 []];
                        ChainNode 268 [ChainNode 269 []] ])
       eq_refl eq_refl eq_refl eq_refl eq_refl eq_refl eq_refl _))
    267 _ _ eq_refl).
  - repeat (econstructor; try reflexivity).
  - refine (bool_decide_unpack _ _). by vm_compute.
  - discriminate.
Defined.

Lemma returned_candidate_passed_the_filters_witness :
  ∃ st' pokemon_id,
    get_random_pokemon sample_http_get sample_shuffle sample_int [1] None
      true true (fresh None None) = (Ok charmander, st') ∧
    dict_lookup (HInt pokemon_id) (pokemon_cache st') = Some charmander ∧
    (∀ chain, evolution_cache st' !! pokemon_id = Some chain →
              chain = [] ∨ last chain = Some pokemon_id) ∧
    (∀ members,
       dict_lookup (HInt pokemon_id) (species_cache st') = Some (JObj members) →
       species_flag (JObj members) "is_legendary" = false ∧
       species_flag (JObj members) "is_mythical" = false).
Proof.
  eexists. 
  assert (get_random_pokemon sample_http_get sample_shuffle sample_int [1] None
            true true (fresh None None) = (Ok charmander, _)) as Hrun
    by (by vm_compute).
  destruct (returned_candidate_passed_the_filters sample_http_get
              sample_shuffle sample_int [1] None true true (fresh None None)
              charmander _ Hrun eq_refl)
    as (pokemon_id & Hcached & Hstage & Hnotable).
  exists pokemon_id. split; [exact Hrun|]. split; [exact Hcached|].
  split; [exact (Hstage eq_refl)|exact (Hnotable eq_refl)].
Defined.

Lemma display_shows_first_six_witness :
  omap (λ idx, [pikachu; bulbasaur] !! idx) (displayed_indices 2)
  = take 6 [pikachu; bulbasaur].
Proof.
  exact (proj2 (proj2 (display_shows_first_six 2) [pikachu; bulbasaur] eq_refl)).
Defined.

Lemma german_name_is_first_german_entry_witness :
  german_name
    (sample_names [sample_name "fr" "Bulbizarre"; sample_name "de" "Bisasam";
                   JNull])
    bulbasaur
  = Ok (JStr "Bisasam")
  ∧ german_name (sample_names [sample_name "fr" "Bulbizarre"]) bulbasaur
    = Ok (JStr "Bulbasaur")
  ∧ german_name (sample_names [sample_name "de" "Bisasam"])
      (JObj [("id", JNum 1)])
    = Raise KeyError.
Proof.
  assert (Forall (λ name, ∃ code, language_code name = Ok code ∧
                                  code ≠ JStr "de")
            [sample_name "fr" "Bulbizarre"]) as Hfrench.
  { constructor; [|constructor]. exists (JStr "fr").
    split; [reflexivity|discriminate]. }
  split; [|split].
  - exact (proj1 (german_name_is_first_german_entry
                    (sample_names [sample_name "fr" "Bulbizarre";
                                   sample_name "de" "Bisasam"; JNull])
                    bulbasaur
                    [sample_name "fr" "Bulbizarre"; sample_name "de" "Bisasam";
                     JNull]
                    eq_refl)
             [sample_name "fr" "Bulbizarre"] (sample_name "de" "Bisasam")
             [JNull] "bulbasaur" eq_refl Hfrench eq_refl eq_refl).
  - exact (proj1 (proj2 (german_name_is_first_german_entry
                           (sample_names [sample_name "fr" "Bulbizarre"])
                           bulbasaur [sample_name "fr" "Bulbizarre"] eq_refl))
             "bulbasaur" Hfrench eq_refl).
  - exact (proj2 (proj2 (german_name_is_first_german_entry
                           (sample_names [sample_name "de" "Bisasam"])
                           (JObj [("id", JNum 1)])
                           [sample_name "de" "Bisasam"] eq_refl))
             KeyError eq_refl).
Defined.

Lemma restart_keeps_last_written_witness :
  dict_lookup (HStr "25")
    (pokemon_cache
       (flush_and_restart
          (set_pokemon_cache [(HStr "25", bulbasaur); (HInt 25, pikachu)]
             (fresh None None))))
  = Some pikachu.
Proof.
  exact (proj2 (restart_keeps_last_written
                  (set_pokemon_cache [(HStr "25", bulbasaur); (HInt 25, pikachu)]
                     (fresh None None)))
           [(HStr "25", bulbasaur)] 25 pikachu [] eq_refl (Forall_nil_2 _)).
Defined.

Lemma index_is_fetched_for_every_manual_name_witness :
  ∃ sel' st',
    manual_picks sample_http_get true false ["Charmander"; ""; "Charmander"]
      (Selection [] ∅) (fresh None None) = (Ok sel', st') ∧
    (2 ≤ requests st')%nat.
Proof.
  eexists _, _. split; [by vm_compute|].
  refine (index_is_fetched_for_every_manual_name sample_http_get true false
            ["Charmander"; ""; "Charmander"] (Selection [] ∅)
            (fresh None None) _ _ _).
  by vm_compute.
Defined.
